(** * Tree ancestor / farthest-distance queries (chefir_tree_escape)

    A shallow embedding of [chefir_tree_escape/tree_query.py]: the [Tree]
    class with its preprocessing passes ([_dfs], [_build_lifting],
    [_compute_farthest]) and its queries ([get_kth_ancestor],
    [is_ancestor], [get_farthest_distance]), followed by the properties of
    the query engine.

    Python integers are [Z].  Python lists are Rocq lists read and written
    through [getitem]/[setitem], which implement Python's index rule
    (negative indices count from the end, anything else out of range raises
    [IndexError]).  The [defaultdict(list)] adjacency is a [gmap Z (list Z)]
    whose lookup inserts an empty list for a missing key.  Methods run in a
    state-and-exception monad over the [Tree] object; the recursive passes
    take a fuel argument that stands for the interpreter's recursion limit. *)

From Stdlib Require Import ZArith Lia.
From stdpp Require Import base option list gmap.

Open Scope Z_scope.

(** ** Python values *)

Inductive exn : Set :=
  | IndexError
  | RuntimeError
  | RecursionError.

Inductive result (A : Type) : Type :=
  | Ok (a : A)
  | Raise (e : exn).
Arguments Ok {A} a.
Arguments Raise {A} e.

(** [lst[i]]: the position Python resolves index [i] to in a list of
    length [len], if any. *)
Definition norm_index (len : nat) (i : Z) : option nat :=
  if (0 <=? i) && (i <? Z.of_nat len) then Some (Z.to_nat i)
  else if (- Z.of_nat len <=? i) && (i <? 0) then Some (Z.to_nat (Z.of_nat len + i))
  else None.

Definition getitem {A} (l : list A) (i : Z) : option A :=
  match norm_index (length l) i with
  | Some j => l !! j
  | None => None
  end.

Definition setitem {A} (l : list A) (i : Z) (x : A) : option (list A) :=
  match norm_index (length l) i with
  | Some j => Some (<[j := x]> l)
  | None => None
  end.

(** [int.bit_length()] *)
Definition bit_length (x : Z) : Z :=
  if x =? 0 then 0 else Z.log2 (Z.abs x) + 1.

(** [range(lo, hi)] and [range(hi, -1, -1)] *)
Definition range (lo hi : Z) : list Z := seqZ lo (hi - lo).
Definition range_down (hi : Z) : list Z := reverse (range 0 (hi + 1)).

(** ** The Tree object *)

Record Tree : Type := mkTree {
  n : Z;
  edges : gmap Z (list Z);
  depth : list Z;
  parent : list Z;
  LOGN : Z;
  up : list (list Z);
  max_depth_in_subtree : list Z;
  farthest_node : list Z;
  _preprocessed : bool
}.

Definition with_edges (e : gmap Z (list Z)) (t : Tree) : Tree :=
  mkTree (n t) e (depth t) (parent t) (LOGN t) (up t)
         (max_depth_in_subtree t) (farthest_node t) (_preprocessed t).
Definition with_depth (l : list Z) (t : Tree) : Tree :=
  mkTree (n t) (edges t) l (parent t) (LOGN t) (up t)
         (max_depth_in_subtree t) (farthest_node t) (_preprocessed t).
Definition with_parent (l : list Z) (t : Tree) : Tree :=
  mkTree (n t) (edges t) (depth t) l (LOGN t) (up t)
         (max_depth_in_subtree t) (farthest_node t) (_preprocessed t).
Definition with_up (l : list (list Z)) (t : Tree) : Tree :=
  mkTree (n t) (edges t) (depth t) (parent t) (LOGN t) l
         (max_depth_in_subtree t) (farthest_node t) (_preprocessed t).
Definition with_max_depth_in_subtree (l : list Z) (t : Tree) : Tree :=
  mkTree (n t) (edges t) (depth t) (parent t) (LOGN t) (up t)
         l (farthest_node t) (_preprocessed t).
Definition with_farthest_node (l : list Z) (t : Tree) : Tree :=
  mkTree (n t) (edges t) (depth t) (parent t) (LOGN t) (up t)
         (max_depth_in_subtree t) l (_preprocessed t).
Definition with_preprocessed (b : bool) (t : Tree) : Tree :=
  mkTree (n t) (edges t) (depth t) (parent t) (LOGN t) (up t)
         (max_depth_in_subtree t) (farthest_node t) b.

(** ** The method monad: state of [self], Python exceptions *)

Definition M (A : Type) : Type := Tree → result A * Tree.

Definition ret {A} (a : A) : M A := λ t, (Ok a, t).
Definition raise {A} (e : exn) : M A := λ t, (Raise e, t).
Definition bind {A B} (m : M A) (k : A → M B) : M B :=
  λ t, match m t with
       | (Ok a, t') => k a t'
       | (Raise e, t') => (Raise e, t')
       end.

Declare Scope py_scope.
Delimit Scope py_scope with py.
Notation "x <- m ;; k" := (bind m (λ x, k))
  (at level 100, m at next level, right associativity) : py_scope.
Notation "m ;; k" := (bind m (λ _, k))
  (at level 100, right associativity) : py_scope.
Open Scope py_scope.

(** [self.f] *)
Definition get {A} (f : Tree → A) : M A := λ t, (Ok (f t), t).

(** [self.f[i]] for a list attribute [f] *)
Definition load (f : Tree → list Z) (i : Z) : M Z :=
  λ t, match getitem (f t) i with
       | Some x => (Ok x, t)
       | None => (Raise IndexError, t)
       end.

(** [self.f[i] = x] *)
Definition store (f : Tree → list Z) (upd : list Z → Tree → Tree)
    (i x : Z) : M unit :=
  λ t, match setitem (f t) i x with
       | Some l => (Ok tt, upd l t)
       | None => (Raise IndexError, t)
       end.

(** [self.up[u][k]] *)
Definition load_up (u k : Z) : M Z :=
  λ t, match getitem (up t) u with
       | Some row =>
           match getitem row k with
           | Some x => (Ok x, t)
           | None => (Raise IndexError, t)
           end
       | None => (Raise IndexError, t)
       end.

(** [self.up[v][k] = x].  The rows of [up] are distinct list objects (they
    come from a list comprehension), so mutating row [v] in place is the
    functional update of that row in the outer list. *)
Definition store_up (v k x : Z) : M unit :=
  λ t, match getitem (up t) v with
       | Some row =>
           match setitem row k x with
           | Some row' =>
               match setitem (up t) v row' with
               | Some rows => (Ok tt, with_up rows t)
               | None => (Raise IndexError, t)
               end
           | None => (Raise IndexError, t)
           end
       | None => (Raise IndexError, t)
       end.

(** [self.edges[u]] on the [defaultdict(list)]: a missing key is inserted
    with a fresh empty list. *)
Definition edges_at (u : Z) : M (list Z) :=
  λ t, match edges t !! u with
       | Some l => (Ok l, t)
       | None => (Ok [], with_edges (<[u := []]> (edges t)) t)
       end.

(** [for x in l: body(x)] *)
Fixpoint for_each {A} (l : list A) (body : A → M unit) : M unit :=
  match l with
  | [] => ret tt
  | x :: l' => body x ;; for_each l' body
  end.

(** ** Construction *)

(** [Tree.__init__] *)
Definition init (n0 : Z) : Tree :=
  let logn := Z.max 1 (bit_length n0) in
  let zeros := replicate (Z.to_nat (n0 + 1)) 0 in
  {| n := n0;
     edges := ∅;
     depth := zeros;
     parent := zeros;
     LOGN := logn;
     up := replicate (Z.to_nat (n0 + 1)) (replicate (Z.to_nat (logn + 1)) 0);
     max_depth_in_subtree := zeros;
     farthest_node := zeros;
     _preprocessed := false |}.

(** The list the adjacency holds for [u], empty when [u] is not a key. *)
Definition adj (e : gmap Z (list Z)) (u : Z) : list Z := default [] (e !! u).

(** [Tree.add_edge] *)
Definition add_edge (u v : Z) : M unit :=
  λ t, let e1 := <[u := adj (edges t) u ++ [v]]> (edges t) in
       let e2 := <[v := adj e1 v ++ [u]]> e1 in
       (Ok tt, with_edges e2 t).

(** ** Preprocessing *)

(** [Tree._dfs] *)
Fixpoint _dfs (fuel : nat) (u p : Z) : M unit :=
  match fuel with
  | O => raise RecursionError
  | S fuel' =>
      store parent with_parent u p ;;
      vs <- edges_at u ;;
      for_each vs (λ v,
        if bool_decide (v ≠ p) then
          du <- load depth u ;;
          store depth with_depth v (du + 1) ;;
          _dfs fuel' v u
        else ret tt)
  end.

(** [Tree._build_lifting] *)
Definition _build_lifting : M unit :=
  n0 <- get n ;;
  for_each (range 1 (n0 + 1)) (λ v,
    pv <- load parent v ;;
    store_up v 0 pv) ;;
  logn <- get LOGN ;;
  for_each (range 1 (logn + 1)) (λ k,
    n1 <- get n ;;
    for_each (range 1 (n1 + 1)) (λ v,
      a <- load_up v (k - 1) ;;
      b <- load_up a (k - 1) ;;
      store_up v k b)).

(** [Tree._compute_farthest] *)
Fixpoint _compute_farthest (fuel : nat) (u p : Z) : M unit :=
  match fuel with
  | O => raise RecursionError
  | S fuel' =>
      du <- load depth u ;;
      store max_depth_in_subtree with_max_depth_in_subtree u du ;;
      store farthest_node with_farthest_node u u ;;
      vs <- edges_at u ;;
      for_each vs (λ v,
        if bool_decide (v ≠ p) then
          _compute_farthest fuel' v u ;;
          mv <- load max_depth_in_subtree v ;;
          mu <- load max_depth_in_subtree u ;;
          if mv >? mu then
            mv' <- load max_depth_in_subtree v ;;
            store max_depth_in_subtree with_max_depth_in_subtree u mv' ;;
            fv <- load farthest_node v ;;
            store farthest_node with_farthest_node u fv
          else ret tt
        else ret tt)
  end.

(** [Tree.preprocess] *)
Definition preprocess (fuel : nat) : M unit :=
  _dfs fuel 1 0 ;;
  _build_lifting ;;
  _compute_farthest fuel 1 0 ;;
  λ t, (Ok tt, with_preprocessed true t).

(** ** Queries *)

(** The loop of [get_kth_ancestor]: [idxs] are the remaining values of [i]. *)
Fixpoint kth_loop (idxs : list Z) (k u : Z) : M Z :=
  match idxs with
  | [] => ret u
  | i :: idxs' =>
      if Z.land k (Z.shiftl 1 i) =? 0 then kth_loop idxs' k u
      else
        u' <- load_up u i ;;
        if u' =? 0 then ret u' else kth_loop idxs' k u'
  end.

(** [Tree.get_kth_ancestor] *)
Definition get_kth_ancestor (u k : Z) : M Z :=
  logn <- get LOGN ;;
  kth_loop (range 0 (logn + 1)) k u.

(** [Tree.is_ancestor] *)
Definition is_ancestor (u v : Z) : M bool :=
  dv <- load depth v ;;
  du <- load depth u ;;
  if dv <? du then ret false
  else
    dv' <- load depth v ;;
    du' <- load depth u ;;
    v_up <- get_kth_ancestor v (dv' - du') ;;
    ret (v_up =? u).

(** The first loop of [get_farthest_distance] (lines 134-141), over the
    remaining values [ks] of [k], with the locals [u] and [stamina_left]. *)
Fixpoint lift_loop (ks : list Z) (u stamina_left : Z) : M (Z * Z) :=
  match ks with
  | [] => ret (u, stamina_left)
  | k :: ks' =>
      if stamina_left >=? Z.shiftl 1 k then
        u_ancestor <- load_up u k ;;
        if u_ancestor =? 0 then lift_loop ks' u stamina_left
        else lift_loop ks' u_ancestor (stamina_left - Z.shiftl 1 k)
      else lift_loop ks' u stamina_left
  end.

(** The second loop of [get_farthest_distance] (lines 145-151), over the
    remaining values of [used], with the local [max_dist]. *)
Fixpoint climb_loop (useds : list Z) (v max_dist : Z) : M Z :=
  match useds with
  | [] => ret max_dist
  | used :: useds' =>
      u_ancestor <- get_kth_ancestor v used ;;
      if u_ancestor =? 0 then ret max_dist
      else
        m <- load max_depth_in_subtree u_ancestor ;;
        d <- load depth v ;;
        let dist := m - d + used in
        climb_loop useds' v (if dist >? max_dist then dist else max_dist)
  end.

(** [Tree.get_farthest_distance] *)
Definition get_farthest_distance (v stamina : Z) : M Z :=
  pre <- get _preprocessed ;;
  if negb pre then raise RuntimeError
  else
    m <- load max_depth_in_subtree v ;;
    d <- load depth v ;;
    logn <- get LOGN ;;
    lift_loop (range_down logn) v stamina ;;
    climb_loop (range 1 (stamina + 1)) v (m - d).

(** [get_farthest_distance] with its first loop deleted. *)
Definition get_farthest_distance_simplified (v stamina : Z) : M Z :=
  pre <- get _preprocessed ;;
  if negb pre then raise RuntimeError
  else
    m <- load max_depth_in_subtree v ;;
    d <- load depth v ;;
    climb_loop (range 1 (stamina + 1)) v (m - d).

(** [main]: [Tree(n)], then [add_edge] for every pair of the edge list. *)
Definition build (n0 : Z) (edge_list : list (Z * Z)) : Tree :=
  snd (for_each edge_list (λ e, add_edge e.1 e.2) (init n0)).

(** [QueryProcessor.process_query] *)
Definition process_query (v stamina : Z) : M Z :=
  get_farthest_distance v stamina.

(** The loop of [QueryProcessor.process_queries], with the list [results]
    built so far. *)
Fixpoint process_queries_loop (queries : list (Z * Z)) (results : list Z)
    : M (list Z) :=
  match queries with
  | [] => ret results
  | (v, stamina) :: queries' =>
      r <- process_query v stamina ;;
      process_queries_loop queries' (results ++ [r])
  end.

(** [QueryProcessor.process_queries] *)
Definition process_queries (queries : list (Z * Z)) : M (list Z) :=
  process_queries_loop queries [].

(** The body of the loop of [main] for one test case: build the tree,
    preprocess it, answer the queries.  An exception ends the run. *)
Definition solve_case (fuel : nat) (n0 : Z) (edge_list queries : list (Z * Z))
    : result (list Z) :=
  match preprocess fuel (build n0 edge_list) with
  | (Ok _, t) => (process_queries queries t).1
  | (Raise e, _) => Raise e
  end.

(** The loop of [main] over [zip(trees_data, all_queries)], with the list
    [all_results] built so far. *)
Fixpoint main_loop (fuel : nat)
    (cases : list ((Z * list (Z * Z)) * list (Z * Z)))
    (all_results : list (list Z)) : result (list (list Z)) :=
  match cases with
  | [] => Ok all_results
  | ((n0, edge_list), queries) :: cases' =>
      match solve_case fuel n0 edge_list queries with
      | Ok case_results => main_loop fuel cases' (all_results ++ [case_results])
      | Raise e => Raise e
      end
  end.

(** [main], from the parsed input to the results handed to the output
    formatter. *)
Definition main_results (fuel : nat)
    (trees_data : list (Z * list (Z * Z)))
    (all_queries : list (list (Z * Z))) : result (list (list Z)) :=
  main_loop fuel (zip trees_data all_queries) [].

(** ** Scenario inputs *)

Definition star4 : list (Z * Z) := [(1, 2); (1, 3); (1, 4)].
Definition path5 : list (Z * Z) := [(1, 2); (2, 3); (3, 4); (4, 5)].

(** * Specification vocabulary *)

(** Total readers for the tables, used to state properties: the entry of a
    list at a Python index, 0 where the index is out of range. *)
Definition at_ (l : list Z) (i : Z) : Z := default 0 (getitem l i).
Definition up_at (t : Tree) (v k : Z) : Z :=
  at_ (default [] (getitem (up t) v)) k.

(** A rooted tree as a witness of what a valid input looks like: the
    orientation of the undirected edges away from the root. *)
#[warnings="-register-all"]
Inductive rtree : Type := Node (label : Z) (kids : list rtree).

Definition root (T : rtree) : Z := match T with Node u _ => u end.

Fixpoint ids (T : rtree) : list Z :=
  match T with Node u cs => u :: concat (map ids cs) end.

Fixpoint height (T : rtree) : nat :=
  match T with Node _ cs => S (foldr Nat.max 0%nat (map height cs)) end.

(** The adjacency [a] has the shape of [T] entered from [p]: the neighbours
    of a node other than the one it was entered from are its children, in
    the order the adjacency list gives them. *)
Fixpoint shape (a : Z → list Z) (p : Z) (T : rtree) : bool :=
  match T with
  | Node u cs =>
      bool_decide (filter (λ v, v ≠ p) (a u) = map root cs)
      && forallb (shape a u) cs
  end.

(** A valid input: [n0] nodes numbered 1..n0, and edges that make them a
    tree, here oriented as [T] from the root 1. *)
Definition valid_tree (n0 : Z) (edge_list : list (Z * Z)) (T : rtree) : Prop :=
  root T = 1
  ∧ NoDup (ids T)
  ∧ Forall (λ v, 1 ≤ v ≤ n0) (ids T)
  ∧ length (ids T) = Z.to_nat n0
  ∧ shape (adj (edges (build n0 edge_list))) 0 T = true.

#[local] Instance valid_tree_dec n0 edge_list T :
  Decision (valid_tree n0 edge_list T).
Proof. unfold valid_tree. apply _. Defined.

Definition star4_tree : rtree := Node 1 [Node 2 []; Node 3 []; Node 4 []].
Definition path5_tree : rtree :=
  Node 1 [Node 2 [Node 3 [Node 4 [Node 5 []]]]].

(** [i] is an index Python accepts for a list of length [len]. *)
Definition valid_index (len : nat) (i : Z) : Prop :=
  - Z.of_nat len ≤ i < Z.of_nat len.

(** What every pass keeps true of a [Tree(n0)], on any input: the sizes of
    the tables, and that every node id stored in [parent] and [up] is an
    index the tables accept.  [b] is the value of [_preprocessed]. *)
Definition wf (n0 : Z) (b : bool) (t : Tree) : Prop :=
  let L := Z.to_nat (n0 + 1) in
  let R := Z.to_nat (Z.max 1 (bit_length n0) + 1) in
  n t = n0
  ∧ LOGN t = Z.max 1 (bit_length n0)
  ∧ _preprocessed t = b
  ∧ length (depth t) = L
  ∧ length (max_depth_in_subtree t) = L
  ∧ length (farthest_node t) = L
  ∧ (length (parent t) = L ∧ Forall (valid_index L) (parent t))
  ∧ (length (up t) = L
     ∧ Forall (λ row, length row = R ∧ Forall (valid_index L) row) (up t)).

(** [l'] agrees with [l] at every node id outside [S]. *)
Definition untouched (S : list Z) (l l' : list Z) : Prop :=
  ∀ w, 0 ≤ w → w ∉ S → at_ l' w = at_ l w.

(** What [_dfs] has done to [parent] and [depth] once it returns from the
    subtree [T] entered from [p]. *)
Definition dfs_post (a : Z → list Z) (T : rtree) (p : Z) (t t' : Tree) : Prop :=
  (∀ w, adj (edges t') w = a w)
  ∧ length (parent t') = length (parent t)
  ∧ length (depth t') = length (depth t)
  ∧ untouched (ids T) (parent t) (parent t')
  ∧ untouched (ids T) (depth t) (depth t')
  ∧ at_ (depth t') (root T) = at_ (depth t) (root T)
  ∧ at_ (parent t') (root T) = p
  ∧ (∀ w, w ∈ ids T → w ≠ root T →
       at_ (parent t') w ∈ ids T
       ∧ at_ (depth t') w = at_ (depth t') (at_ (parent t') w) + 1)
  ∧ (∀ w, w ∈ ids T →
       at_ (depth t) (root T) ≤ at_ (depth t') w
         < at_ (depth t) (root T) + Z.of_nat (length (ids T))).

(** The same for the loop of [_dfs] at [u] over the children [cs]. *)
Definition dfs_loop_post (a : Z → list Z) (u : Z) (cs : list rtree)
    (t t' : Tree) : Prop :=
  let S := concat (map ids cs) in
  (∀ w, adj (edges t') w = a w)
  ∧ length (parent t') = length (parent t)
  ∧ length (depth t') = length (depth t)
  ∧ untouched S (parent t) (parent t')
  ∧ untouched S (depth t) (depth t')
  ∧ (∀ r, r ∈ map root cs →
       at_ (parent t') r = u ∧ at_ (depth t') r = at_ (depth t) u + 1)
  ∧ (∀ w, w ∈ S → w ∉ map root cs →
       at_ (parent t') w ∈ S
       ∧ at_ (depth t') w = at_ (depth t') (at_ (parent t') w) + 1)
  ∧ (∀ w, w ∈ S →
       at_ (depth t) u < at_ (depth t') w
         ≤ at_ (depth t) u + Z.of_nat (length S)).

(** The sizes of the [up] table of a [Tree(n0)] whose [LOGN] is [G]. *)
Definition up_dims (n0 G : Z) (t : Tree) : Prop :=
  length (up t) = Z.to_nat (n0 + 1)
  ∧ Forall (λ row : list Z, length row = Z.to_nat (G + 1)) (up t).

(** The progress of [_build_lifting] from the object [t0] it started on:
    every level below [kdone] is filled, and level [kdone] is filled for the
    nodes below [vdone]. *)
Definition lifting_inv (n0 G : Z) (t0 : Tree) (kdone vdone : Z) (t : Tree) : Prop :=
  t = with_up (up t) t0
  ∧ up_dims n0 G t
  ∧ (∀ v k, 0 ≤ v ≤ n0 → 0 ≤ k ≤ G → 0 ≤ up_at t v k ≤ n0)
  ∧ (∀ k, 0 ≤ k ≤ G → up_at t 0 k = 0)
  ∧ (∀ v k, 1 ≤ v ≤ n0 → 0 ≤ k ≤ G →
       k < kdone ∨ (k = kdone ∧ v < vdone) →
       up_at t v k =
         if decide (k = 0) then at_ (parent t0) v
         else up_at t (up_at t v (k - 1)) (k - 1)).

(** The finished lifting table. *)
Definition lifted (n0 G : Z) (t : Tree) : Prop :=
  up_dims n0 G t
  ∧ (∀ v k, 0 ≤ v ≤ n0 → 0 ≤ k ≤ G → 0 ≤ up_at t v k ≤ n0)
  ∧ (∀ k, 0 ≤ k ≤ G → up_at t 0 k = 0)
  ∧ (∀ v, 1 ≤ v ≤ n0 → up_at t v 0 = at_ (parent t) v)
  ∧ (∀ v k, 1 ≤ v ≤ n0 → 1 ≤ k ≤ G →
       up_at t v k = up_at t (up_at t v (k - 1)) (k - 1)).

(** What [_compute_farthest] has done once it has covered the nodes [S]. *)
Definition cf_post (a : Z → list Z) (S : list Z) (t t' : Tree) : Prop :=
  (∀ w, adj (edges t') w = a w)
  ∧ depth t' = depth t
  ∧ length (max_depth_in_subtree t') = length (max_depth_in_subtree t)
  ∧ length (farthest_node t') = length (farthest_node t)
  ∧ untouched S (max_depth_in_subtree t) (max_depth_in_subtree t')
  ∧ (∀ w, w ∈ S → at_ (depth t) w ≤ at_ (max_depth_in_subtree t') w).

(** What [preprocess] establishes on a valid tree with [n0] nodes: node 1
    is the root at depth 0, every other node is one level below its parent,
    the lifting table is filled, and every subtree is at least as deep as
    its root. *)
Definition Inv (n0 : Z) (t : Tree) : Prop :=
  1 ≤ n0
  ∧ wf n0 true t
  ∧ lifted n0 (LOGN t) t
  ∧ at_ (parent t) 0 = 0
  ∧ at_ (parent t) 1 = 0
  ∧ at_ (depth t) 1 = 0
  ∧ (∀ v, 2 ≤ v ≤ n0 →
       1 ≤ at_ (parent t) v ≤ n0
       ∧ at_ (depth t) v = at_ (depth t) (at_ (parent t) v) + 1)
  ∧ (∀ v, 1 ≤ v ≤ n0 → 0 ≤ at_ (depth t) v < n0)
  ∧ (∀ v, 1 ≤ v ≤ n0 →
       at_ (depth t) v ≤ at_ (max_depth_in_subtree t) v).

(** The [j]-th ancestor as the [parent] table gives it: [j] steps from [v]
    to the parent, staying on the sentinel 0 once the root has been left. *)
Definition par (t : Tree) (v : Z) : Z := at_ (parent t) v.
Definition anc (t : Tree) (j : nat) (v : Z) : Z := Nat.iter j (par t) v.

(** The part of [k] that the loop of [get_kth_ancestor] looks at when it
    tests the bits [idxs]. *)
Definition low_bits (k : Z) (idxs : list Z) : Z :=
  foldr (λ i acc, (if Z.land k (Z.shiftl 1 i) =? 0 then 0 else 2 ^ i) + acc)
        0 idxs.

(** The other endpoints of the edges at [u], in the order of the edge list
    (a self-loop counts twice). *)
Definition neighbours (edge_list : list (Z * Z)) (u : Z) : list Z :=
  flat_map (λ e : Z * Z,
              (if decide (e.1 = u) then [e.2] else [])
              ++ (if decide (e.2 = u) then [e.1] else []))
           edge_list.

(** How far below node [a] its subtree reaches, as the tables record it. *)
Definition descent (t : Tree) (a : Z) : Z :=
  at_ (max_depth_in_subtree t) a - at_ (depth t) a.

(** The best descent among [v] and its ancestors up to the [m]-th. *)
Definition best_descent (t : Tree) (v m : Z) : Z :=
  foldl (λ acc used, Z.max acc (descent t (anc t (Z.to_nat used) v)))
        (descent t v) (range 1 (m + 1)).

Definition kids (T : rtree) : list rtree := match T with Node _ cs => cs end.

(** Every node of [T] with the subtree hanging from it. *)
Fixpoint subtrees (T : rtree) : list rtree :=
  match T with Node u cs => Node u cs :: concat (map subtrees cs) end.

(** [par] and [dep] record the children of the root of [S] as such. *)
Definition linked (par dep : list Z) (S : rtree) : Prop :=
  ∀ c, c ∈ kids S →
    at_ par (root c) = root S ∧ at_ dep (root c) = at_ dep (root S) + 1.

(** [mds] and [far] record, at the root of [S], the depth of a deepest node
    of [S] and a node of [S] at that depth, the root itself when nothing in
    [S] is deeper. *)
Definition deepest_ok (dep mds far : list Z) (S : rtree) : Prop :=
  (∀ w, w ∈ ids S → at_ dep w ≤ at_ mds (root S))
  ∧ at_ far (root S) ∈ ids S
  ∧ at_ dep (at_ far (root S)) = at_ mds (root S)
  ∧ (at_ mds (root S) = at_ dep (root S) → at_ far (root S) = root S).

(** A method is read-only when it hands back the object it was given,
    whatever it returns or raises. *)
Definition readonly {A} (m : M A) : Prop := ∀ t, (m t).2 = t.

(** * Reasoning about methods *)

Lemma bind_ok {A B} (m : M A) (k : A → M B) t a t' :
  m t = (Ok a, t') → bind m k t = k a t'.
Proof. intros H. unfold bind. by rewrite H. Qed.

Lemma bind_raise {A B} (m : M A) (k : A → M B) t e t' :
  m t = (Raise e, t') → bind m k t = (Raise e, t').
Proof. intros H. unfold bind. by rewrite H. Qed.

(** ** Read-only methods *)

Lemma readonly_ret {A} (a : A) : readonly (ret a).
Proof. by intros t. Qed.

Lemma readonly_raise {A} e : readonly (@raise A e).
Proof. by intros t. Qed.

Lemma readonly_get {A} (f : Tree → A) : readonly (get f).
Proof. by intros t. Qed.

Lemma readonly_load f i : readonly (load f i).
Proof. intros t. unfold load. by destruct (getitem (f t) i). Qed.

Lemma readonly_load_up u k : readonly (load_up u k).
Proof.
  intros t. unfold load_up.
  destruct (getitem (up t) u) as [row|]; [|done].
  by destruct (getitem row k).
Qed.

Lemma readonly_bind {A B} (m : M A) (k : A → M B) :
  readonly m → (∀ a, readonly (k a)) → readonly (bind m k).
Proof.
  intros Hm Hk t. unfold bind. specialize (Hm t).
  destruct (m t) as [[a|e] t']; simpl in *; subst; [apply Hk | done].
Qed.

Lemma readonly_if {A} (b : bool) (m1 m2 : M A) :
  readonly m1 → readonly m2 → readonly (if b then m1 else m2).
Proof. by destruct b. Qed.

Create HintDb readonly.
#[local] Hint Resolve readonly_ret readonly_raise readonly_get readonly_load
  readonly_load_up readonly_bind readonly_if : readonly.

Lemma readonly_kth_loop idxs k u : readonly (kth_loop idxs k u).
Proof.
  revert u. induction idxs as [|i idxs IH]; intros u; simpl;
    auto 10 with readonly.
Qed.
#[local] Hint Resolve readonly_kth_loop : readonly.

Lemma readonly_get_kth_ancestor u k : readonly (get_kth_ancestor u k).
Proof. unfold get_kth_ancestor. auto with readonly. Qed.
#[local] Hint Resolve readonly_get_kth_ancestor : readonly.

Lemma readonly_is_ancestor u v : readonly (is_ancestor u v).
Proof. unfold is_ancestor. auto 20 with readonly. Qed.

Lemma readonly_lift_loop ks u sl : readonly (lift_loop ks u sl).
Proof.
  revert u sl. induction ks as [|k ks IH]; intros u sl; simpl;
    auto 10 with readonly.
Qed.

Lemma readonly_climb_loop useds v md : readonly (climb_loop useds v md).
Proof.
  revert md. induction useds as [|used useds IH]; intros md; simpl;
    auto 10 with readonly.
Qed.
#[local] Hint Resolve readonly_lift_loop readonly_climb_loop : readonly.

Lemma readonly_get_farthest_distance v s : readonly (get_farthest_distance v s).
Proof. unfold get_farthest_distance. auto 20 with readonly. Qed.

Lemma readonly_get_farthest_distance_simplified v s :
  readonly (get_farthest_distance_simplified v s).
Proof. unfold get_farthest_distance_simplified. auto 20 with readonly. Qed.

(** A read-only method run twice gives the same outcome twice. *)
Lemma readonly_repeat {A} (m : M A) t :
  readonly m → m (m t).2 = m t.
Proof. intros H. by rewrite H. Qed.

(** ** Python list access *)

Lemma norm_index_nonneg len i :
  0 ≤ i < Z.of_nat len → norm_index len i = Some (Z.to_nat i).
Proof.
  intros H. unfold norm_index.
  destruct (Z.leb_spec 0 i), (Z.ltb_spec i (Z.of_nat len)); simpl; (done || lia).
Qed.

Lemma norm_index_lt len i j : norm_index len i = Some j → (j < len)%nat.
Proof.
  unfold norm_index.
  destruct (Z.leb_spec 0 i), (Z.ltb_spec i (Z.of_nat len)),
    (Z.leb_spec (- Z.of_nat len) i), (Z.ltb_spec i 0); simpl;
    intros [= <-]; lia.
Qed.

Lemma norm_index_is_Some len i :
  is_Some (norm_index len i) ↔ - Z.of_nat len ≤ i < Z.of_nat len.
Proof.
  unfold norm_index.
  destruct (Z.leb_spec 0 i), (Z.ltb_spec i (Z.of_nat len)),
    (Z.leb_spec (- Z.of_nat len) i), (Z.ltb_spec i 0); simpl;
    split; intros H'; try lia; try (by eexists); by destruct H'.
Qed.

Lemma getitem_is_Some {A} (l : list A) i :
  is_Some (getitem l i) ↔ - Z.of_nat (length l) ≤ i < Z.of_nat (length l).
Proof.
  rewrite <- norm_index_is_Some. unfold getitem.
  destruct (norm_index (length l) i) as [j|] eqn:E.
  - split; [by eexists|]. intros _. apply lookup_lt_is_Some.
    by eapply norm_index_lt.
  - split; intros []; done.
Qed.

Lemma setitem_is_Some {A} (l : list A) i x :
  is_Some (setitem l i x) ↔ - Z.of_nat (length l) ≤ i < Z.of_nat (length l).
Proof.
  rewrite <- norm_index_is_Some. unfold setitem.
  destruct (norm_index (length l) i); [|done].
  split; intros _; by eexists.
Qed.

Lemma setitem_length {A} (l l' : list A) i x :
  setitem l i x = Some l' → length l' = length l.
Proof.
  unfold setitem. destruct (norm_index (length l) i); intros [= <-].
  apply length_insert.
Qed.

Lemma getitem_setitem {A} (l l' : list A) i x j :
  setitem l i x = Some l' →
  getitem l' j =
    if decide (norm_index (length l) i = norm_index (length l) j)
    then Some x else getitem l j.
Proof.
  intros H. pose proof (setitem_length _ _ _ _ H) as Hlen.
  unfold setitem in H. unfold getitem. rewrite Hlen.
  destruct (norm_index (length l) i) as [a|] eqn:Ei; [|done].
  injection H as <-.
  destruct (norm_index (length l) j) as [b|] eqn:Ej.
  - destruct (decide (Some a = Some b)) as [[= ->]|Hne].
    + apply list_lookup_insert_eq. by eapply norm_index_lt.
    + apply list_lookup_insert_ne. congruence.
  - by rewrite decide_False.
Qed.

Lemma getitem_setitem_eq {A} (l l' : list A) i x :
  setitem l i x = Some l' → getitem l' i = Some x.
Proof.
  intros H. rewrite (getitem_setitem _ _ _ _ _ H). by rewrite decide_True.
Qed.

Lemma getitem_setitem_ne {A} (l l' : list A) i x j :
  setitem l i x = Some l' → 0 ≤ i → 0 ≤ j → i ≠ j → getitem l' j = getitem l j.
Proof.
  intros H Hi Hj Hne. rewrite (getitem_setitem _ _ _ _ _ H).
  destruct (decide _) as [Heq|]; [|done].
  assert (is_Some (setitem l i x)) as Hs by (by eexists).
  apply setitem_is_Some in Hs.
  rewrite norm_index_nonneg in Heq by lia.
  unfold norm_index in Heq.
  destruct (Z.leb_spec 0 j), (Z.ltb_spec j (Z.of_nat (length l))),
    (Z.leb_spec (- Z.of_nat (length l)) j), (Z.ltb_spec j 0); simpl in Heq;
    try lia; try done.
  injection Heq. lia.
Qed.

Lemma getitem_at l i :
  - Z.of_nat (length l) ≤ i < Z.of_nat (length l) → getitem l i = Some (at_ l i).
Proof.
  intros H. apply getitem_is_Some in H as [x Hx]. unfold at_. by rewrite Hx.
Qed.

Lemma at_setitem_eq l l' i x :
  setitem l i x = Some l' → at_ l' i = x.
Proof. intros H. unfold at_. by rewrite (getitem_setitem_eq _ _ _ _ H). Qed.

Lemma at_setitem_ne l l' i x j :
  setitem l i x = Some l' → 0 ≤ i → 0 ≤ j → i ≠ j → at_ l' j = at_ l j.
Proof.
  intros H Hi Hj Hne. unfold at_. by rewrite (getitem_setitem_ne _ _ _ _ _ H).
Qed.

(** ** Steps of the primitive operations *)

Lemma load_ok f i t :
  - Z.of_nat (length (f t)) ≤ i < Z.of_nat (length (f t)) →
  load f i t = (Ok (at_ (f t) i), t).
Proof. intros H. unfold load. by rewrite getitem_at. Qed.

Lemma load_raise f i t :
  ¬ (- Z.of_nat (length (f t)) ≤ i < Z.of_nat (length (f t))) →
  load f i t = (Raise IndexError, t).
Proof.
  intros H. unfold load. destruct (getitem (f t) i) eqn:E; [|done].
  destruct H. apply getitem_is_Some. by eexists.
Qed.

Lemma store_ok f upd i x t :
  - Z.of_nat (length (f t)) ≤ i < Z.of_nat (length (f t)) →
  ∃ l, setitem (f t) i x = Some l ∧ store f upd i x t = (Ok tt, upd l t).
Proof.
  intros H. apply (setitem_is_Some _ _ x) in H as [l Hl].
  exists l. split; [done|]. unfold store. by rewrite Hl.
Qed.

(** ** What the passes keep on any input *)

Lemma Forall_setitem {A} (P : A → Prop) (l l' : list A) i x :
  setitem l i x = Some l' → Forall P l → P x → Forall P l'.
Proof.
  unfold setitem. destruct (norm_index (length l) i); intros [= <-] Hl Hx.
  by apply Forall_insert.
Qed.

Lemma Forall_getitem {A} (P : A → Prop) (l : list A) i x :
  getitem l i = Some x → Forall P l → P x.
Proof.
  unfold getitem. destruct (norm_index (length l) i); [|done].
  intros Hx Hl. by eapply Forall_lookup_1.
Qed.

Lemma bind_keeps {A B} (I : Tree → Prop) (m : M A) (k : A → M B) t :
  I (m t).2 → (∀ a t', m t = (Ok a, t') → I t' → I (k a t').2) →
  I (bind m k t).2.
Proof.
  intros Hm Hk. unfold bind. destruct (m t) as [[a|e] t'] eqn:E; simpl in *.
  - by apply Hk.
  - done.
Qed.

Lemma for_each_keeps {A} (I : Tree → Prop) (l : list A) body t :
  I t → (∀ x t', x ∈ l → I t' → I (body x t').2) → I (for_each l body t).2.
Proof.
  revert t. induction l as [|x l IH]; intros t Ht Hbody; simpl; [done|].
  apply bind_keeps.
  - apply Hbody; [left | done].
  - intros _ t' _ Ht'. apply IH; [done|].
    intros y t'' Hy. apply Hbody. by right.
Qed.

Lemma readonly_keeps {A} (I : Tree → Prop) (m : M A) t :
  readonly m → I t → I (m t).2.
Proof. intros H. by rewrite H. Qed.

Section Keeps.
Variables (n0 : Z) (b : bool).
Let L := Z.to_nat (n0 + 1).

Lemma store_parent_keeps u p t :
  wf n0 b t → valid_index L p → wf n0 b (store parent with_parent u p t).2.
Proof.
  intros Hwf Hp. unfold store.
  destruct (setitem (parent t) u p) as [l|] eqn:E; simpl; [|done].
  destruct Hwf as (?&?&?&?&?&?&[? ?]&[? ?]). repeat split; simpl; try done.
  - by rewrite (setitem_length _ _ _ _ E).
  - by eapply Forall_setitem.
Qed.

Lemma store_parent_valid u p t t' :
  wf n0 b t → store parent with_parent u p t = (Ok tt, t') → valid_index L u.
Proof.
  intros Hwf. unfold store.
  destruct (setitem (parent t) u p) as [l|] eqn:E; [|done]. intros _.
  destruct Hwf as (?&?&?&?&?&?&[Hlen ?]&[? ?]).
  unfold valid_index, L. rewrite <- Hlen. apply (setitem_is_Some _ _ p).
  by eexists.
Qed.

Lemma store_depth_keeps v x t :
  wf n0 b t → wf n0 b (store depth with_depth v x t).2.
Proof.
  intros Hwf. unfold store.
  destruct (setitem (depth t) v x) as [l|] eqn:E; simpl; [|done].
  destruct Hwf as (?&?&?&?&?&?&[? ?]&[? ?]). repeat split; simpl; try done.
  by rewrite (setitem_length _ _ _ _ E).
Qed.

Lemma store_mds_keeps v x t :
  wf n0 b t →
  wf n0 b (store max_depth_in_subtree with_max_depth_in_subtree v x t).2.
Proof.
  intros Hwf. unfold store.
  destruct (setitem (max_depth_in_subtree t) v x) as [l|] eqn:E; simpl; [|done].
  destruct Hwf as (?&?&?&?&?&?&[? ?]&[? ?]). repeat split; simpl; try done.
  by rewrite (setitem_length _ _ _ _ E).
Qed.

Lemma store_far_keeps v x t :
  wf n0 b t → wf n0 b (store farthest_node with_farthest_node v x t).2.
Proof.
  intros Hwf. unfold store.
  destruct (setitem (farthest_node t) v x) as [l|] eqn:E; simpl; [|done].
  destruct Hwf as (?&?&?&?&?&?&[? ?]&[? ?]). repeat split; simpl; try done.
  by rewrite (setitem_length _ _ _ _ E).
Qed.

Lemma edges_at_keeps u t : wf n0 b t → wf n0 b (edges_at u t).2.
Proof. intros Hwf. unfold edges_at. by destruct (edges t !! u). Qed.

Lemma store_up_keeps v k x t :
  wf n0 b t → valid_index L x → wf n0 b (store_up v k x t).2.
Proof.
  intros Hwf Hx. unfold store_up.
  destruct (getitem (up t) v) as [row|] eqn:Er; simpl; [|done].
  destruct (setitem row k x) as [row'|] eqn:Es; simpl; [|done].
  destruct (setitem (up t) v row') as [rows|] eqn:Eu; simpl; [|done].
  destruct Hwf as (?&?&?&?&?&?&[? ?]&[? Hall]). repeat split; simpl; try done.
  - by rewrite (setitem_length _ _ _ _ Eu).
  - eapply Forall_setitem; [done..|].
    destruct (Forall_getitem _ _ _ _ Er Hall) as [Hlen Hrow].
    split; [by rewrite (setitem_length _ _ _ _ Es) | by eapply Forall_setitem].
Qed.

Lemma load_parent_valid v t pv t' :
  wf n0 b t → load parent v t = (Ok pv, t') → valid_index L pv.
Proof.
  intros Hwf. unfold load.
  destruct (getitem (parent t) v) as [x|] eqn:E; [|done]. intros [= <- _].
  destruct Hwf as (?&?&?&?&?&?&[? Hall]&[? ?]). by eapply Forall_getitem.
Qed.

Lemma load_up_valid u k t x t' :
  wf n0 b t → load_up u k t = (Ok x, t') → valid_index L x.
Proof.
  intros Hwf. unfold load_up.
  destruct (getitem (up t) u) as [row|] eqn:Er; [|done].
  destruct (getitem row k) as [y|] eqn:Ek; [|done]. intros [= <- _].
  destruct Hwf as (?&?&?&?&?&?&[? ?]&[? Hall]).
  destruct (Forall_getitem _ _ _ _ Er Hall) as [_ Hrow].
  by eapply Forall_getitem.
Qed.

Lemma dfs_keeps fuel u p t :
  wf n0 b t → valid_index L p → wf n0 b (_dfs fuel u p t).2.
Proof.
  revert u p t. induction fuel as [|fuel IH]; intros u p t Hwf Hp; simpl; [done|].
  apply bind_keeps; [by apply store_parent_keeps|].
  intros [] t1 Hst Hwf1. pose proof (store_parent_valid _ _ _ _ Hwf Hst) as Hu.
  apply bind_keeps; [by apply edges_at_keeps|].
  intros vs t2 _ Hwf2. apply for_each_keeps; [done|].
  intros v t3 _ Hwf3. case_bool_decide; [|done].
  apply bind_keeps; [by apply readonly_keeps; auto with readonly|].
  intros du t4 _ Hwf4.
  apply bind_keeps; [by apply store_depth_keeps|].
  intros _ t5 _ Hwf5. by apply IH.
Qed.

Lemma build_lifting_keeps t : wf n0 b t → wf n0 b (_build_lifting t).2.
Proof.
  intros Hwf. unfold _build_lifting.
  apply bind_keeps; [done|]. intros n1 t1 _ Hwf1.
  apply bind_keeps.
  { apply for_each_keeps; [done|]. intros v t2 _ Hwf2.
    apply bind_keeps; [by apply readonly_keeps; auto with readonly|].
    intros pv t3 Hld Hwf3. apply store_up_keeps; [done|].
    eapply load_parent_valid; [apply Hwf2 | done]. }
  intros _ t2 _ Hwf2. apply bind_keeps; [done|]. intros logn t3 _ Hwf3.
  apply for_each_keeps; [done|]. intros k t4 _ Hwf4.
  apply bind_keeps; [done|]. intros n2 t5 _ Hwf5.
  apply for_each_keeps; [done|]. intros v t6 _ Hwf6.
  apply bind_keeps; [by apply readonly_keeps; auto with readonly|].
  intros a t7 _ Hwf7.
  apply bind_keeps; [by apply readonly_keeps; auto with readonly|].
  intros x t8 Hld Hwf8. apply store_up_keeps; [done|].
  eapply load_up_valid; [apply Hwf7 | done].
Qed.

Lemma compute_farthest_keeps fuel u p t :
  wf n0 b t → wf n0 b (_compute_farthest fuel u p t).2.
Proof.
  revert u p t. induction fuel as [|fuel IH]; intros u p t Hwf; simpl; [done|].
  apply bind_keeps; [by apply readonly_keeps; auto with readonly|].
  intros du t1 _ Hwf1.
  apply bind_keeps; [by apply store_mds_keeps|]. intros _ t2 _ Hwf2.
  apply bind_keeps; [by apply store_far_keeps|]. intros _ t3 _ Hwf3.
  apply bind_keeps; [by apply edges_at_keeps|]. intros vs t4 _ Hwf4.
  apply for_each_keeps; [done|]. intros v t5 _ Hwf5.
  case_bool_decide; [|done].
  apply bind_keeps; [by apply IH|]. intros _ t6 _ Hwf6.
  apply bind_keeps; [by apply readonly_keeps; auto with readonly|].
  intros mv t7 _ Hwf7.
  apply bind_keeps; [by apply readonly_keeps; auto with readonly|].
  intros mu t8 _ Hwf8. destruct (mv >? mu); [|done].
  apply bind_keeps; [by apply readonly_keeps; auto with readonly|].
  intros mv' t9 _ Hwf9.
  apply bind_keeps; [by apply store_mds_keeps|]. intros _ t10 _ Hwf10.
  apply bind_keeps; [by apply readonly_keeps; auto with readonly|].
  intros fv t11 _ Hwf11. by apply store_far_keeps.
Qed.
End Keeps.

(** ** Construction and preprocessing on any input *)

Lemma init_wf n0 : wf n0 false (init n0).
Proof.
  unfold wf, init; simpl. rewrite !length_replicate.
  destruct (Z.to_nat (n0 + 1)) as [|L'] eqn:EL.
  { repeat split; simpl; by constructor. }
  assert (∀ k, Forall (valid_index (S L')) (replicate k 0)) as Hz.
  { intros k. apply Forall_forall. intros x [-> _]%elem_of_replicate.
    unfold valid_index. lia. }
  repeat split; try done.
  apply Forall_forall. intros row [-> _]%elem_of_replicate.
  by rewrite length_replicate.
Qed.

Lemma add_edge_keeps n0 b u v t : wf n0 b t → wf n0 b (add_edge u v t).2.
Proof. done. Qed.

Lemma build_wf n0 edge_list : wf n0 false (build n0 edge_list).
Proof.
  unfold build. apply for_each_keeps; [apply init_wf|].
  intros e t _. apply add_edge_keeps.
Qed.

Lemma preprocess_keeps n0 fuel t :
  wf n0 false t →
  wf n0 (match (preprocess fuel t).1 with Ok _ => true | Raise _ => false end)
     (preprocess fuel t).2.
Proof.
  intros Hwf. unfold preprocess.
  assert (valid_index (Z.to_nat (n0 + 1)) 0 ∨ Z.to_nat (n0 + 1) = 0%nat) as [H0|H0].
  { unfold valid_index. lia. }
  - pose proof (dfs_keeps n0 false fuel 1 0 t Hwf H0) as H1.
    destruct (_dfs fuel 1 0 t) as [[[]|e] t1] eqn:E1; cbn [snd] in H1;
      [rewrite (bind_ok _ _ _ _ _ E1) | by rewrite (bind_raise _ _ _ _ _ E1)].
    pose proof (build_lifting_keeps n0 false t1 H1) as H2.
    destruct (_build_lifting t1) as [[[]|e] t2] eqn:E2; cbn [snd] in H2;
      [rewrite (bind_ok _ _ _ _ _ E2) | by rewrite (bind_raise _ _ _ _ _ E2)].
    pose proof (compute_farthest_keeps n0 false fuel 1 0 t2 H2) as H3.
    destruct (_compute_farthest fuel 1 0 t2) as [[[]|e] t3] eqn:E3; cbn [snd] in H3;
      [rewrite (bind_ok _ _ _ _ _ E3) | by rewrite (bind_raise _ _ _ _ _ E3)].
    destruct H3 as (?&?&?&?&?&?&[? ?]&[? ?]). by repeat split.
  - assert (_dfs fuel 1 0 t = (Raise (match fuel with O => RecursionError | _ => IndexError end), t)) as E.
    { destruct fuel as [|fuel]; simpl; [done|]. apply bind_raise.
      unfold store. destruct (setitem (parent t) 1 0) as [l|] eqn:El; [|done].
      assert (is_Some (setitem (parent t) 1 0)) as Hs by (by eexists).
      apply setitem_is_Some in Hs.
      destruct Hwf as (?&?&?&?&?&?&[Hlen ?]&[? ?]). rewrite Hlen in Hs. lia. }
    by rewrite (bind_raise _ _ _ _ _ E).
Qed.

Lemma preprocess_ok_wf n0 fuel t t' :
  wf n0 false t → preprocess fuel t = (Ok tt, t') → wf n0 true t'.
Proof.
  intros Hwf E. pose proof (preprocess_keeps n0 fuel t Hwf) as H.
  by rewrite E in H.
Qed.

Lemma preprocess_raise_wf n0 fuel t e t' :
  wf n0 false t → preprocess fuel t = (Raise e, t') → wf n0 false t'.
Proof.
  intros Hwf E. pose proof (preprocess_keeps n0 fuel t Hwf) as H.
  by rewrite E in H.
Qed.

(** ** The depth-first pass on a valid tree *)

Lemma height_kid c cs :
  c ∈ cs → (height c ≤ foldr Nat.max 0 (map height cs))%nat.
Proof.
  induction 1 as [c cs|c c' cs _ IH]; simpl; lia.
Qed.

Lemma root_in_ids T : root T ∈ ids T.
Proof. destruct T; simpl. left. Qed.

Lemma edges_at_adj u t :
  ∃ t', edges_at u t = (Ok (adj (edges t) u), t')
        ∧ (∀ w, adj (edges t') w = adj (edges t) w)
        ∧ parent t' = parent t ∧ depth t' = depth t
        ∧ max_depth_in_subtree t' = max_depth_in_subtree t
        ∧ farthest_node t' = farthest_node t.
Proof.
  unfold edges_at, adj. destruct (edges t !! u) as [l|] eqn:E.
  - by exists t.
  - eexists. split; [done|]. split; [|done]. intros w. simpl.
    destruct (decide (u = w)) as [<-|Hne].
    + by rewrite lookup_insert_eq, E.
    + by rewrite lookup_insert_ne.
Qed.

Lemma bind_bind {A B C} (m : M A) (f : A → M B) (g : B → M C) t :
  bind (bind m f) g t = bind m (λ x, bind (f x) g) t.
Proof. unfold bind. by destruct (m t) as [[x|e] t']. Qed.

(** Run the first method of a sequence, given its outcome. *)
Ltac step H := rewrite ?bind_bind; rewrite (bind_ok _ _ _ _ _ H); cbv beta.

Section Dfs.
Variables (n0 : Z) (a : Z → list Z).
Let L := Z.to_nat (n0 + 1).

Local Abbreviation dfs_body fuel u p :=
  (λ v, if bool_decide (v ≠ p) then
          du <- load depth u ;;
          store depth with_depth v (du + 1) ;;
          _dfs fuel v u
        else ret tt).

Lemma dfs_loop_valid fuel u p :
  (∀ T q t,
     (height T ≤ fuel)%nat → shape a q T = true → NoDup (ids T) →
     Forall (λ v, 1 ≤ v ≤ n0) (ids T) →
     (∀ w, adj (edges t) w = a w) →
     length (parent t) = L → length (depth t) = L →
     ∃ t', _dfs fuel (root T) q t = (Ok tt, t') ∧ dfs_post a T q t t') →
  ∀ vs cs t,
    filter (λ v, v ≠ p) vs = map root cs →
    Forall (λ c, (height c ≤ fuel)%nat ∧ shape a u c = true) cs →
    NoDup (u :: concat (map ids cs)) →
    Forall (λ v, 1 ≤ v ≤ n0) (u :: concat (map ids cs)) →
    (∀ w, adj (edges t) w = a w) →
    length (parent t) = L → length (depth t) = L →
    ∃ t', for_each vs (dfs_body fuel u p) t = (Ok tt, t')
          ∧ dfs_loop_post a u cs t t'.
Proof.
  intros IH vs. induction vs as [|v vs IHvs]; intros cs t Hf Hcs Hnd Hrg Ha Hlp Hld.
  - destruct cs; [|done]. exists t. split; [done|].
    unfold dfs_loop_post, untouched; simpl.
    split_and!; try done; intros w Hw; by apply elem_of_nil in Hw.
  - rewrite filter_cons in Hf. cbn [for_each]. destruct (decide (v ≠ p)) as [Hvp|Hvp].
    2: { rewrite bool_decide_false by done.
         rewrite (bind_ok _ _ t tt t) by done. by apply IHvs. }
    rewrite bool_decide_true by done.
    destruct cs as [|c cs]; [done|]. simpl in Hf. injection Hf as Hv Hf.
    simpl in Hnd, Hrg.
    apply Forall_cons in Hcs as [[Hhc Hsc] Hcs].
    apply NoDup_cons in Hnd as [Hu Hnd]. apply NoDup_app in Hnd as (Hndc & Hdisj & Hndcs).
    apply Forall_cons in Hrg as [Hur Hrg]. apply Forall_app in Hrg as [Hrc Hrcs].
    assert (1 ≤ v ≤ n0) as Hvr.
    { rewrite Forall_forall in Hrc. apply Hrc. rewrite Hv. apply root_in_ids. }
    assert (u ≠ v) as Huv.
    { intros ->. apply Hu. apply elem_of_app. left. rewrite Hv. apply root_in_ids. }
    (* depth[v] = depth[u] + 1 *)
    assert (load depth u t = (Ok (at_ (depth t) u), t)) as Hload.
    { apply load_ok. rewrite Hld. unfold L. lia. }
    step Hload.
    destruct (store_ok depth with_depth v (at_ (depth t) u + 1) t) as (l1 & Hl1 & Hst).
    { rewrite Hld. unfold L. lia. }
    step Hst.
    set (t1 := with_depth l1 t) in *.
    (* the recursive call *)
    destruct (IH c u t1) as (t2 & Hdfs & Hpost); try done.
    { simpl. by rewrite (setitem_length _ _ _ _ Hl1). }
    rewrite <- Hv in Hdfs. step Hdfs.
    destruct Hpost as (Ha2 & Hlp2 & Hld2 & Hfp2 & Hfd2 & Hdr2 & Hpr2 & Hin2 & Hbd2).
    (* the rest of the loop *)
    assert (u ∉ concat (map ids cs)) as Hu'.
    { intros Hin. apply Hu. apply elem_of_app. by right. }
    destruct (IHvs cs t2) as (t3 & Hloop & Hpost3); try done.
    { by apply NoDup_cons. }
    { by apply Forall_cons. }
    { by rewrite Hlp2. }
    { rewrite Hld2. simpl. by rewrite (setitem_length _ _ _ _ Hl1). }
    exists t3. split; [done|].
    destruct Hpost3 as (Ha3 & Hlp3 & Hld3 & Hfp3 & Hfd3 & Hrt3 & Hin3 & Hbd3).
    assert (v ∈ ids c) as Hvc by (rewrite Hv; apply root_in_ids).
    assert (∀ w, w ∈ ids c → w ∉ concat (map ids cs)) as Hdisj1.
    { intros w Hw Hw'. by apply (Hdisj w). }
    assert (∀ w, w ∈ ids c → 1 ≤ w ≤ n0) as Hrc'.
    { by apply Forall_forall. }
    assert (∀ w, w ∈ concat (map ids cs) → 1 ≤ w ≤ n0) as Hrcs'.
    { by apply Forall_forall. }
    assert (∀ w, 0 ≤ w → w ≠ v → at_ (depth t1) w = at_ (depth t) w) as Hd1.
    { intros w Hw Hne. simpl. eapply at_setitem_ne; [done|lia|done|done]. }
    assert (at_ (depth t1) v = at_ (depth t) u + 1) as Hd1v.
    { simpl. by eapply at_setitem_eq. }
    assert (at_ (depth t2) u = at_ (depth t) u) as Hdu2.
    { rewrite Hfd2; [apply Hd1; [lia|done]|lia|].
      intros Hin. apply Hu. apply elem_of_app. by left. }
    unfold dfs_loop_post. cbn [map concat]. split_and!.
    + done.
    + by rewrite Hlp3, Hlp2.
    + rewrite Hld3, Hld2. simpl. by rewrite (setitem_length _ _ _ _ Hl1).
    + intros w Hw Hnin. apply not_elem_of_app in Hnin as [Hn1 Hn2].
      by rewrite Hfp3, Hfp2.
    + intros w Hw Hnin. apply not_elem_of_app in Hnin as [Hn1 Hn2].
      rewrite Hfd3, Hfd2 by done. apply Hd1; [done|]. by intros ->.
    + intros r [->|Hr]%elem_of_cons.
      * rewrite <- Hv. pose proof (Hdisj1 _ Hvc) as Hvn.
        rewrite Hfp3, Hfd3 by (done || lia).
        rewrite Hv, Hpr2, Hdr2, <- Hv. by split.
      * destruct (Hrt3 r Hr) as [Hp3 Hd3]. split; [done|]. by rewrite Hd3, Hdu2.
    + intros w [Hw|Hw]%elem_of_app Hnr.
      * assert (w ≠ root c) as Hwr. { intros ->. apply Hnr. left. }
        destruct (Hin2 w Hw Hwr) as [Hp2 Hd2].
        pose proof (Hrc' _ Hw). pose proof (Hrc' _ Hp2).
        rewrite Hfp3 by (by apply Hdisj1 || lia).
        rewrite !Hfd3 by (by apply Hdisj1 || lia).
        split; [|done]. apply elem_of_app. by left.
      * assert (w ∉ map root cs) as Hnr'. { intros Hin. apply Hnr. by right. }
        destruct (Hin3 w Hw Hnr') as [Hp3 Hd3]. split; [|done].
        apply elem_of_app. by right.
    + intros w [Hw|Hw]%elem_of_app; rewrite length_app.
      * pose proof (Hrc' _ Hw). rewrite Hfd3 by (by apply Hdisj1 || lia).
        specialize (Hbd2 w Hw). rewrite <- Hv, Hd1v in Hbd2. lia.
      * specialize (Hbd3 w Hw). rewrite Hdu2 in Hbd3. lia.
Qed.

Lemma dfs_valid fuel T q t :
  (height T ≤ fuel)%nat → shape a q T = true → NoDup (ids T) →
  Forall (λ v, 1 ≤ v ≤ n0) (ids T) →
  (∀ w, adj (edges t) w = a w) →
  length (parent t) = L → length (depth t) = L →
  ∃ t', _dfs fuel (root T) q t = (Ok tt, t') ∧ dfs_post a T q t t'.
Proof.
  revert T q t. induction fuel as [|fuel IH]; intros [u cs] q t Hh Hs Hnd Hrg Ha Hlp Hld.
  { simpl in Hh. lia. }
  cbn [root ids height shape] in *.
  apply andb_prop in Hs as [Hf%bool_decide_eq_true Hs].
  assert (1 ≤ u ≤ n0) as Hur by (by apply Forall_cons in Hrg as [? _]).
  assert (u ∉ concat (map ids cs)) as Hu by (by apply NoDup_cons in Hnd as [? _]).
  cbn [_dfs].
  destruct (store_ok parent with_parent u q t) as (l1 & Hl1 & Hst).
  { rewrite Hlp. unfold L. lia. }
  step Hst. set (t1 := with_parent l1 t) in *.
  destruct (edges_at_adj u t1) as (t2 & He & Ha2 & Hp2 & Hd2 & _).
  step He. rewrite Ha.
  destruct (dfs_loop_valid fuel u q IH (a u) cs t2) as (t3 & Hloop & Hpost);
    try done.
  { apply Forall_forall. intros c Hc. split.
    - pose proof (height_kid c cs Hc). lia.
    - rewrite forallb_forall in Hs. apply Hs. by apply list_elem_of_In. }
  { intros w. by rewrite Ha2. }
  { rewrite Hp2. simpl. by rewrite (setitem_length _ _ _ _ Hl1). }
  { by rewrite Hd2. }
  exists t3. split; [done|].
  destruct Hpost as (Ha3 & Hlp3 & Hld3 & Hfp3 & Hfd3 & Hrt3 & Hin3 & Hbd3).
  assert (at_ (depth t3) u = at_ (depth t) u) as Hdu.
  { rewrite Hfd3 by (done || lia). by rewrite Hd2. }
  assert (∀ w, w ∈ concat (map ids cs) → 1 ≤ w ≤ n0) as Hrcs.
  { apply Forall_cons in Hrg as [_ Hrg]. by apply Forall_forall. }
  unfold dfs_post. cbn [root ids]. split_and!.
  - done.
  - rewrite Hlp3, Hp2. simpl. by rewrite (setitem_length _ _ _ _ Hl1).
  - by rewrite Hld3, Hd2.
  - intros w Hw Hnin. apply not_elem_of_cons in Hnin as [Hne Hnin].
    rewrite Hfp3, Hp2 by done. simpl. eapply at_setitem_ne; [done|lia|done|done].
  - intros w Hw Hnin. apply not_elem_of_cons in Hnin as [Hne Hnin].
    by rewrite Hfd3, Hd2.
  - done.
  - rewrite Hfp3, Hp2 by (done || lia). simpl. by eapply at_setitem_eq.
  - intros w [->|Hw]%elem_of_cons Hne; [done|].
    destruct (decide (w ∈ map root cs)) as [Hr|Hr].
    + destruct (Hrt3 w Hr) as [Hp3 Hd3]. rewrite Hp3, Hd3.
      split; [left|]. rewrite Hfd3 by (done || lia). by rewrite Hd2.
    + destruct (Hin3 w Hw Hr) as [Hp3 Hd3]. split; [by right|done].
  - intros w [->|Hw]%elem_of_cons; cbn [length].
    + rewrite Hdu. lia.
    + specialize (Hbd3 w Hw). rewrite Hd2 in Hbd3. simpl in Hbd3. lia.
Qed.
End Dfs.

(** ** The lifting table *)

Lemma for_range_inv (I : Z → Tree → Prop) lo hi body t :
  lo ≤ hi → I lo t →
  (∀ x t1, lo ≤ x < hi → I x t1 → ∃ t2, body x t1 = (Ok tt, t2) ∧ I (x + 1) t2) →
  ∃ t', for_each (range lo hi) body t = (Ok tt, t') ∧ I hi t'.
Proof.
  unfold range. intros Hle. remember (Z.to_nat (hi - lo)) as len eqn:Hlen.
  revert lo t Hle Hlen. induction len as [|len IH]; intros lo t Hle Hlen H0 Hstep.
  - assert (hi = lo) as -> by lia. rewrite Z.sub_diag. simpl. by exists t.
  - rewrite seqZ_cons by lia. cbn [for_each].
    destruct (Hstep lo t) as (t1 & Hb & H1); [lia|done|].
    step Hb. replace (Z.pred (hi - lo)) with (hi - Z.succ lo) by lia.
    apply IH; [lia|lia|by rewrite <- Z.add_1_r|].
    intros x t2 Hx. apply Hstep. lia.
Qed.

Section Up.
Variables (n0 G : Z).
Hypothesis Hn0 : 1 ≤ n0.
Hypothesis HG : 1 ≤ G.

Lemma up_row t v :
  up_dims n0 G t → 0 ≤ v ≤ n0 →
  ∃ row, getitem (up t) v = Some row ∧ length row = Z.to_nat (G + 1).
Proof.
  intros [Hlen Hrows] Hv.
  destruct (proj2 (getitem_is_Some (up t) v)) as [row Hrow].
  { rewrite Hlen. lia. }
  exists row. split; [done|]. by apply (Forall_getitem _ _ _ _ Hrow Hrows).
Qed.

Lemma load_up_ok t v k :
  up_dims n0 G t → 0 ≤ v ≤ n0 → 0 ≤ k ≤ G →
  load_up v k t = (Ok (up_at t v k), t).
Proof.
  intros Hd Hv Hk. destruct (up_row t v Hd Hv) as (row & Hrow & Hlen).
  unfold load_up, up_at. rewrite Hrow. simpl.
  rewrite getitem_at; [done|]. rewrite Hlen. lia.
Qed.

Lemma store_up_ok t v k x :
  up_dims n0 G t → 0 ≤ v ≤ n0 → 0 ≤ k ≤ G →
  ∃ t', store_up v k x t = (Ok tt, t')
        ∧ t' = with_up (up t') t
        ∧ up_dims n0 G t'
        ∧ ∀ v' k', 0 ≤ v' → 0 ≤ k' →
            up_at t' v' k' =
              if decide (v' = v ∧ k' = k) then x else up_at t v' k'.
Proof.
  intros Hd Hv Hk. destruct (up_row t v Hd Hv) as (row & Hrow & Hlen).
  destruct Hd as [Hlu Hrows].
  destruct (proj2 (setitem_is_Some row k x)) as [row' Hrow'].
  { rewrite Hlen. lia. }
  destruct (proj2 (setitem_is_Some (up t) v row')) as [rows Hrows'].
  { rewrite Hlu. lia. }
  unfold store_up. rewrite Hrow, Hrow', Hrows'.
  eexists. split; [done|]. split; [done|]. split.
  - split; simpl.
    + by rewrite (setitem_length _ _ _ _ Hrows').
    + eapply Forall_setitem; [done..|].
      by rewrite (setitem_length _ _ _ _ Hrow').
  - intros v' k' Hv' Hk'. unfold up_at. simpl.
    destruct (decide (v' = v)) as [->|Hne].
    + rewrite (getitem_setitem_eq _ _ _ _ Hrows'), Hrow. simpl.
      destruct (decide (k' = k)) as [->|Hnk].
      * rewrite decide_True by done. by eapply at_setitem_eq.
      * rewrite decide_False by (by intros [_ ?]).
        eapply at_setitem_ne; [done|lia|done|done].
    + rewrite decide_False by (by intros [? _]).
      by rewrite (getitem_setitem_ne _ _ _ _ _ Hrows') by (done || lia).
Qed.
End Up.

Section BuildLifting.
Variables (n0 G : Z).
Hypothesis Hn0 : 1 ≤ n0.
Hypothesis HG : 1 ≤ G.
Variable t0 : Tree.
Hypothesis Hn : n t0 = n0.
Hypothesis Hlogn : LOGN t0 = G.
Hypothesis Hlp : length (parent t0) = Z.to_nat (n0 + 1).
Hypothesis Hpar : ∀ v, 1 ≤ v ≤ n0 → 0 ≤ at_ (parent t0) v ≤ n0.

Lemma lifting_step k v t :
  0 ≤ k ≤ G → 1 ≤ v ≤ n0 → lifting_inv n0 G t0 k v t →
  ∀ x, 0 ≤ x ≤ n0 →
    x = (if decide (k = 0) then at_ (parent t0) v
         else up_at t (up_at t v (k - 1)) (k - 1)) →
    ∃ t', store_up v k x t = (Ok tt, t') ∧ lifting_inv n0 G t0 k (v + 1) t'.
Proof.
  intros Hk Hv (Hfr & Hd & Hrg & Hz & Heq) x Hx Hxv.
  destruct (store_up_ok n0 G Hn0 HG t v k x Hd) as (t' & Hst & Hfr' & Hd' & Hup);
    [lia..|].
  exists t'. split; [done|]. split_and!.
  - rewrite Hfr'. rewrite Hfr. done.
  - done.
  - intros v' k' Hv' Hk'. rewrite Hup by lia. destruct (decide (v' = v ∧ k' = k)); [done|]. by apply Hrg.
  - intros k' Hk'. rewrite Hup by lia. rewrite decide_False by lia. by apply Hz.
  - intros v' k' Hv' Hk' Hdone. rewrite Hup by lia.
    destruct (decide (v' = v ∧ k' = k)) as [[-> ->]|Hne].
    + destruct (decide (k = 0)) as [->|Hk0]; [done|].
      rewrite (Hup v (k - 1)) by lia. rewrite decide_False by lia.
      rewrite Hup by (specialize (Hrg v (k - 1)); lia).
      rewrite decide_False by lia. done.
    + rewrite Heq by lia. destruct (decide (k' = 0)) as [->|Hk0]; [done|].
      rewrite (Hup v' (k' - 1)) by lia. rewrite decide_False by lia.
      rewrite Hup by (specialize (Hrg v' (k' - 1)); lia).
      rewrite decide_False by lia. done.
Qed.

Lemma lifting_next_level k t :
  lifting_inv n0 G t0 k (n0 + 1) t → lifting_inv n0 G t0 (k + 1) 1 t.
Proof.
  intros (Hfr & Hd & Hrg & Hz & Heq). split_and!; try done.
  intros v k' Hv Hk' Hdone. apply Heq; lia.
Qed.

Lemma build_lifting_valid :
  up_dims n0 G t0 →
  (∀ v k, 0 ≤ v ≤ n0 → 0 ≤ k ≤ G → up_at t0 v k = 0) →
  ∃ t', _build_lifting t0 = (Ok tt, t')
        ∧ t' = with_up (up t') t0 ∧ lifted n0 G t'.
Proof.
  intros Hd Hzero. unfold _build_lifting.
  assert (get n t0 = (Ok n0, t0)) as Hgn by (unfold get; by rewrite Hn).
  step Hgn.
  (* level 0 *)
  destruct (for_range_inv (lifting_inv n0 G t0 0) 1 (n0 + 1)
              (λ v, pv <- load parent v ;; store_up v 0 pv) t0)
    as (t1 & Hl1 & Hi1); [lia| | |].
  { split_and!; try done.
    - by destruct t0.
    - intros v k Hv Hk. rewrite Hzero by done. lia.
    - intros k Hk. apply Hzero; lia.
    - intros v k Hv Hk ?. lia. }
  { intros v t Hv Hi. pose proof Hi as (Hfr & _).
    assert (load parent v t = (Ok (at_ (parent t0) v), t)) as Hld.
    { rewrite Hfr at 1. unfold load. simpl. rewrite getitem_at; [by rewrite <- Hfr|].
      rewrite Hlp. lia. }
    step Hld. apply lifting_step; try done; try lia. apply Hpar. lia. }
  step Hl1. apply lifting_next_level in Hi1. simpl in Hi1.
  assert (get LOGN t1 = (Ok G, t1)) as Hgl.
  { destruct Hi1 as (Hfr & _). rewrite Hfr. unfold get. simpl. by rewrite Hlogn. }
  step Hgl.
  (* levels 1..LOGN *)
  destruct (for_range_inv (λ k, lifting_inv n0 G t0 k 1) 1 (G + 1)
              (λ k, n1 <- get n ;;
                    for_each (range 1 (n1 + 1)) (λ v,
                      a <- load_up v (k - 1) ;;
                      b <- load_up a (k - 1) ;;
                      store_up v k b)) t1)
    as (t2 & Hl2 & Hi2); [lia|done| |].
  { intros k t Hk Hi.
    assert (get n t = (Ok n0, t)) as Hgn'.
    { destruct Hi as (Hfr & _). rewrite Hfr. unfold get. simpl. by rewrite Hn. }
    step Hgn'.
    destruct (for_range_inv (lifting_inv n0 G t0 k) 1 (n0 + 1)
                (λ v, a <- load_up v (k - 1) ;;
                      b <- load_up a (k - 1) ;;
                      store_up v k b) t)
      as (t' & Hl' & Hi'); [lia|done| |].
    { intros v t' Hv Hi'. pose proof Hi' as (Hfr & Hd' & Hrg & _).
      assert (load_up v (k - 1) t' = (Ok (up_at t' v (k - 1)), t')) as Hla.
      { apply (load_up_ok n0 G Hn0 HG); (done || lia). }
      step Hla. pose proof (Hrg v (k - 1)) as Ha.
      assert (load_up (up_at t' v (k - 1)) (k - 1) t'
              = (Ok (up_at t' (up_at t' v (k - 1)) (k - 1)), t')) as Hlb.
      { apply (load_up_ok n0 G Hn0 HG); (done || lia). }
      step Hlb. apply lifting_step; try done; try lia.
      - apply Hrg; lia.
      - by rewrite decide_False by lia. }
    exists t'. split; [done|]. by apply lifting_next_level. }
  exists t2. split; [done|].
  destruct Hi2 as (Hfr & Hd2 & Hrg & Hz & Heq). split; [done|].
  split_and!; try done.
  - intros v Hv. rewrite Heq by lia. rewrite decide_True by done.
    rewrite Hfr. done.
  - intros v k Hv Hk. rewrite Heq by lia. by rewrite decide_False by lia.
Qed.
End BuildLifting.

(** ** The subtree-depth pass on a valid tree *)

Section ComputeFarthest.
Variables (n0 : Z) (a : Z → list Z).
Let L := Z.to_nat (n0 + 1).

Local Abbreviation cf_body fuel u p :=
  (λ v, if bool_decide (v ≠ p) then
          _compute_farthest fuel v u ;;
          mv <- load max_depth_in_subtree v ;;
          mu <- load max_depth_in_subtree u ;;
          if mv >? mu then
            mv' <- load max_depth_in_subtree v ;;
            store max_depth_in_subtree with_max_depth_in_subtree u mv' ;;
            fv <- load farthest_node v ;;
            store farthest_node with_farthest_node u fv
          else ret tt
        else ret tt).

Lemma cf_loop_valid fuel u p :
  (∀ T q t,
     (height T ≤ fuel)%nat → shape a q T = true → NoDup (ids T) →
     Forall (λ v, 1 ≤ v ≤ n0) (ids T) →
     (∀ w, adj (edges t) w = a w) →
     length (depth t) = L → length (max_depth_in_subtree t) = L →
     length (farthest_node t) = L →
     ∃ t', _compute_farthest fuel (root T) q t = (Ok tt, t')
           ∧ cf_post a (ids T) t t') →
  ∀ vs cs t,
    filter (λ v, v ≠ p) vs = map root cs →
    Forall (λ c, (height c ≤ fuel)%nat ∧ shape a u c = true) cs →
    NoDup (u :: concat (map ids cs)) →
    Forall (λ v, 1 ≤ v ≤ n0) (u :: concat (map ids cs)) →
    (∀ w, adj (edges t) w = a w) →
    length (depth t) = L → length (max_depth_in_subtree t) = L →
    length (farthest_node t) = L →
    at_ (depth t) u ≤ at_ (max_depth_in_subtree t) u →
    ∃ t', for_each vs (cf_body fuel u p) t = (Ok tt, t')
          ∧ cf_post a (u :: concat (map ids cs)) t t'.
Proof.
  intros IH vs. induction vs as [|v vs IHvs];
    intros cs t Hf Hcs Hnd Hrg Ha Hld Hlm Hlf Hu0.
  - destruct cs; [|done]. exists t. split; [done|].
    unfold cf_post, untouched; simpl. split_and!; try done.
    intros w ->%list_elem_of_singleton. done.
  - rewrite filter_cons in Hf. cbn [for_each].
    destruct (decide (v ≠ p)) as [Hvp|Hvp].
    2: { rewrite bool_decide_false by done.
         rewrite (bind_ok _ _ t tt t) by done. by apply IHvs. }
    rewrite bool_decide_true by done.
    destruct cs as [|c cs]; [done|]. simpl in Hf. injection Hf as Hv Hf.
    simpl in Hnd, Hrg.
    apply Forall_cons in Hcs as [[Hhc Hsc] Hcs].
    apply NoDup_cons in Hnd as [Hu Hnd].
    apply NoDup_app in Hnd as (Hndc & Hdisj & Hndcs).
    apply Forall_cons in Hrg as [Hur Hrg]. apply Forall_app in Hrg as [Hrc Hrcs].
    assert (v ∈ ids c) as Hvc by (rewrite Hv; apply root_in_ids).
    assert (∀ w, w ∈ ids c → 1 ≤ w ≤ n0) as Hrc' by (by apply Forall_forall).
    assert (1 ≤ v ≤ n0) as Hvr by (by apply Hrc').
    assert (u ∉ ids c) as Huc.
    { intros Hin. apply Hu. apply elem_of_app. by left. }
    assert (u ∉ concat (map ids cs)) as Hucs.
    { intros Hin. apply Hu. apply elem_of_app. by right. }
    assert (u ≠ v) as Huv by (by intros ->).
    (* the recursive call *)
    destruct (IH c u t) as (t1 & Hrec & Hpost1); try done.
    rewrite <- Hv in Hrec. step Hrec.
    destruct Hpost1 as (Ha1 & Hd1 & Hlm1 & Hlf1 & Hfm1 & Hge1).
    assert (load max_depth_in_subtree v t1
            = (Ok (at_ (max_depth_in_subtree t1) v), t1)) as Hmv.
    { apply load_ok. rewrite Hlm1, Hlm. unfold L. lia. }
    assert (load max_depth_in_subtree u t1
            = (Ok (at_ (max_depth_in_subtree t1) u), t1)) as Hmu.
    { apply load_ok. rewrite Hlm1, Hlm. unfold L. lia. }
    step Hmv. step Hmu.
    assert (at_ (max_depth_in_subtree t1) u = at_ (max_depth_in_subtree t) u)
      as Hmu1 by (apply Hfm1; [lia|done]).
    (* the update of the running maximum *)
    assert (∃ t2, (if at_ (max_depth_in_subtree t1) v
                        >? at_ (max_depth_in_subtree t1) u
                   then
                     mv' <- load max_depth_in_subtree v ;;
                     store max_depth_in_subtree with_max_depth_in_subtree u mv' ;;
                     fv <- load farthest_node v ;;
                     store farthest_node with_farthest_node u fv
                   else ret tt) t1 = (Ok tt, t2)
                 ∧ (∀ w, adj (edges t2) w = a w)
                 ∧ depth t2 = depth t1
                 ∧ length (max_depth_in_subtree t2) = L
                 ∧ length (farthest_node t2) = L
                 ∧ (∀ w, 0 ≤ w → w ≠ u →
                      at_ (max_depth_in_subtree t2) w
                      = at_ (max_depth_in_subtree t1) w)
                 ∧ at_ (depth t) u ≤ at_ (max_depth_in_subtree t2) u)
      as (t2 & Hupd & Ha2 & Hd2 & Hlm2 & Hlf2 & Hfm2 & Hu2).
    { destruct (Z.gtb_spec (at_ (max_depth_in_subtree t1) v)
                           (at_ (max_depth_in_subtree t1) u)) as [Hgt|Hle].
      - step Hmv.
        destruct (store_ok max_depth_in_subtree with_max_depth_in_subtree u
                    (at_ (max_depth_in_subtree t1) v) t1) as (l2 & Hl2 & Hst).
        { rewrite Hlm1, Hlm. unfold L. lia. }
        step Hst.
        assert (load farthest_node v (with_max_depth_in_subtree l2 t1)
                = (Ok (at_ (farthest_node t1) v),
                   with_max_depth_in_subtree l2 t1)) as Hfv.
        { apply (load_ok farthest_node v (with_max_depth_in_subtree l2 t1)).
          simpl. rewrite Hlf1, Hlf. unfold L. lia. }
        step Hfv.
        destruct (store_ok farthest_node with_farthest_node u
                    (at_ (farthest_node t1) v)
                    (with_max_depth_in_subtree l2 t1)) as (l3 & Hl3 & Hst3).
        { simpl. rewrite Hlf1, Hlf. unfold L. lia. }
        eexists. split; [exact Hst3|]. simpl. split_and!; try done.
        + rewrite (setitem_length _ _ _ _ Hl2). by rewrite Hlm1.
        + rewrite (setitem_length _ _ _ _ Hl3). simpl. by rewrite Hlf1.
        + intros w Hw Hne. eapply at_setitem_ne; [done|lia|done|done].
        + rewrite (at_setitem_eq _ _ _ _ Hl2). lia.
      - exists t1. split; [done|]. split_and!; try done.
        + by rewrite Hlm1.
        + by rewrite Hlf1.
        + lia. }
    step Hupd.
    (* the rest of the loop *)
    destruct (IHvs cs t2) as (t3 & Hloop & Hpost3); try done.
    { by apply NoDup_cons. }
    { by apply Forall_cons. }
    { by rewrite Hd2, Hd1. }
    { by rewrite Hd2, Hd1. }
    exists t3. split; [done|].
    destruct Hpost3 as (Ha3 & Hd3 & Hlm3 & Hlf3 & Hfm3 & Hge3).
    unfold cf_post. cbn [map concat]. split_and!.
    + done.
    + by rewrite Hd3, Hd2, Hd1.
    + by rewrite Hlm3, Hlm2.
    + by rewrite Hlf3, Hlf2.
    + intros w Hw Hnin. apply not_elem_of_cons in Hnin as [Hne Hnin].
      apply not_elem_of_app in Hnin as [Hn1 Hn2].
      rewrite Hfm3 by (done || by apply not_elem_of_cons).
      rewrite Hfm2 by done. by apply Hfm1.
    + intros w [->|[Hw|Hw]%elem_of_app]%elem_of_cons.
      * specialize (Hge3 u). rewrite Hd2, Hd1 in Hge3. apply Hge3. left.
      * pose proof (Hrc' _ Hw).
        rewrite Hfm3; [|lia|].
        2: { apply not_elem_of_cons. split; [by intros ->|].
             intros Hin. by apply (Hdisj w). }
        rewrite Hfm2 by (lia || by intros ->). by apply Hge1.
      * specialize (Hge3 w). rewrite Hd2, Hd1 in Hge3. apply Hge3. by right.
Qed.

Lemma compute_farthest_valid fuel T q t :
  (height T ≤ fuel)%nat → shape a q T = true → NoDup (ids T) →
  Forall (λ v, 1 ≤ v ≤ n0) (ids T) →
  (∀ w, adj (edges t) w = a w) →
  length (depth t) = L → length (max_depth_in_subtree t) = L →
  length (farthest_node t) = L →
  ∃ t', _compute_farthest fuel (root T) q t = (Ok tt, t')
        ∧ cf_post a (ids T) t t'.
Proof.
  revert T q t. induction fuel as [|fuel IH];
    intros [u cs] q t Hh Hs Hnd Hrg Ha Hld Hlm Hlf.
  { simpl in Hh. lia. }
  cbn [root ids height shape] in *.
  apply andb_prop in Hs as [Hf%bool_decide_eq_true Hs].
  assert (1 ≤ u ≤ n0) as Hur by (by apply Forall_cons in Hrg as [? _]).
  cbn [_compute_farthest].
  assert (load depth u t = (Ok (at_ (depth t) u), t)) as Hdu.
  { apply load_ok. rewrite Hld. unfold L. lia. }
  step Hdu.
  destruct (store_ok max_depth_in_subtree with_max_depth_in_subtree u
              (at_ (depth t) u) t) as (l1 & Hl1 & Hst1).
  { rewrite Hlm. unfold L. lia. }
  step Hst1.
  destruct (store_ok farthest_node with_farthest_node u u
              (with_max_depth_in_subtree l1 t)) as (l2 & Hl2 & Hst2).
  { simpl. rewrite Hlf. unfold L. lia. }
  step Hst2.
  set (t2 := with_farthest_node l2 (with_max_depth_in_subtree l1 t)) in *.
  destruct (edges_at_adj u t2) as (t3 & He & Ha3 & Hp3 & Hd3 & Hm3 & Hf3).
  step He. rewrite Ha.
  destruct (cf_loop_valid fuel u q IH (a u) cs t3) as (t4 & Hloop & Hpost);
    try done.
  { apply Forall_forall. intros c Hc. split.
    - pose proof (height_kid c cs Hc). lia.
    - rewrite forallb_forall in Hs. apply Hs. by apply list_elem_of_In. }
  { intros w. by rewrite Ha3. }
  { by rewrite Hd3. }
  { rewrite Hm3. simpl. by rewrite (setitem_length _ _ _ _ Hl1). }
  { rewrite Hf3. simpl. by rewrite (setitem_length _ _ _ _ Hl2). }
  { rewrite Hd3, Hm3. simpl. rewrite (at_setitem_eq _ _ _ _ Hl1). lia. }
  exists t4. split; [done|].
  destruct Hpost as (Ha4 & Hd4 & Hlm4 & Hlf4 & Hfm4 & Hge4).
  unfold cf_post. split_and!.
  - done.
  - by rewrite Hd4, Hd3.
  - rewrite Hlm4, Hm3. simpl. by rewrite (setitem_length _ _ _ _ Hl1).
  - rewrite Hlf4, Hf3. simpl. by rewrite (setitem_length _ _ _ _ Hl2).
  - intros w Hw Hnin. rewrite Hfm4, Hm3 by done. simpl.
    apply not_elem_of_cons in Hnin as [Hne _].
    eapply at_setitem_ne; [done|lia|done|done].
  - intros w Hw. specialize (Hge4 w Hw). by rewrite Hd3 in Hge4.
Qed.
End ComputeFarthest.

(** ** Attributes a pass does not write *)

Lemma store_frame (I : Tree → Prop) f upd i x t :
  (∀ l t, I t → I (upd l t)) → I t → I (store f upd i x t).2.
Proof.
  intros Hupd Ht. unfold store. destruct (setitem (f t) i x); simpl; auto.
Qed.

Lemma edges_at_frame (I : Tree → Prop) u t :
  (∀ e t, I t → I (with_edges e t)) → I t → I (edges_at u t).2.
Proof.
  intros Hupd Ht. unfold edges_at. destruct (edges t !! u); simpl; auto.
Qed.

Lemma dfs_frame (I : Tree → Prop) fuel u p t :
  (∀ l t, I t → I (with_parent l t)) →
  (∀ l t, I t → I (with_depth l t)) →
  (∀ e t, I t → I (with_edges e t)) →
  I t → I (_dfs fuel u p t).2.
Proof.
  intros Hp Hd He. revert u p t.
  induction fuel as [|fuel IH]; intros u p t Ht; simpl; [done|].
  apply bind_keeps; [by apply store_frame|]. intros _ t1 _ Ht1.
  apply bind_keeps; [by apply edges_at_frame|]. intros vs t2 _ Ht2.
  apply for_each_keeps; [done|]. intros v t3 _ Ht3.
  case_bool_decide; [|done].
  apply bind_keeps; [by apply readonly_keeps; auto with readonly|].
  intros du t4 _ Ht4.
  apply bind_keeps; [by apply store_frame|]. intros _ t5 _ Ht5. by apply IH.
Qed.

Lemma compute_farthest_frame (I : Tree → Prop) fuel u p t :
  (∀ l t, I t → I (with_max_depth_in_subtree l t)) →
  (∀ l t, I t → I (with_farthest_node l t)) →
  (∀ e t, I t → I (with_edges e t)) →
  I t → I (_compute_farthest fuel u p t).2.
Proof.
  intros Hm Hf He. revert u p t.
  induction fuel as [|fuel IH]; intros u p t Ht; simpl; [done|].
  apply bind_keeps; [by apply readonly_keeps; auto with readonly|].
  intros du t1 _ Ht1.
  apply bind_keeps; [by apply store_frame|]. intros _ t2 _ Ht2.
  apply bind_keeps; [by apply store_frame|]. intros _ t3 _ Ht3.
  apply bind_keeps; [by apply edges_at_frame|]. intros vs t4 _ Ht4.
  apply for_each_keeps; [done|]. intros v t5 _ Ht5.
  case_bool_decide; [|done].
  apply bind_keeps; [by apply IH|]. intros _ t6 _ Ht6.
  apply bind_keeps; [by apply readonly_keeps; auto with readonly|].
  intros mv t7 _ Ht7.
  apply bind_keeps; [by apply readonly_keeps; auto with readonly|].
  intros mu t8 _ Ht8. destruct (mv >? mu); [|done].
  apply bind_keeps; [by apply readonly_keeps; auto with readonly|].
  intros mv' t9 _ Ht9.
  apply bind_keeps; [by apply store_frame|]. intros _ t10 _ Ht10.
  apply bind_keeps; [by apply readonly_keeps; auto with readonly|].
  intros fv t11 _ Ht11. by apply store_frame.
Qed.

Lemma build_tables n0 edge_list :
  let t := build n0 edge_list in
  depth t = depth (init n0) ∧ parent t = parent (init n0)
  ∧ up t = up (init n0).
Proof.
  unfold build.
  apply (for_each_keeps
           (λ t, depth t = depth (init n0) ∧ parent t = parent (init n0)
                 ∧ up t = up (init n0))); [done|].
  by intros e t _.
Qed.

Lemma at_replicate k w : at_ (replicate k 0) w = 0.
Proof.
  unfold at_, getitem. destruct (norm_index _ w) as [j|]; [|done].
  destruct (replicate k 0 !! j) as [x|] eqn:E; [|done].
  by apply lookup_replicate in E as [-> _].
Qed.

Lemma up_at_init n0 edge_list v k : up_at (build n0 edge_list) v k = 0.
Proof.
  unfold up_at. destruct (build_tables n0 edge_list) as (_ & _ & ->). simpl.
  unfold getitem at 1.
  destruct (norm_index _ v) as [j|]; [|apply (at_replicate 0)].
  destruct (replicate _ _ !! j) as [row|] eqn:E; [|apply (at_replicate 0)].
  apply lookup_replicate in E as [-> _]. apply at_replicate.
Qed.

Lemma wf_up_dims n0 b t : wf n0 b t → up_dims n0 (LOGN t) t.
Proof.
  intros (?&HG&?&?&?&?&[? ?]&[? Hrows]). split; [done|]. rewrite HG.
  eapply Forall_impl; [exact Hrows|]. by intros row [? _].
Qed.

(** The nodes of a valid tree are exactly 1..n0. *)
Lemma valid_tree_ids n0 edge_list T v :
  valid_tree n0 edge_list T → 1 ≤ v ≤ n0 → v ∈ ids T.
Proof.
  intros (_ & Hnd & Hrg & Hlen & _) Hv.
  assert (ids T ≡ₚ seqZ 1 n0) as Hperm.
  { apply submseteq_length_Permutation.
    - apply NoDup_submseteq; [done|]. intros x Hx. apply elem_of_seqZ.
      rewrite Forall_forall in Hrg. specialize (Hrg x Hx). lia.
    - rewrite length_seqZ. lia. }
  rewrite Hperm. apply elem_of_seqZ. lia.
Qed.

Lemma LOGN_bound n0 : 1 ≤ n0 → 1 ≤ Z.max 1 (bit_length n0) ∧ n0 < 2 ^ Z.max 1 (bit_length n0).
Proof.
  intros Hn. split; [lia|]. unfold bit_length.
  destruct (Z.eqb_spec n0 0); [lia|]. rewrite Z.abs_eq by lia.
  pose proof (Z.log2_spec n0 ltac:(lia)) as [_ Hlt].
  pose proof (Z.log2_nonneg n0).
  rewrite Z.max_r by lia. by rewrite <- Z.add_1_r in Hlt.
Qed.

(** ** Preprocessing a valid tree *)

Lemma preprocess_valid n0 edge_list T fuel :
  valid_tree n0 edge_list T → (height T ≤ fuel)%nat →
  ∃ t, preprocess fuel (build n0 edge_list) = (Ok tt, t) ∧ Inv n0 t.
Proof.
  intros Hval Hfuel. pose proof Hval as (Hroot & Hnd & Hrg & Hlen & Hshape).
  set (t0 := build n0 edge_list) in *.
  set (a := adj (edges t0)) in *.
  assert (1 ≤ n0) as Hn0.
  { destruct T as [u cs]. simpl in Hlen. lia. }
  pose proof (build_wf n0 edge_list) as Hwf0. fold t0 in Hwf0.
  pose proof (build_tables n0 edge_list) as (Hd0 & Hp0 & Hu0). fold t0 in Hd0, Hp0, Hu0.
  pose proof Hwf0 as (Hn & HG & _ & Hld0 & Hlm0 & Hlf0 & [Hlp0 _] & _).
  assert (∀ w, at_ (depth t0) w = 0) as Hdz.
  { intros w. rewrite Hd0. apply at_replicate. }
  assert (∀ w, at_ (parent t0) w = 0) as Hpz.
  { intros w. rewrite Hp0. apply at_replicate. }
  assert (∀ v, 1 ≤ v ≤ n0 → v ∈ ids T) as Hcover.
  { intros v. by eapply valid_tree_ids. }
  assert (∀ v, v ∈ ids T → 1 ≤ v ≤ n0) as Hrg'.
  { by apply Forall_forall. }
  unfold preprocess.
  (* _dfs(1, 0) *)
  destruct (dfs_valid n0 a fuel T 0 t0) as (t1 & Hdfs & Hpost1); try done.
  rewrite Hroot in Hdfs. step Hdfs.
  destruct Hpost1 as (Ha1 & Hlp1 & Hld1 & Hfp1 & Hfd1 & Hdr1 & Hpr1 & Hin1 & Hbd1).
  rewrite Hroot in Hdr1, Hpr1, Hin1, Hbd1.
  assert (wf n0 false t1) as Hwf1.
  { replace t1 with (_dfs fuel 1 0 t0).2 by (by rewrite Hdfs).
    apply dfs_keeps; [done|]. unfold valid_index. lia. }
  assert (up t1 = up t0) as Hup1.
  { replace t1 with (_dfs fuel 1 0 t0).2 by (by rewrite Hdfs).
    by apply (dfs_frame (λ t, up t = up t0)). }
  pose proof (LOGN_bound n0 Hn0) as [HG1 _].
  set (G := Z.max 1 (bit_length n0)) in *.
  (* _build_lifting() *)
  destruct (build_lifting_valid n0 G Hn0 HG1 t1) as (t2 & Hbl & Hfr2 & Hlift2).
  { by destruct Hwf1 as (?&_). }
  { destruct Hwf1 as (_&HG'&_). exact HG'. }
  { by rewrite Hlp1. }
  { intros v Hv. destruct (decide (v = 1)) as [->|Hne]; [rewrite Hpr1; lia|].
    destruct (Hin1 v) as [Hp _]; [by apply Hcover|done|].
    apply Hrg' in Hp. lia. }
  { pose proof (wf_up_dims _ _ _ Hwf1) as Hdims.
    destruct Hwf1 as (_&HG'&_). rewrite HG' in Hdims. exact Hdims. }
  { intros v k _ _. unfold up_at. rewrite Hup1. apply (up_at_init n0 edge_list). }
  step Hbl.
  assert (depth t2 = depth t1 ∧ parent t2 = parent t1
          ∧ max_depth_in_subtree t2 = max_depth_in_subtree t1
          ∧ farthest_node t2 = farthest_node t1
          ∧ edges t2 = edges t1) as (Hd2 & Hp2 & Hm2 & Hf2 & He2).
  { by rewrite Hfr2. }
  assert (wf n0 false t2) as Hwf2.
  { replace t2 with (_build_lifting t1).2 by (by rewrite Hbl).
    by apply build_lifting_keeps. }
  (* _compute_farthest(1, 0) *)
  destruct (compute_farthest_valid n0 a fuel T 0 t2) as (t3 & Hcf & Hpost3);
    try done.
  { intros w. by rewrite He2. }
  { by destruct Hwf2 as (_&_&_&?&_). }
  { by destruct Hwf2 as (_&_&_&_&?&_). }
  { by destruct Hwf2 as (_&_&_&_&_&?&_). }
  rewrite Hroot in Hcf. step Hcf.
  destruct Hpost3 as (Ha3 & Hd3 & Hlm3 & Hlf3 & Hfm3 & Hge3).
  assert (wf n0 false t3) as Hwf3.
  { replace t3 with (_compute_farthest fuel 1 0 t2).2 by (by rewrite Hcf).
    by apply compute_farthest_keeps. }
  assert (parent t3 = parent t2 ∧ up t3 = up t2) as [Hp3 Hu3].
  { replace t3 with (_compute_farthest fuel 1 0 t2).2 by (by rewrite Hcf).
    by apply (compute_farthest_frame
                (λ t, parent t = parent t2 ∧ up t = up t2)). }
  eexists. split; [done|].
  (* the invariant *)
  unfold Inv. split_and!.
  - done.
  - destruct Hwf3 as (?&?&?&?&?&?&[? ?]&[? ?]). by repeat split.
  - simpl. destruct Hwf3 as (_&HG3&_). rewrite HG3. fold G.
    destruct Hlift2 as (Hdims & Hrng & Hz & Hl0 & Hlk).
    unfold lifted, up_dims, up_at in *. simpl. rewrite Hu3, Hp3.
    destruct Hdims. by split_and!.
  - simpl. rewrite Hp3, Hp2, Hfp1, Hpz; [done|lia|].
    intros H0. apply Hrg' in H0. lia.
  - simpl. by rewrite Hp3, Hp2.
  - simpl. by rewrite Hd3, Hd2, Hdr1.
  - intros v Hv. simpl. rewrite Hd3, Hd2, Hp3, Hp2.
    destruct (Hin1 v) as [Hp Hd]; [apply Hcover; lia|lia|].
    split; [by apply Hrg'|done].
  - intros v Hv. simpl. rewrite Hd3, Hd2.
    specialize (Hbd1 v (Hcover v Hv)). rewrite Hdz in Hbd1. lia.
  - intros v Hv. simpl. specialize (Hge3 v (Hcover v Hv)).
    by rewrite Hd3.
Qed.

(** ** Bits of the step count *)

Lemma land_pow2 k i :
  0 ≤ i → Z.land k (Z.shiftl 1 i) = if Z.testbit k i then 2 ^ i else 0.
Proof.
  intros Hi. rewrite Z.shiftl_1_l. apply Z.bits_inj'. intros m Hm.
  rewrite Z.land_spec, Z.pow2_bits_eqb by done.
  destruct (Z.testbit k i) eqn:Hb.
  - rewrite Z.pow2_bits_eqb by done. destruct (Z.eqb_spec i m) as [->|].
    + by rewrite Hb.
    + apply andb_false_r.
  - rewrite Z.bits_0. destruct (Z.eqb_spec i m) as [->|].
    + by rewrite Hb.
    + apply andb_false_r.
Qed.

Lemma low_bits_app k l1 l2 :
  low_bits k (l1 ++ l2) = low_bits k l1 + low_bits k l2.
Proof.
  unfold low_bits. induction l1 as [|i l1 IH]; simpl; [done|]. rewrite IH. lia.
Qed.

Lemma low_bits_nonneg k idxs : 0 ≤ low_bits k idxs.
Proof.
  unfold low_bits. induction idxs as [|i idxs IH]; simpl; [done|].
  destruct (_ =? 0); [lia|]. pose proof (Z.pow_nonneg 2 i). lia.
Qed.

Lemma low_bits_range k (m : nat) :
  low_bits k (range 0 (Z.of_nat m)) = k mod 2 ^ Z.of_nat m.
Proof.
  unfold range. rewrite Z.sub_0_r. induction m as [|m IH].
  - simpl. by rewrite Z.mod_1_r.
  - rewrite Nat2Z.inj_succ, <- Z.add_1_r.
    rewrite seqZ_app by lia. rewrite low_bits_app, IH.
    change (seqZ (0 + Z.of_nat m) 1) with [0 + Z.of_nat m].
    unfold low_bits at 1. cbn [foldr]. rewrite Z.add_0_l, Z.add_0_r.
    rewrite land_pow2 by lia.
    rewrite Z.pow_add_r, Z.pow_1_r by lia.
    rewrite Z.rem_mul_r by lia.
    rewrite <- Z.testbit_spec' by lia.
    destruct (Z.testbit k (Z.of_nat m)); simpl.
    + pose proof (Z.pow_pos_nonneg 2 (Z.of_nat m)).
      destruct (Z.eqb_spec (2 ^ Z.of_nat m) 0); lia.
    + lia.
Qed.

(** ** Queries on a preprocessed valid tree *)

Lemma anc_add t (i j : nat) v : anc t (i + j) v = anc t j (anc t i v).
Proof.
  unfold anc. rewrite Nat.add_comm. apply Nat.iter_add.
Qed.

Section Queries.
Variables (n0 : Z) (t : Tree).
Hypothesis HInv : Inv n0 t.
Let G := LOGN t.

Lemma Inv_n0 : 1 ≤ n0.
Proof. by destruct HInv as (?&_). Qed.

Lemma Inv_G : 1 ≤ G ∧ n0 < 2 ^ G.
Proof.
  destruct HInv as (Hn0 & (_&HG&_) & _). unfold G. rewrite HG.
  by apply LOGN_bound.
Qed.

Lemma Inv_flag : _preprocessed t = true.
Proof. by destruct HInv as (_ & (_&_&?&_) & _). Qed.

Lemma Inv_len_depth : Z.of_nat (length (depth t)) = n0 + 1.
Proof.
  destruct HInv as (Hn0 & (_&_&_&Hl&_) & _). rewrite Hl. lia.
Qed.

Lemma Inv_len_mds : Z.of_nat (length (max_depth_in_subtree t)) = n0 + 1.
Proof.
  destruct HInv as (Hn0 & (_&_&_&_&Hl&_) & _). rewrite Hl. lia.
Qed.

Lemma Inv_up_dims : up_dims n0 G t.
Proof. by destruct HInv as (_ & _ & (?&_) & _). Qed.

Lemma up_range v k : 0 ≤ v ≤ n0 → 0 ≤ k ≤ G → 0 ≤ up_at t v k ≤ n0.
Proof. destruct HInv as (_ & _ & (_&H&_) & _). apply H. Qed.

Lemma par_0 : par t 0 = 0.
Proof. by destruct HInv as (_&_&_&?&_). Qed.

Lemma par_1 : par t 1 = 0.
Proof. by destruct HInv as (_&_&_&_&?&_). Qed.

Lemma depth_1 : at_ (depth t) 1 = 0.
Proof. by destruct HInv as (_&_&_&_&_&?&_). Qed.

Lemma par_step v :
  2 ≤ v ≤ n0 →
  1 ≤ par t v ≤ n0 ∧ at_ (depth t) v = at_ (depth t) (par t v) + 1.
Proof. destruct HInv as (_&_&_&_&_&_&H&_). apply H. Qed.

Lemma depth_range v : 1 ≤ v ≤ n0 → 0 ≤ at_ (depth t) v < n0.
Proof. destruct HInv as (_&_&_&_&_&_&_&H&_). apply H. Qed.

Lemma mds_depth v :
  1 ≤ v ≤ n0 → at_ (depth t) v ≤ at_ (max_depth_in_subtree t) v.
Proof. destruct HInv as (_&_&_&_&_&_&_&_&H). apply H. Qed.

Lemma par_range v : 0 ≤ v ≤ n0 → 0 ≤ par t v ≤ n0.
Proof.
  intros Hv. destruct (decide (v = 0)) as [->|]; [rewrite par_0; lia|].
  destruct (decide (v = 1)) as [->|]; [rewrite par_1; lia|].
  destruct (par_step v); lia.
Qed.

Lemma anc_0 j : anc t j 0 = 0.
Proof.
  induction j as [|j IH]; [done|]. unfold anc in *. simpl. rewrite IH.
  apply par_0.
Qed.

Lemma anc_range j v : 0 ≤ v ≤ n0 → 0 ≤ anc t j v ≤ n0.
Proof.
  intros Hv. induction j as [|j IH]; [done|]. unfold anc in *. simpl.
  by apply par_range.
Qed.

(** Below the root there is nothing: a nonzero [j]-th ancestor sits
    exactly [j] levels above [v]. *)
Lemma anc_depth j v :
  1 ≤ v ≤ n0 → anc t j v ≠ 0 →
  at_ (depth t) (anc t j v) = at_ (depth t) v - Z.of_nat j.
Proof.
  intros Hv. induction j as [|j IH]; intros Hnz.
  - simpl. lia.
  - change (anc t (S j) v) with (par t (anc t j v)) in *.
    pose proof (anc_range j v ltac:(lia)) as Hr.
    destruct (decide (anc t j v = 0)) as [E|Hj].
    { rewrite E, par_0 in Hnz. done. }
    destruct (decide (anc t j v = 1)) as [E|Hj1].
    { rewrite E, par_1 in Hnz. done. }
    destruct (par_step (anc t j v)) as [_ Hd]; [lia|].
    specialize (IH Hj). lia.
Qed.

(** Within the depth of [v] the ancestors exist. *)
Lemma anc_exists j v :
  1 ≤ v ≤ n0 → Z.of_nat j ≤ at_ (depth t) v → 1 ≤ anc t j v ≤ n0.
Proof.
  intros Hv. induction j as [|j IH]; intros Hj; [done|].
  change (anc t (S j) v) with (par t (anc t j v)).
  specialize (IH ltac:(lia)).
  assert (anc t j v ≠ 0) as Hnz by lia.
  pose proof (anc_depth j v Hv Hnz) as Hd.
  destruct (decide (anc t j v = 1)) as [E|Hj1].
  { rewrite E, depth_1 in Hd. lia. }
  destruct (par_step (anc t j v)); lia.
Qed.

Lemma depth_0_root v : 1 ≤ v ≤ n0 → at_ (depth t) v = 0 → v = 1.
Proof.
  intros Hv Hd. destruct (decide (v = 1)); [done|].
  destruct (par_step v) as [Hp Hs]; [lia|].
  pose proof (depth_range (par t v) Hp). lia.
Qed.

(** The lifting table holds the [2^k]-th ancestors. *)
Lemma up_anc k v :
  0 ≤ k ≤ G → 0 ≤ v ≤ n0 → up_at t v k = anc t (Z.to_nat (2 ^ k)) v.
Proof.
  intros [Hk0 HkG]. revert HkG v. pattern k. apply natlike_ind; [| |done].
  - intros _ v Hv. destruct HInv as (_ & _ & (_&_&Hz&H0&_) & _).
    destruct (decide (v = 0)) as [->|].
    + rewrite Hz by (pose proof Inv_G; fold G; lia). by rewrite anc_0.
    + rewrite H0 by lia. done.
  - intros j Hj IH HjG v Hv.
    assert (up_at t v (Z.succ j) = up_at t (up_at t v j) j) as ->.
    { destruct HInv as (_ & _ & (_&_&Hz&_&Hk) & _).
      destruct (decide (v = 0)) as [->|].
      - rewrite (Hz (Z.succ j)), (Hz j) by (fold G; lia).
        by rewrite Hz by (fold G; lia).
      - rewrite Hk by (fold G; lia). by replace (Z.succ j - 1) with j by lia. }
    rewrite (IH ltac:(lia) v Hv).
    rewrite IH by (lia || by apply anc_range).
    rewrite <- anc_add. f_equal.
    rewrite Z.pow_succ_r by done. pose proof (Z.pow_pos_nonneg 2 j). lia.
Qed.

(** The loop of [get_kth_ancestor] climbs by the tested bits of [k]. *)
Lemma kth_loop_spec idxs k u :
  Forall (λ i, 0 ≤ i ≤ G) idxs → 0 ≤ u ≤ n0 →
  kth_loop idxs k u t = (Ok (anc t (Z.to_nat (low_bits k idxs)) u), t).
Proof.
  intros Hidx. revert u. induction Hidx as [|i idxs Hi _ IH]; intros u Hu.
  - done.
  - cbn [kth_loop low_bits foldr]. fold (low_bits k idxs).
    destruct (Z.land k (Z.shiftl 1 i) =? 0) eqn:Hbit.
    + rewrite Z.add_0_l. by apply IH.
    + pose proof (load_up_ok n0 G Inv_n0 (proj1 Inv_G) t u i Inv_up_dims Hu Hi)
        as Hld.
      step Hld. rewrite (up_anc i u) by done.
      pose proof (Z.pow_pos_nonneg 2 i ltac:(lia) ltac:(lia)).
      pose proof (low_bits_nonneg k idxs).
      rewrite Z2Nat.inj_add by lia. rewrite anc_add.
      destruct (Z.eqb_spec (anc t (Z.to_nat (2 ^ i)) u) 0) as [E|Hnz].
      * rewrite E, anc_0. done.
      * apply IH. by apply anc_range.
Qed.

Lemma get_kth_ancestor_spec u k :
  0 ≤ u ≤ n0 →
  get_kth_ancestor u k t
  = (Ok (anc t (Z.to_nat (k mod 2 ^ (G + 1))) u), t).
Proof.
  intros Hu. unfold get_kth_ancestor.
  assert (get LOGN t = (Ok G, t)) as Hg by done. step Hg.
  pose proof Inv_G as [HG _].
  rewrite kth_loop_spec; [|by (apply Forall_forall; intros i; unfold range;
                                rewrite elem_of_seqZ; lia)|done].
  replace (G + 1) with (Z.of_nat (Z.to_nat (G + 1))) by lia.
  by rewrite low_bits_range.
Qed.

Lemma get_kth_ancestor_small u k :
  0 ≤ u ≤ n0 → 0 ≤ k < 2 ^ (G + 1) →
  get_kth_ancestor u k t = (Ok (anc t (Z.to_nat k) u), t).
Proof.
  intros Hu Hk. rewrite get_kth_ancestor_spec by done.
  by rewrite Z.mod_small.
Qed.
End Queries.

(** ** The two loops of the distance query *)

Lemma load_up_wf n0 b t u k :
  wf n0 b t → valid_index (Z.to_nat (n0 + 1)) u → 0 ≤ k ≤ LOGN t →
  ∃ x, load_up u k t = (Ok x, t) ∧ valid_index (Z.to_nat (n0 + 1)) x.
Proof.
  intros (_&HG&_&_&_&_&_&[Hlen Hrows]) Hu Hk.
  destruct (proj2 (getitem_is_Some (up t) u)) as [row Hrow].
  { by rewrite Hlen. }
  destruct (Forall_getitem _ _ _ _ Hrow Hrows) as [Hlr Hvr].
  destruct (proj2 (getitem_is_Some row k)) as [x Hx].
  { rewrite Hlr. lia. }
  exists x. unfold load_up. rewrite Hrow, Hx. split; [done|].
  by eapply Forall_getitem.
Qed.

Lemma load_cases f i t :
  (∃ x, load f i t = (Ok x, t) ∧ getitem (f t) i = Some x)
  ∨ load f i t = (Raise IndexError, t).
Proof.
  unfold load. destruct (getitem (f t) i) as [x|]; [left|right]; eauto.
Qed.

(** The first loop never raises and leaves nothing behind but its locals. *)
Lemma lift_loop_ok n0 b t ks u sl :
  wf n0 b t → Forall (λ k, 0 ≤ k ≤ LOGN t) ks →
  valid_index (Z.to_nat (n0 + 1)) u →
  ∃ r, lift_loop ks u sl t = (Ok r, t).
Proof.
  intros Hwf Hks. revert u sl.
  induction Hks as [|k ks Hk _ IH]; intros u sl Hu.
  - by eexists.
  - cbn [lift_loop]. destruct (sl >=? Z.shiftl 1 k); [|by apply IH].
    destruct (load_up_wf n0 b t u k Hwf Hu Hk) as (x & Hld & Hx).
    step Hld. destruct (x =? 0); by apply IH.
Qed.

Lemma range_down_bounds G : Forall (λ k, 0 ≤ k ≤ G) (range_down G).
Proof.
  apply Forall_forall. intros k. unfold range_down, range.
  rewrite elem_of_reverse, elem_of_seqZ. lia.
Qed.

(** On any object the passes can produce, deleting the first loop changes
    nothing. *)
Lemma get_farthest_distance_simplify n0 b t v s :
  wf n0 b t →
  get_farthest_distance v s t = get_farthest_distance_simplified v s t.
Proof.
  intros Hwf. unfold get_farthest_distance, get_farthest_distance_simplified.
  assert (get _preprocessed t = (Ok (_preprocessed t), t)) as Hpre by done.
  step Hpre. rewrite (bind_ok _ _ _ _ _ Hpre). cbv beta.
  destruct (negb (_preprocessed t)); [done|].
  destruct (load_cases max_depth_in_subtree v t) as [(m & Hm & Em)|Hm].
  2: { by rewrite !(bind_raise _ _ _ _ _ Hm). }
  rewrite !(bind_ok _ _ _ _ _ Hm). cbv beta.
  destruct (load_cases depth v t) as [(d & Hd & Ed)|Hd].
  2: { by rewrite !(bind_raise _ _ _ _ _ Hd). }
  rewrite !(bind_ok _ _ _ _ _ Hd). cbv beta.
  assert (get LOGN t = (Ok (LOGN t), t)) as Hg by done. step Hg.
  assert (valid_index (Z.to_nat (n0 + 1)) v) as Hv.
  { destruct Hwf as (_&_&_&_&Hl&_). unfold valid_index. rewrite <- Hl.
    apply getitem_is_Some. by eexists. }
  destruct (lift_loop_ok n0 b t (range_down (LOGN t)) v s Hwf
              (range_down_bounds _) Hv) as [r Hr].
  by step Hr.
Qed.

Section Distance.
Variables (n0 : Z) (t : Tree).
Hypothesis HInv : Inv n0 t.
Let G := LOGN t.

(** The node [get_kth_ancestor(v, used)] returns. *)
Let kth (v used : Z) : Z := anc t (Z.to_nat (used mod 2 ^ (G + 1))) v.

Lemma climb_loop_cons used rest v md :
  1 ≤ v ≤ n0 →
  climb_loop (used :: rest) v md t =
    if kth v used =? 0 then (Ok md, t)
    else
      let dist := at_ (max_depth_in_subtree t) (kth v used)
                  - at_ (depth t) v + used in
      climb_loop rest v (if dist >? md then dist else md) t.
Proof.
  intros Hv. cbn [climb_loop].
  pose proof (get_kth_ancestor_spec n0 t HInv v used ltac:(lia)) as Hk.
  fold G in Hk. fold (kth v used) in Hk. step Hk.
  destruct (Z.eqb_spec (kth v used) 0) as [|Hnz]; [done|].
  pose proof (anc_range n0 t HInv (Z.to_nat (used mod 2 ^ (G + 1))) v
                ltac:(lia)) as Hr. fold (kth v used) in Hr.
  assert (load max_depth_in_subtree (kth v used) t
          = (Ok (at_ (max_depth_in_subtree t) (kth v used)), t)) as Hm.
  { apply load_ok. rewrite (Inv_len_mds n0 t HInv). lia. }
  step Hm.
  assert (load depth v t = (Ok (at_ (depth t) v), t)) as Hd.
  { apply load_ok. rewrite (Inv_len_depth n0 t HInv). lia. }
  by step Hd.
Qed.

(** The second loop returns, and never less than it started with. *)
Lemma climb_loop_ok useds v md :
  1 ≤ v ≤ n0 → ∃ r, climb_loop useds v md t = (Ok r, t) ∧ md ≤ r.
Proof.
  intros Hv. revert md. induction useds as [|used useds IH]; intros md.
  - exists md. by split.
  - rewrite climb_loop_cons by done.
    destruct (kth v used =? 0); [exists md; by split|]. cbv zeta.
    destruct (IH (if at_ (max_depth_in_subtree t) (kth v used)
                      - at_ (depth t) v + used >? md
                  then at_ (max_depth_in_subtree t) (kth v used)
                       - at_ (depth t) v + used
                  else md)) as (r & Hr & Hle).
    exists r. split; [done|].
    destruct (Z.gtb_spec (at_ (max_depth_in_subtree t) (kth v used)
                          - at_ (depth t) v + used) md); lia.
Qed.

(** More values of [used] to try can only raise the maximum. *)
Lemma climb_loop_app l1 l2 v md :
  1 ≤ v ≤ n0 →
  ∃ r1 r2, climb_loop l1 v md t = (Ok r1, t)
           ∧ climb_loop (l1 ++ l2) v md t = (Ok r2, t)
           ∧ r1 ≤ r2.
Proof.
  intros Hv. revert md. induction l1 as [|used l1 IH]; intros md.
  - destruct (climb_loop_ok l2 v md Hv) as (r & Hr & Hle).
    exists md, r. by split_and!.
  - rewrite <- app_comm_cons. rewrite !climb_loop_cons by done.
    destruct (kth v used =? 0).
    + exists md, md. by split_and!.
    + apply IH.
Qed.

Lemma get_farthest_distance_climb v s :
  1 ≤ v ≤ n0 →
  get_farthest_distance v s t =
    climb_loop (range 1 (s + 1)) v
      (at_ (max_depth_in_subtree t) v - at_ (depth t) v) t.
Proof.
  intros Hv. destruct HInv as (_ & Hwf & _).
  rewrite (get_farthest_distance_simplify n0 true) by done.
  unfold get_farthest_distance_simplified.
  assert (get _preprocessed t = (Ok true, t)) as Hpre.
  { unfold get. by rewrite (Inv_flag n0 t HInv). }
  step Hpre. cbn [negb].
  assert (load max_depth_in_subtree v t
          = (Ok (at_ (max_depth_in_subtree t) v), t)) as Hm.
  { apply load_ok. rewrite (Inv_len_mds n0 t HInv). lia. }
  step Hm.
  assert (load depth v t = (Ok (at_ (depth t) v), t)) as Hd.
  { apply load_ok. rewrite (Inv_len_depth n0 t HInv). lia. }
  by step Hd.
Qed.
End Distance.

(** ** The ancestor queries on a preprocessed valid tree *)

Section Ancestors.
Variables (n0 : Z) (t : Tree).
Hypothesis HInv : Inv n0 t.
Let G := LOGN t.

Lemma load_depth_ok v :
  1 ≤ v ≤ n0 → load depth v t = (Ok (at_ (depth t) v), t).
Proof.
  intros Hv. apply load_ok. rewrite (Inv_len_depth n0 t HInv). lia.
Qed.

Lemma is_ancestor_spec u v :
  1 ≤ u ≤ n0 → 1 ≤ v ≤ n0 → at_ (depth t) u ≤ at_ (depth t) v →
  is_ancestor u v t
  = (Ok (anc t (Z.to_nat (at_ (depth t) v - at_ (depth t) u)) v =? u), t).
Proof.
  intros Hu Hv Hle. unfold is_ancestor.
  pose proof (load_depth_ok u Hu) as Hdu.
  pose proof (load_depth_ok v Hv) as Hdv.
  step Hdv. step Hdu.
  destruct (Z.ltb_spec (at_ (depth t) v) (at_ (depth t) u)); [lia|].
  step Hdv. step Hdu.
  pose proof (depth_range n0 t HInv u Hu).
  pose proof (depth_range n0 t HInv v Hv).
  pose proof (Inv_G n0 t HInv) as [HG1 HG2]. fold G in HG1, HG2.
  assert (2 ^ G < 2 ^ (G + 1)) by (apply Z.pow_lt_mono_r; lia).
  assert (get_kth_ancestor v (at_ (depth t) v - at_ (depth t) u) t
          = (Ok (anc t (Z.to_nat (at_ (depth t) v - at_ (depth t) u)) v), t))
    as Hk.
  { apply (get_kth_ancestor_small n0 t HInv); fold G; lia. }
  by step Hk.
Qed.

Lemma is_ancestor_self u : 1 ≤ u ≤ n0 → is_ancestor u u t = (Ok true, t).
Proof.
  intros Hu. rewrite is_ancestor_spec by (done || lia).
  rewrite Z.sub_diag. simpl. by rewrite Z.eqb_refl.
Qed.

Lemma is_ancestor_root v : 1 ≤ v ≤ n0 → is_ancestor 1 v t = (Ok true, t).
Proof.
  intros Hv. pose proof (Inv_n0 n0 t HInv).
  pose proof (depth_range n0 t HInv v Hv).
  rewrite is_ancestor_spec by (try rewrite (depth_1 n0 t HInv); lia).
  rewrite (depth_1 n0 t HInv), Z.sub_0_r.
  pose proof (anc_exists n0 t HInv (Z.to_nat (at_ (depth t) v)) v Hv
                ltac:(lia)) as Hr.
  pose proof (anc_depth n0 t HInv (Z.to_nat (at_ (depth t) v)) v Hv
                ltac:(lia)) as Hd.
  rewrite (depth_0_root n0 t HInv _ Hr) by lia. done.
Qed.

(** As long as [k] fits in the bits the loop tests, a node returned by
    [get_kth_ancestor] is [k] levels above [v]. *)
Lemma get_kth_ancestor_depth v k r :
  1 ≤ v ≤ n0 → 0 ≤ k < 2 ^ (G + 1) →
  get_kth_ancestor v k t = (Ok r, t) → r ≠ 0 →
  at_ (depth t) r = at_ (depth t) v - k.
Proof.
  intros Hv Hk. rewrite (get_kth_ancestor_small n0 t HInv) by (done || lia).
  intros [= <-] Hnz. rewrite (anc_depth n0 t HInv) by done. lia.
Qed.

(** What the second loop adds up for an ancestor [a] reached in [used]
    steps: the descent below [a] alone, the climb is not counted. *)
Lemma candidate_distance v used :
  1 ≤ v ≤ n0 → anc t used v ≠ 0 →
  at_ (max_depth_in_subtree t) (anc t used v) - at_ (depth t) v
    + Z.of_nat used
  = at_ (max_depth_in_subtree t) (anc t used v)
    - at_ (depth t) (anc t used v).
Proof.
  intros Hv Hnz. rewrite (anc_depth n0 t HInv) by done. lia.
Qed.
End Ancestors.

(** ** Indices the tables refuse *)

Lemma load_up_raise u k t :
  ¬ valid_index (length (up t)) u → load_up u k t = (Raise IndexError, t).
Proof.
  intros H. unfold load_up. destruct (getitem (up t) u) eqn:E; [|done].
  destruct H. apply getitem_is_Some. by eexists.
Qed.

Lemma kth_loop_raise idxs k u t :
  Forall (λ i, 0 ≤ i) idxs → low_bits k idxs ≠ 0 →
  ¬ valid_index (length (up t)) u →
  kth_loop idxs k u t = (Raise IndexError, t).
Proof.
  intros Hidx Hbits Hu. induction Hidx as [|i idxs Hi _ IH]; [done|].
  cbn [kth_loop low_bits foldr] in *. fold (low_bits k idxs) in *.
  destruct (Z.land k (Z.shiftl 1 i) =? 0).
  - apply IH. lia.
  - by rewrite (bind_raise _ _ _ _ _ (load_up_raise u i t Hu)).
Qed.

(** * Properties of the query engine *)

Lemma star4_valid : valid_tree 4 star4 star4_tree.
Proof. compute_done. Qed.

Lemma path5_valid : valid_tree 5 path5 path5_tree.
Proof. compute_done. Qed.

Lemma single_valid : valid_tree 1 [] (Node 1 []).
Proof. compute_done. Qed.

(** C1 (defect of the code).  On the star tree with root 1, n = 4 and edges
    [(1,2),(1,3),(1,4)], [preprocess] succeeds with any recursion budget of
    at least 2, and [get_farthest_distance] returns 1 for (v=1, stamina=0)
    as claimed, but returns 1, not the claimed 2, for (v=2, stamina=1): the
    candidate it computes for the root leaves out the step climbed. *)
Theorem C1_star_tree_scenario fuel :
  ∃ t, preprocess (2 + fuel) (build 4 star4) = (Ok tt, t)
       ∧ get_farthest_distance 1 0 t = (Ok 1, t)
       ∧ get_farthest_distance 2 1 t = (Ok 1, t)
       ∧ (get_farthest_distance 2 1 t).1 ≠ Ok 2.
Proof.
  eexists. split; [vm_compute; reflexivity|].
  split_and!; [vm_compute; reflexivity..|]. vm_compute. discriminate.
Qed.

(** C2.  On every valid tree, preprocessing succeeds given enough recursion
    budget, and for every node v in [1, n] the query with stamina 0 returns
    [max_depth_in_subtree[v] - depth[v]], which is not negative. *)
Theorem C2_zero_stamina_baseline n0 edge_list T fuel :
  valid_tree n0 edge_list T → (height T ≤ fuel)%nat →
  ∃ t, preprocess fuel (build n0 edge_list) = (Ok tt, t)
       ∧ ∀ v, 1 ≤ v ≤ n0 →
           ∃ m d, getitem (max_depth_in_subtree t) v = Some m
                  ∧ getitem (depth t) v = Some d
                  ∧ get_farthest_distance v 0 t = (Ok (m - d), t)
                  ∧ 0 ≤ m - d.
Proof.
  intros Hval Hfuel.
  destruct (preprocess_valid n0 edge_list T fuel Hval Hfuel) as (t & Hpre & HInv).
  exists t. split; [done|]. intros v Hv.
  exists (at_ (max_depth_in_subtree t) v), (at_ (depth t) v). split_and!.
  - apply getitem_at. rewrite (Inv_len_mds n0 t HInv). lia.
  - apply getitem_at. rewrite (Inv_len_depth n0 t HInv). lia.
  - by rewrite (get_farthest_distance_climb n0 t HInv).
  - pose proof (mds_depth n0 t HInv v Hv). lia.
Qed.

Lemma C2_zero_stamina_baseline_witness :
  ∃ t, preprocess 2 (build 4 star4) = (Ok tt, t)
       ∧ ∀ v, 1 ≤ v ≤ 4 →
           ∃ m d, getitem (max_depth_in_subtree t) v = Some m
                  ∧ getitem (depth t) v = Some d
                  ∧ get_farthest_distance v 0 t = (Ok (m - d), t)
                  ∧ 0 ≤ m - d.
Proof.
  apply (C2_zero_stamina_baseline 4 star4 star4_tree 2);
    [compute_done | simpl; lia].
Defined.

(** C3.  On every valid preprocessed tree, for every node v in [1, n] and
    all stamina values 0 <= s1 <= s2, both queries return and the result for
    s1 is at most the result for s2. *)
Theorem C3_monotone_in_stamina n0 edge_list T fuel :
  valid_tree n0 edge_list T → (height T ≤ fuel)%nat →
  ∃ t, preprocess fuel (build n0 edge_list) = (Ok tt, t)
       ∧ ∀ v s1 s2, 1 ≤ v ≤ n0 → 0 ≤ s1 ≤ s2 →
           ∃ r1 r2, get_farthest_distance v s1 t = (Ok r1, t)
                    ∧ get_farthest_distance v s2 t = (Ok r2, t)
                    ∧ r1 ≤ r2.
Proof.
  intros Hval Hfuel.
  destruct (preprocess_valid n0 edge_list T fuel Hval Hfuel) as (t & Hpre & HInv).
  exists t. split; [done|]. intros v s1 s2 Hv Hs.
  rewrite !(get_farthest_distance_climb n0 t HInv) by done.
  assert (range 1 (s2 + 1) = range 1 (s1 + 1) ++ range (s1 + 1) (s2 + 1)) as ->.
  { unfold range. replace (s2 + 1 - 1) with ((s1 + 1 - 1) + (s2 - s1)) by lia.
    rewrite seqZ_app by lia. do 2 f_equal; lia. }
  apply (climb_loop_app n0 t HInv). done.
Qed.

Lemma C3_monotone_in_stamina_witness :
  ∃ t, preprocess 5 (build 5 path5) = (Ok tt, t)
       ∧ ∀ v s1 s2, 1 ≤ v ≤ 5 → 0 ≤ s1 ≤ s2 →
           ∃ r1 r2, get_farthest_distance v s1 t = (Ok r1, t)
                    ∧ get_farthest_distance v s2 t = (Ok r2, t)
                    ∧ r1 ≤ r2.
Proof.
  apply (C3_monotone_in_stamina 5 path5 path5_tree 5);
    [compute_done | simpl; lia].
Defined.

(** C4 (defect of the code).  On the valid single-node tree (n = 1, no
    edges), [get_kth_ancestor(1, 4)] returns node 1 rather than the
    sentinel 0, although the depth of node 1 is 0 and not 0 - 4: the loop
    only tests the bits 0..LOGN of k, so a step count of 2^(LOGN+1) or more
    is taken modulo 2^(LOGN+1). *)
Theorem C4_kth_ancestor_wraps fuel :
  valid_tree 1 [] (Node 1 [])
  ∧ ∃ t, preprocess (1 + fuel) (build 1 []) = (Ok tt, t)
         ∧ LOGN t = 1
         ∧ get_kth_ancestor 1 4 t = (Ok 1, t)
         ∧ getitem (depth t) 1 = Some 0
         ∧ 0 ≠ 0 - 4.
Proof.
  split; [compute_done|].
  eexists. split; [vm_compute; reflexivity|].
  split_and!; [vm_compute; reflexivity..|lia].
Qed.

(** Within the bits the loop tests, the k-th ancestor is what its docstring
    says: on every valid preprocessed tree, for v in [1, n] and
    0 <= k < 2^(LOGN+1), a node other than the sentinel returned by
    [get_kth_ancestor(v, k)] has depth [depth[v] - k]. *)
Theorem kth_ancestor_depth_in_range n0 edge_list T fuel :
  valid_tree n0 edge_list T → (height T ≤ fuel)%nat →
  ∃ t, preprocess fuel (build n0 edge_list) = (Ok tt, t)
       ∧ ∀ v k r, 1 ≤ v ≤ n0 → 0 ≤ k < 2 ^ (LOGN t + 1) →
           get_kth_ancestor v k t = (Ok r, t) → r ≠ 0 →
           ∃ dr dv, getitem (depth t) r = Some dr
                    ∧ getitem (depth t) v = Some dv
                    ∧ dr = dv - k.
Proof.
  intros Hval Hfuel.
  destruct (preprocess_valid n0 edge_list T fuel Hval Hfuel) as (t & Hpre & HInv).
  exists t. split; [done|]. intros v k r Hv Hk Hget Hnz.
  pose proof (get_kth_ancestor_depth n0 t HInv v k r Hv Hk Hget Hnz) as Hd.
  rewrite (get_kth_ancestor_small n0 t HInv) in Hget by (done || lia).
  injection Hget as <-.
  pose proof (anc_range n0 t HInv (Z.to_nat k) v ltac:(lia)).
  exists (at_ (depth t) (anc t (Z.to_nat k) v)), (at_ (depth t) v). split_and!.
  - apply getitem_at. rewrite (Inv_len_depth n0 t HInv). lia.
  - apply getitem_at. rewrite (Inv_len_depth n0 t HInv). lia.
  - done.
Qed.

(** C5 (amended).  The farthest-reachable query issued on a Tree whose
    [_preprocessed] flag is still False raises RuntimeError and leaves the
    object as it was, whatever the node and the stamina. *)
Theorem C5_unpreprocessed_query_refused t v s :
  _preprocessed t = false →
  get_farthest_distance v s t = (Raise RuntimeError, t).
Proof.
  intros H. unfold get_farthest_distance.
  assert (get _preprocessed t = (Ok false, t)) as Hg.
  { unfold get. by rewrite H. }
  by step Hg.
Qed.

Lemma C5_unpreprocessed_query_refused_witness :
  get_farthest_distance 2 1 (build 4 star4)
  = (Raise RuntimeError, build 4 star4).
Proof.
  apply (C5_unpreprocessed_query_refused (build 4 star4) 2 1).
  vm_compute. reflexivity.
Defined.

(** C5, as stated, fails: on the star tree built but not preprocessed, the
    k-th-ancestor query and the ancestor predicate return values. *)
Lemma C5_counterexample :
  _preprocessed (build 4 star4) = false
  ∧ (get_kth_ancestor 2 1 (build 4 star4)).1 = Ok 0
  ∧ (is_ancestor 1 2 (build 4 star4)).1 = Ok false.
Proof. split_and!; vm_compute; reflexivity. Qed.

(** C6 (amended).  Nothing checks the structure of the input; it is
    reported only if [preprocess] itself raises.  When it does, the object
    it leaves behind still has [_preprocessed] False, so the
    farthest-reachable query refuses to run on the partially built index. *)
Theorem C6_failed_preprocess_not_queryable n0 edge_list fuel e t :
  preprocess fuel (build n0 edge_list) = (Raise e, t) →
  ∀ v s, get_farthest_distance v s t = (Raise RuntimeError, t).
Proof.
  intros Hpre v s.
  pose proof (preprocess_raise_wf n0 fuel _ e t (build_wf n0 edge_list) Hpre)
    as (_&_&Hflag&_).
  unfold get_farthest_distance.
  assert (get _preprocessed t = (Ok false, t)) as Hg.
  { unfold get. by rewrite Hflag. }
  by step Hg.
Qed.

Lemma C6_failed_preprocess_not_queryable_witness :
  preprocess 5 (build 2 [(1, 5)])
  = (Raise IndexError, (preprocess 5 (build 2 [(1, 5)])).2)
  ∧ get_farthest_distance 1 0 (preprocess 5 (build 2 [(1, 5)])).2
    = (Raise RuntimeError, (preprocess 5 (build 2 [(1, 5)])).2).
Proof.
  assert (preprocess 5 (build 2 [(1, 5)])
          = (Raise IndexError, (preprocess 5 (build 2 [(1, 5)])).2)) as H.
  { vm_compute. reflexivity. }
  split; [exact H|].
  exact (C6_failed_preprocess_not_queryable 2 [(1, 5)] 5 IndexError _ H 1 0).
Defined.

(** C6, as stated, fails: with n = 3 and the single edge (1,2) (wrong edge
    count, node 3 disconnected), and with n = 2 and the self-loop (1,1),
    building and preprocessing succeed, and the query runs and answers. *)
Lemma C6_counterexample :
  (preprocess 5 (build 3 [(1, 2)])).1 = Ok tt
  ∧ (get_farthest_distance 3 0 (preprocess 5 (build 3 [(1, 2)])).2).1 = Ok 0
  ∧ (preprocess 5 (build 2 [(1, 1)])).1 = Ok tt
  ∧ (get_farthest_distance 2 0 (preprocess 5 (build 2 [(1, 1)])).2).1 = Ok 0.
Proof. split_and!; vm_compute; reflexivity. Qed.

(** C7 (amended).  On a preprocessed Tree(n), a node id above n or below
    -(n+1) makes [get_farthest_distance] and [is_ancestor] raise IndexError,
    and [get_kth_ancestor] too when one of the bits 0..LOGN of k is set. *)
Theorem C7_index_beyond_tables n0 edge_list fuel t v :
  preprocess fuel (build n0 edge_list) = (Ok tt, t) →
  v > n0 ∨ v < - (n0 + 1) →
  (∀ s, get_farthest_distance v s t = (Raise IndexError, t))
  ∧ (∀ u, is_ancestor u v t = (Raise IndexError, t))
  ∧ (∀ u, is_ancestor v u t = (Raise IndexError, t))
  ∧ (∀ k, k mod 2 ^ (LOGN t + 1) ≠ 0 →
          get_kth_ancestor v k t = (Raise IndexError, t)).
Proof.
  intros Hpre Hv.
  pose proof (preprocess_ok_wf n0 fuel _ t (build_wf n0 edge_list) Hpre)
    as (_&HG&Hflag&Hld&Hlm&_&_&[Hlu _]).
  assert (¬ valid_index (Z.to_nat (n0 + 1)) v) as Hbad.
  { unfold valid_index. lia. }
  assert (load depth v t = (Raise IndexError, t)) as Hdv.
  { apply load_raise. by rewrite Hld. }
  split_and!.
  - intros s. unfold get_farthest_distance.
    assert (get _preprocessed t = (Ok true, t)) as Hg.
    { unfold get. by rewrite Hflag. }
    step Hg. cbn [negb]. apply bind_raise. apply load_raise. by rewrite Hlm.
  - intros u. unfold is_ancestor. by apply bind_raise.
  - intros u. unfold is_ancestor.
    destruct (load_cases depth u t) as [(d & Hd & _)|Hd].
    + step Hd. by apply bind_raise.
    + by apply bind_raise.
  - intros k Hk. unfold get_kth_ancestor.
    assert (get LOGN t = (Ok (LOGN t), t)) as Hg by done. step Hg.
    apply kth_loop_raise.
    + apply Forall_forall. intros i. unfold range. rewrite elem_of_seqZ. lia.
    + replace (LOGN t + 1) with (Z.of_nat (Z.to_nat (LOGN t + 1))) in * by lia.
      by rewrite low_bits_range.
    + by rewrite Hlu.
Qed.

Lemma C7_index_beyond_tables_witness :
  let t := (preprocess 2 (build 4 star4)).2 in
  (∀ s, get_farthest_distance 5 s t = (Raise IndexError, t))
  ∧ (∀ u, is_ancestor u 5 t = (Raise IndexError, t))
  ∧ (∀ u, is_ancestor 5 u t = (Raise IndexError, t))
  ∧ (∀ k, k mod 2 ^ (LOGN t + 1) ≠ 0 →
          get_kth_ancestor 5 k t = (Raise IndexError, t)).
Proof.
  apply (C7_index_beyond_tables 4 star4 2);
    [vm_compute; reflexivity | lia].
Defined.

(** C7, as stated, fails: on the preprocessed star tree the ids 0 and -1,
    both outside [1, 4], are answered from the sentinel slot and from the
    slot of node 4, and [get_kth_ancestor(9, 0)] returns 9. *)
Lemma C7_counterexample :
  let t := (preprocess 2 (build 4 star4)).2 in
  (preprocess 2 (build 4 star4)).1 = Ok tt
  ∧ (get_farthest_distance 0 0 t).1 = Ok 0
  ∧ (get_farthest_distance (-1) 1 t).1 = Ok 1
  ∧ (get_kth_ancestor 9 0 t).1 = Ok 9.
Proof. split_and!; vm_compute; reflexivity. Qed.

(** C8.  On every valid preprocessed tree, [is_ancestor(1, v)] is true for
    every node v in [1, n] and [is_ancestor(u, u)] is true for every node u
    in [1, n]. *)
Theorem C8_root_and_self_are_ancestors n0 edge_list T fuel :
  valid_tree n0 edge_list T → (height T ≤ fuel)%nat →
  ∃ t, preprocess fuel (build n0 edge_list) = (Ok tt, t)
       ∧ (∀ v, 1 ≤ v ≤ n0 → is_ancestor 1 v t = (Ok true, t))
       ∧ (∀ u, 1 ≤ u ≤ n0 → is_ancestor u u t = (Ok true, t)).
Proof.
  intros Hval Hfuel.
  destruct (preprocess_valid n0 edge_list T fuel Hval Hfuel) as (t & Hpre & HInv).
  exists t. split_and!; [done|..].
  - apply (is_ancestor_root n0 t HInv).
  - apply (is_ancestor_self n0 t HInv).
Qed.

Lemma C8_root_and_self_are_ancestors_witness :
  ∃ t, preprocess 5 (build 5 path5) = (Ok tt, t)
       ∧ (∀ v, 1 ≤ v ≤ 5 → is_ancestor 1 v t = (Ok true, t))
       ∧ (∀ u, 1 ≤ u ≤ 5 → is_ancestor u u t = (Ok true, t)).
Proof.
  apply (C8_root_and_self_are_ancestors 5 path5 path5_tree 5);
    [compute_done | simpl; lia].
Defined.

(** C9.  The three queries hand back the Tree exactly as they received it
    (every field unchanged), whatever they return or raise, so a query
    repeated with the same arguments has the same outcome. *)
Theorem C9_queries_are_read_only t u v k s :
  ((get_farthest_distance v s t).2 = t
   ∧ (get_kth_ancestor u k t).2 = t
   ∧ (is_ancestor u v t).2 = t)
  ∧ (get_farthest_distance v s (get_farthest_distance v s t).2
       = get_farthest_distance v s t
     ∧ get_kth_ancestor u k (get_kth_ancestor u k t).2
       = get_kth_ancestor u k t
     ∧ is_ancestor u v (is_ancestor u v t).2 = is_ancestor u v t).
Proof.
  split; split_and!.
  - apply readonly_get_farthest_distance.
  - apply readonly_get_kth_ancestor.
  - apply readonly_is_ancestor.
  - apply readonly_repeat, readonly_get_farthest_distance.
  - apply readonly_repeat, readonly_get_kth_ancestor.
  - apply readonly_repeat, readonly_is_ancestor.
Qed.

(** C10.  On every Tree that building and preprocessing can produce, so in
    particular on every preprocessed tree, and for all inputs (v, stamina),
    [get_farthest_distance] has the same outcome as the function obtained
    by deleting its first binary-lifting loop. *)
Theorem C10_first_loop_is_dead n0 edge_list fuel v s :
  let t := (preprocess fuel (build n0 edge_list)).2 in
  get_farthest_distance v s t = get_farthest_distance_simplified v s t.
Proof.
  intros t.
  apply (get_farthest_distance_simplify n0
           match (preprocess fuel (build n0 edge_list)).1 with
           | Ok _ => true
           | Raise _ => false
           end).
  apply preprocess_keeps, build_wf.
Qed.

(** * Further properties *)

(** ** Building the adjacency *)

Lemma add_edge_adj u v t w :
  adj (edges (add_edge u v t).2) w
  = adj (edges t) w
    ++ (if decide (u = w) then [v] else [])
    ++ (if decide (v = w) then [u] else []).
Proof.
  unfold add_edge, adj. simpl.
  destruct (decide (v = w)) as [->|Hvw], (decide (u = w)) as [->|Huw];
    rewrite ?lookup_insert_eq, ?lookup_insert_ne by done; simpl;
    rewrite ?lookup_insert_eq, ?lookup_insert_ne by done; simpl;
    by rewrite <- ?app_assoc, ?app_nil_r.
Qed.

Lemma add_edges_adj edge_list t w :
  adj (edges (for_each edge_list (λ e, add_edge e.1 e.2) t).2) w
  = adj (edges t) w ++ neighbours edge_list w.
Proof.
  revert t. induction edge_list as [|[u v] el IH]; intros t.
  - simpl. by rewrite app_nil_r.
  - cbn [for_each]. rewrite (bind_ok _ _ t tt (add_edge u v t).2) by done.
    rewrite IH, add_edge_adj. simpl. by rewrite <- !app_assoc.
Qed.

Lemma build_adj n0 edge_list u :
  adj (edges (build n0 edge_list)) u = neighbours edge_list u.
Proof. unfold build. by rewrite add_edges_adj. Qed.

(** After [Tree(n)] and one [add_edge] per pair, the adjacency list of every
    node holds exactly the other endpoints of its edges, in input order;
    the tables are still all zero and the tree is not preprocessed. *)
Theorem build_adjacency n0 edge_list u :
  adj (edges (build n0 edge_list)) u = neighbours edge_list u
  ∧ depth (build n0 edge_list) = replicate (Z.to_nat (n0 + 1)) 0
  ∧ parent (build n0 edge_list) = replicate (Z.to_nat (n0 + 1)) 0
  ∧ _preprocessed (build n0 edge_list) = false.
Proof.
  split_and!.
  - apply build_adj.
  - by destruct (build_tables n0 edge_list) as (-> & _).
  - by destruct (build_tables n0 edge_list) as (_ & -> & _).
  - by destruct (build_wf n0 edge_list) as (_&_&?&_).
Qed.

(** [add_edge] is symmetric: [v] is listed at [u] as often as [u] at [v]. *)
Theorem build_adjacency_symmetric n0 edge_list u v :
  length (filter (λ w, w = v) (adj (edges (build n0 edge_list)) u))
  = length (filter (λ w, w = u) (adj (edges (build n0 edge_list)) v)).
Proof.
  rewrite !build_adj.
  unfold neighbours. induction edge_list as [|[a b] el IH]; [done|].
  simpl. rewrite !filter_app, !length_app, IH. f_equal. simpl.
  repeat (case_decide; simpl); repeat (rewrite ?filter_cons, ?filter_nil; case_decide; simpl);
    congruence || lia.
Qed.

(** ** Preprocessing on any input *)

(** Whatever the input and the recursion budget, and whether [preprocess]
    returns or raises, the tables keep the sizes [__init__] gave them,
    every id stored in [parent] is an index the tables accept, and
    [_preprocessed] is True exactly when [preprocess] returned. *)
Theorem preprocess_keeps_tables n0 edge_list fuel :
  let out := preprocess fuel (build n0 edge_list) in
  n out.2 = n0
  ∧ LOGN out.2 = Z.max 1 (bit_length n0)
  ∧ length (depth out.2) = Z.to_nat (n0 + 1)
  ∧ length (parent out.2) = Z.to_nat (n0 + 1)
  ∧ length (max_depth_in_subtree out.2) = Z.to_nat (n0 + 1)
  ∧ length (farthest_node out.2) = Z.to_nat (n0 + 1)
  ∧ length (up out.2) = Z.to_nat (n0 + 1)
  ∧ Forall (λ row : list Z, length row = Z.to_nat (LOGN out.2 + 1)) (up out.2)
  ∧ Forall (λ p, is_Some (getitem (parent out.2) p)) (parent out.2)
  ∧ (_preprocessed out.2 = true ↔ out.1 = Ok tt).
Proof.
  intros out.
  pose proof (preprocess_keeps n0 fuel _ (build_wf n0 edge_list)) as Hwf.
  fold out in Hwf.
  destruct Hwf as (Hn & HG & Hflag & Hd & Hm & Hf & [Hp Hpv] & [Hu Hrows]).
  split_and!; try done.
  - rewrite HG. eapply Forall_impl; [exact Hrows|]. by intros row [? _].
  - eapply Forall_impl; [exact Hpv|]. intros p Hvalid.
    apply getitem_is_Some. by rewrite Hp.
  - rewrite Hflag. destruct out.1 as [[]|e]; split; congruence.
Qed.

Lemma preprocess_without_nodes n0 edge_list fuel :
  n0 ≤ 0 →
  preprocess (S fuel) (build n0 edge_list)
  = (Raise IndexError, build n0 edge_list).
Proof.
  intros Hn0. unfold preprocess. apply bind_raise. cbn [_dfs].
  apply bind_raise. unfold store.
  destruct (setitem (parent (build n0 edge_list)) 1 0) as [l|] eqn:El; [|done].
  assert (is_Some (setitem (parent (build n0 edge_list)) 1 0)) as Hs
    by (by eexists).
  apply setitem_is_Some in Hs.
  destruct (build_wf n0 edge_list) as (_&_&_&_&_&_&[Hlen _]&_).
  rewrite Hlen in Hs. lia.
Qed.

(** With no node at all (n <= 0) the first write of [_dfs], [parent[1] = 0],
    is out of range: [preprocess] raises IndexError and changes nothing. *)
Theorem preprocess_no_nodes n0 edge_list fuel :
  n0 ≤ 0 →
  preprocess (S fuel) (build n0 edge_list)
  = (Raise IndexError, build n0 edge_list).
Proof. apply preprocess_without_nodes. Qed.

Lemma preprocess_no_nodes_witness :
  preprocess 1 (build 0 []) = (Raise IndexError, build 0 []).
Proof. apply (preprocess_no_nodes 0 [] 0). lia. Defined.

(** ** Ancestors and distances on a preprocessed valid tree *)

Section Closed.
Variables (n0 : Z) (t : Tree).
Hypothesis HInv : Inv n0 t.
Let G := LOGN t.

Lemma anc_at_depth v :
  1 ≤ v ≤ n0 → anc t (Z.to_nat (at_ (depth t) v)) v = 1.
Proof.
  intros Hv. pose proof (depth_range n0 t HInv v Hv).
  pose proof (anc_exists n0 t HInv (Z.to_nat (at_ (depth t) v)) v Hv
                ltac:(lia)) as Hr.
  pose proof (anc_depth n0 t HInv (Z.to_nat (at_ (depth t) v)) v Hv
                ltac:(lia)) as Hd.
  apply (depth_0_root n0 t HInv); [done|lia].
Qed.

(** Above the root there is only the sentinel. *)
Lemma anc_beyond (j : nat) v :
  1 ≤ v ≤ n0 → at_ (depth t) v < Z.of_nat j → anc t j v = 0.
Proof.
  intros Hv Hj. pose proof (depth_range n0 t HInv v Hv).
  replace j with (Z.to_nat (at_ (depth t) v)
                  + (1 + (j - 1 - Z.to_nat (at_ (depth t) v))))%nat by lia.
  rewrite anc_add, anc_at_depth by done. rewrite anc_add.
  change (anc t 1 1) with (par t 1). rewrite (par_1 n0 t HInv).
  apply (anc_0 n0 t HInv).
Qed.

Lemma anc_zero_iff (j : nat) v :
  1 ≤ v ≤ n0 → anc t j v = 0 ↔ at_ (depth t) v < Z.of_nat j.
Proof.
  intros Hv. split; [|by apply anc_beyond].
  intros Hz. destruct (Z.lt_ge_cases (at_ (depth t) v) (Z.of_nat j)); [done|].
  pose proof (anc_exists n0 t HInv j v Hv ltac:(lia)). lia.
Qed.

Lemma small_step v used :
  1 ≤ v ≤ n0 → 0 ≤ used ≤ at_ (depth t) v + 1 →
  used mod 2 ^ (G + 1) = used.
Proof.
  intros Hv Hu. pose proof (depth_range n0 t HInv v Hv).
  pose proof (Inv_G n0 t HInv) as [HG1 HG2]. fold G in HG1, HG2.
  assert (2 ^ G < 2 ^ (G + 1)) by (apply Z.pow_lt_mono_r; lia).
  apply Z.mod_small. lia.
Qed.

(** While [used] stays within the depth of [v], the second loop of
    [get_farthest_distance] is a running maximum of descents. *)
Lemma climb_loop_fold l v md :
  1 ≤ v ≤ n0 → Forall (λ used, 1 ≤ used ≤ at_ (depth t) v) l →
  climb_loop l v md t
  = (Ok (foldl (λ acc used, Z.max acc (descent t (anc t (Z.to_nat used) v)))
               md l), t).
Proof.
  intros Hv Hl. revert md. induction Hl as [|used l Hu _ IH]; intros md.
  - done.
  - rewrite (climb_loop_cons n0 t HInv) by done. fold G.
    rewrite (small_step v used) by (done || lia).
    pose proof (anc_exists n0 t HInv (Z.to_nat used) v Hv ltac:(lia)) as Hr.
    destruct (Z.eqb_spec (anc t (Z.to_nat used) v) 0) as [|_]; [lia|].
    cbv zeta. rewrite IH. cbn [foldl].
    pose proof (candidate_distance n0 t HInv v (Z.to_nat used) Hv ltac:(lia))
      as Hc.
    rewrite Z2Nat.id in Hc by lia. rewrite Hc. fold (descent t (anc t (Z.to_nat used) v)).
    replace (if descent t (anc t (Z.to_nat used) v) >? md
             then descent t (anc t (Z.to_nat used) v) else md)
      with (Z.max md (descent t (anc t (Z.to_nat used) v))); [done|].
    destruct (Z.gtb_spec (descent t (anc t (Z.to_nat used) v)) md); lia.
Qed.

(** The loop stops at the first [used] that leads past the root. *)
Lemma climb_loop_break l1 used l2 v md :
  1 ≤ v ≤ n0 → anc t (Z.to_nat (used mod 2 ^ (G + 1))) v = 0 →
  climb_loop (l1 ++ used :: l2) v md t = climb_loop l1 v md t.
Proof.
  intros Hv Hz. revert md. induction l1 as [|u1 l1 IH]; intros md.
  - simpl app. rewrite (climb_loop_cons n0 t HInv) by done. fold G.
    by rewrite Hz.
  - rewrite <- app_comm_cons. rewrite !(climb_loop_cons n0 t HInv) by done.
    destruct (_ =? 0); [done|]. apply IH.
Qed.

Lemma get_farthest_distance_closed v s :
  1 ≤ v ≤ n0 →
  get_farthest_distance v s t
  = (Ok (best_descent t v (Z.min s (at_ (depth t) v))), t).
Proof.
  intros Hv. pose proof (depth_range n0 t HInv v Hv) as Hd.
  rewrite (get_farthest_distance_climb n0 t HInv) by done.
  unfold best_descent. fold (descent t v).
  destruct (Z.le_gt_cases s (at_ (depth t) v)) as [Hle|Hgt].
  - rewrite Z.min_l by done. apply climb_loop_fold; [done|].
    apply Forall_forall. intros used. unfold range.
    rewrite elem_of_seqZ. lia.
  - rewrite Z.min_r by lia.
    assert (range 1 (s + 1)
            = range 1 (at_ (depth t) v + 1)
              ++ (at_ (depth t) v + 1)
                 :: range (at_ (depth t) v + 2) (s + 1)) as ->.
    { unfold range.
      replace (s + 1 - 1)
        with ((at_ (depth t) v + 1 - 1) + (s - at_ (depth t) v)) by lia.
      rewrite seqZ_app by lia. f_equal.
      rewrite seqZ_cons by lia. f_equal; [lia|]. f_equal; lia. }
    rewrite climb_loop_break; [| done |].
    + apply climb_loop_fold; [done|].
      apply Forall_forall. intros used. unfold range.
      rewrite elem_of_seqZ. lia.
    + rewrite (small_step v) by (done || lia). apply anc_beyond; [done|lia].
Qed.
End Closed.

(** On every valid preprocessed tree the lifting table holds the 2^k-th
    ancestors: [up[v][0]] is [parent[v]], [up[v][k]] is [up[up[v][k-1]][k-1]],
    and so [up[v][k]] is [v] moved 2^k times to its parent, 0 once that
    passes the root. *)
Theorem lifting_table_ancestors n0 edge_list T fuel :
  valid_tree n0 edge_list T → (height T ≤ fuel)%nat →
  ∃ t, preprocess fuel (build n0 edge_list) = (Ok tt, t)
       ∧ (∀ v, 1 ≤ v ≤ n0 → up_at t v 0 = at_ (parent t) v)
       ∧ (∀ v k, 1 ≤ v ≤ n0 → 1 ≤ k ≤ LOGN t →
            up_at t v k = up_at t (up_at t v (k - 1)) (k - 1))
       ∧ (∀ v k, 0 ≤ v ≤ n0 → 0 ≤ k ≤ LOGN t →
            load_up v k t = (Ok (anc t (Z.to_nat (2 ^ k)) v), t)).
Proof.
  intros Hval Hfuel.
  destruct (preprocess_valid n0 edge_list T fuel Hval Hfuel) as (t & Hpre & HInv).
  exists t. split; [done|].
  pose proof HInv as (_ & _ & (_ & _ & _ & H0 & Hk) & _).
  split_and!; [done..|]. intros v k Hv Hk'.
  rewrite <- (up_anc n0 t HInv) by done.
  apply (load_up_ok n0 (LOGN t) (Inv_n0 n0 t HInv) (proj1 (Inv_G n0 t HInv)));
    [apply (Inv_up_dims n0 t HInv)|done..].
Qed.

Lemma lifting_table_ancestors_witness :
  ∃ t, preprocess 5 (build 5 path5) = (Ok tt, t)
       ∧ (∀ v, 1 ≤ v ≤ 5 → up_at t v 0 = at_ (parent t) v)
       ∧ (∀ v k, 1 ≤ v ≤ 5 → 1 ≤ k ≤ LOGN t →
            up_at t v k = up_at t (up_at t v (k - 1)) (k - 1))
       ∧ (∀ v k, 0 ≤ v ≤ 5 → 0 ≤ k ≤ LOGN t →
            load_up v k t = (Ok (anc t (Z.to_nat (2 ^ k)) v), t)).
Proof.
  apply (lifting_table_ancestors 5 path5 path5_tree 5);
    [compute_done | simpl; lia].
Defined.

(** On every valid preprocessed tree, for a node v in [1, n] and any integer
    k, [get_kth_ancestor(v, k)] returns [v] moved (k mod 2^(LOGN+1)) times
    to its parent; for 0 <= k < 2^(LOGN+1) it returns the sentinel 0
    exactly when k exceeds the depth of v. *)
Theorem kth_ancestor_result n0 edge_list T fuel :
  valid_tree n0 edge_list T → (height T ≤ fuel)%nat →
  ∃ t, preprocess fuel (build n0 edge_list) = (Ok tt, t)
       ∧ ∀ v k, 1 ≤ v ≤ n0 →
           get_kth_ancestor v k t
           = (Ok (anc t (Z.to_nat (k mod 2 ^ (LOGN t + 1))) v), t)
           ∧ (0 ≤ k < 2 ^ (LOGN t + 1) →
              (get_kth_ancestor v k t = (Ok 0, t) ↔ at_ (depth t) v < k)).
Proof.
  intros Hval Hfuel.
  destruct (preprocess_valid n0 edge_list T fuel Hval Hfuel) as (t & Hpre & HInv).
  exists t. split; [done|]. intros v k Hv.
  rewrite (get_kth_ancestor_spec n0 t HInv) by lia. split; [done|].
  intros Hk. rewrite Z.mod_small by done.
  pose proof (anc_zero_iff n0 t HInv (Z.to_nat k) v Hv) as Hiff.
  rewrite Z2Nat.id in Hiff by lia. rewrite <- Hiff.
  split; [by intros [= ->]|by intros ->].
Qed.

Lemma kth_ancestor_result_witness :
  ∃ t, preprocess 5 (build 5 path5) = (Ok tt, t)
       ∧ ∀ v k, 1 ≤ v ≤ 5 →
           get_kth_ancestor v k t
           = (Ok (anc t (Z.to_nat (k mod 2 ^ (LOGN t + 1))) v), t)
           ∧ (0 ≤ k < 2 ^ (LOGN t + 1) →
              (get_kth_ancestor v k t = (Ok 0, t) ↔ at_ (depth t) v < k)).
Proof.
  apply (kth_ancestor_result 5 path5 path5_tree 5);
    [compute_done | simpl; lia].
Defined.

(** On every valid preprocessed tree and for nodes u, v in [1, n],
    [is_ancestor(u, v)] returns True exactly when u is reached from v by
    moving to the parent some number of times (zero included), and False
    otherwise. *)
Theorem is_ancestor_correct n0 edge_list T fuel :
  valid_tree n0 edge_list T → (height T ≤ fuel)%nat →
  ∃ t, preprocess fuel (build n0 edge_list) = (Ok tt, t)
       ∧ ∀ u v, 1 ≤ u ≤ n0 → 1 ≤ v ≤ n0 →
           ∃ b, is_ancestor u v t = (Ok b, t)
                ∧ (b = true ↔ ∃ j, anc t j v = u).
Proof.
  intros Hval Hfuel.
  destruct (preprocess_valid n0 edge_list T fuel Hval Hfuel) as (t & Hpre & HInv).
  exists t. split; [done|]. intros u v Hu Hv.
  destruct (Z.lt_ge_cases (at_ (depth t) v) (at_ (depth t) u)) as [Hlt|Hge].
  - exists false. split.
    + unfold is_ancestor.
      pose proof (load_depth_ok n0 t HInv u Hu) as Hdu.
      pose proof (load_depth_ok n0 t HInv v Hv) as Hdv.
      step Hdv. step Hdu.
      by destruct (Z.ltb_spec (at_ (depth t) v) (at_ (depth t) u)); [|lia].
    + split; [done|]. intros [j Hj].
      pose proof (anc_depth n0 t HInv j v Hv ltac:(lia)) as Hd.
      rewrite Hj in Hd. lia.
  - eexists. split; [by apply (is_ancestor_spec n0 t HInv)|].
    rewrite Z.eqb_eq. split; [by eexists|]. intros [j Hj].
    pose proof (anc_depth n0 t HInv j v Hv ltac:(lia)) as Hd.
    rewrite Hj in Hd.
    replace (Z.to_nat (at_ (depth t) v - at_ (depth t) u)) with j by lia.
    done.
Qed.

Lemma is_ancestor_correct_witness :
  ∃ t, preprocess 2 (build 4 star4) = (Ok tt, t)
       ∧ ∀ u v, 1 ≤ u ≤ 4 → 1 ≤ v ≤ 4 →
           ∃ b, is_ancestor u v t = (Ok b, t)
                ∧ (b = true ↔ ∃ j, anc t j v = u).
Proof.
  apply (is_ancestor_correct 4 star4 star4_tree 2);
    [compute_done | simpl; lia].
Defined.

(** On every valid preprocessed tree, for a node v in [1, n] and any integer
    stamina, [get_farthest_distance] returns the largest value of
    [max_depth_in_subtree[a] - depth[a]] over a = v and the ancestors of v
    up to the min(stamina, depth[v])-th: the break at the first missing
    ancestor and the range of the loop cut the search there. *)
Theorem farthest_distance_closed_form n0 edge_list T fuel :
  valid_tree n0 edge_list T → (height T ≤ fuel)%nat →
  ∃ t, preprocess fuel (build n0 edge_list) = (Ok tt, t)
       ∧ ∀ v s, 1 ≤ v ≤ n0 →
           get_farthest_distance v s t
           = (Ok (best_descent t v (Z.min s (at_ (depth t) v))), t).
Proof.
  intros Hval Hfuel.
  destruct (preprocess_valid n0 edge_list T fuel Hval Hfuel) as (t & Hpre & HInv).
  exists t. split; [done|]. intros v s Hv.
  by apply (get_farthest_distance_closed n0 t HInv).
Qed.

Lemma farthest_distance_closed_form_witness :
  ∃ t, preprocess 5 (build 5 path5) = (Ok tt, t)
       ∧ ∀ v s, 1 ≤ v ≤ 5 →
           get_farthest_distance v s t
           = (Ok (best_descent t v (Z.min s (at_ (depth t) v))), t).
Proof.
  apply (farthest_distance_closed_form 5 path5 path5_tree 5);
    [compute_done | simpl; lia].
Defined.

(** On every valid preprocessed tree, stamina beyond the depth of v changes
    nothing, a stamina of 0 or less gives the baseline, and at the root
    every stamina gives the same answer. *)
Theorem farthest_distance_saturates n0 edge_list T fuel :
  valid_tree n0 edge_list T → (height T ≤ fuel)%nat →
  ∃ t, preprocess fuel (build n0 edge_list) = (Ok tt, t)
       ∧ (∀ v s, 1 ≤ v ≤ n0 → at_ (depth t) v ≤ s →
            get_farthest_distance v s t
            = get_farthest_distance v (at_ (depth t) v) t)
       ∧ (∀ v s, 1 ≤ v ≤ n0 → s ≤ 0 →
            get_farthest_distance v s t = get_farthest_distance v 0 t)
       ∧ (∀ s, get_farthest_distance 1 s t = get_farthest_distance 1 0 t).
Proof.
  intros Hval Hfuel.
  destruct (preprocess_valid n0 edge_list T fuel Hval Hfuel) as (t & Hpre & HInv).
  exists t. split; [done|].
  assert (∀ v s, 1 ≤ v ≤ n0 → s ≤ 0 →
            get_farthest_distance v s t = get_farthest_distance v 0 t) as Hneg.
  { intros v s Hv Hs. pose proof (depth_range n0 t HInv v Hv).
    rewrite !(get_farthest_distance_closed n0 t HInv) by done.
    unfold best_descent, range. rewrite !Z.min_l by lia.
    replace (0 + 1 - 1) with 0 by lia.
    by rewrite (seqZ_nil 1 (s + 1 - 1)) by lia. }
  assert (∀ v s, 1 ≤ v ≤ n0 → at_ (depth t) v ≤ s →
            get_farthest_distance v s t
            = get_farthest_distance v (at_ (depth t) v) t) as Hsat.
  { intros v s Hv Hs.
    rewrite !(get_farthest_distance_closed n0 t HInv) by done.
    by rewrite Z.min_r, Z.min_id by done. }
  split_and!; [done..|]. intros s. pose proof (Inv_n0 n0 t HInv).
  destruct (Z.le_gt_cases s 0); [apply Hneg; lia|].
  rewrite (Hsat 1 s) by (rewrite ?(depth_1 n0 t HInv); lia).
  by rewrite (depth_1 n0 t HInv).
Qed.

Lemma farthest_distance_saturates_witness :
  ∃ t, preprocess 5 (build 5 path5) = (Ok tt, t)
       ∧ (∀ v s, 1 ≤ v ≤ 5 → at_ (depth t) v ≤ s →
            get_farthest_distance v s t
            = get_farthest_distance v (at_ (depth t) v) t)
       ∧ (∀ v s, 1 ≤ v ≤ 5 → s ≤ 0 →
            get_farthest_distance v s t = get_farthest_distance v 0 t)
       ∧ (∀ s, get_farthest_distance 1 s t = get_farthest_distance 1 0 t).
Proof.
  apply (farthest_distance_saturates 5 path5 path5_tree 5);
    [compute_done | simpl; lia].
Defined.

(** ** What the two traversals record, node by node *)

Lemma rtree_ind' (P : rtree → Prop) :
  (∀ u cs, Forall P cs → P (Node u cs)) → ∀ T, P T.
Proof.
  intros H. fix IH 1. intros [u cs]. apply H.
  induction cs as [|c cs IHcs]; constructor; [apply IH | exact IHcs].
Qed.

Lemma in_concat_map {A B} (f : A → list B) (l : list A) (x : B) :
  x ∈ concat (map f l) ↔ ∃ y, y ∈ l ∧ x ∈ f y.
Proof.
  induction l as [|y l IH]; simpl.
  - split; [by intros ?%elem_of_nil | by intros (y & ?%elem_of_nil & _)].
  - rewrite elem_of_app, IH. split.
    + intros [Hx|(z & Hz & Hx)]; [exists y; split; [left|done]|].
      exists z. split; [by right|done].
    + intros (z & [->|Hz]%elem_of_cons & Hx); [by left|]. right. by exists z.
Qed.

Lemma subtree_ids T S w : S ∈ subtrees T → w ∈ ids S → w ∈ ids T.
Proof.
  revert S w. induction T as [u cs IH] using rtree_ind'. intros S w.
  cbn [subtrees ids]. intros [->|HS]%elem_of_cons Hw; [done|].
  right. apply in_concat_map in HS as (c & Hc & HS).
  apply in_concat_map. exists c. split; [done|].
  rewrite Forall_forall in IH. by apply (IH c Hc S).
Qed.

Lemma subtree_root T S : S ∈ subtrees T → root S ∈ ids T.
Proof. intros HS. apply (subtree_ids T S); [done|apply root_in_ids]. Qed.

Lemma kid_root_in_ids S c : c ∈ kids S → root c ∈ ids S.
Proof.
  destruct S as [u cs]. simpl. intros Hc. right.
  apply in_concat_map. exists c. split; [done|apply root_in_ids].
Qed.

Lemma subtree_self T : T ∈ subtrees T.
Proof. destruct T. simpl. left. Qed.

Lemma linked_ext par dep par' dep' S :
  (∀ w, w ∈ ids S → at_ par' w = at_ par w ∧ at_ dep' w = at_ dep w) →
  linked par dep S → linked par' dep' S.
Proof.
  intros Hext Hl c Hc. destruct (Hl c Hc) as [Hp Hd].
  destruct (Hext (root c) (kid_root_in_ids S c Hc)) as [-> ->].
  destruct (Hext (root S) (root_in_ids S)) as [_ ->]. done.
Qed.

Lemma deepest_ok_ext dep mds far mds' far' S :
  at_ mds' (root S) = at_ mds (root S) →
  at_ far' (root S) = at_ far (root S) →
  deepest_ok dep mds far S → deepest_ok dep mds' far' S.
Proof. unfold deepest_ok. by intros -> ->. Qed.

Lemma bind_ok_inv {A B} (m : M A) (k : A → M B) t b t' :
  bind m k t = (Ok b, t') →
  ∃ a t1, m t = (Ok a, t1) ∧ k a t1 = (Ok b, t').
Proof.
  unfold bind. destruct (m t) as [[a|e] t1]; [|done]. intros H.
  by exists a, t1.
Qed.

(** Run the first method of a sequence inside a hypothesis. *)
Ltac step_in H0 H :=
  rewrite ?bind_bind in H0; rewrite (bind_ok _ _ _ _ _ H) in H0;
  cbv beta in H0.

Section DfsLinks.
Variables (n0 : Z) (a : Z → list Z).
Let L := Z.to_nat (n0 + 1).

Local Abbreviation dfs_body fuel u p :=
  (λ v, if bool_decide (v ≠ p) then
          du <- load depth u ;;
          store depth with_depth v (du + 1) ;;
          _dfs fuel v u
        else ret tt).

Lemma dfs_loop_links fuel u p :
  (∀ T q t t',
     (height T ≤ fuel)%nat → shape a q T = true → NoDup (ids T) →
     Forall (λ v, 1 ≤ v ≤ n0) (ids T) →
     (∀ w, adj (edges t) w = a w) →
     length (parent t) = L → length (depth t) = L →
     _dfs fuel (root T) q t = (Ok tt, t') →
     ∀ S, S ∈ subtrees T → linked (parent t') (depth t') S) →
  ∀ vs cs t t',
    filter (λ v, v ≠ p) vs = map root cs →
    Forall (λ c, (height c ≤ fuel)%nat ∧ shape a u c = true) cs →
    NoDup (u :: concat (map ids cs)) →
    Forall (λ v, 1 ≤ v ≤ n0) (u :: concat (map ids cs)) →
    (∀ w, adj (edges t) w = a w) →
    length (parent t) = L → length (depth t) = L →
    for_each vs (dfs_body fuel u p) t = (Ok tt, t') →
    ∀ c S, c ∈ cs → S ∈ subtrees c → linked (parent t') (depth t') S.
Proof.
  intros IH vs. induction vs as [|v vs IHvs];
    intros cs t t' Hf Hcs Hnd Hrg Ha Hlp Hld Hrun c0 S Hc0 HS.
  - destruct cs; [|done]. by apply elem_of_nil in Hc0.
  - rewrite filter_cons in Hf. cbn [for_each] in Hrun.
    destruct (decide (v ≠ p)) as [Hvp|Hvp].
    2: { rewrite bool_decide_false in Hrun by done.
         rewrite (bind_ok _ _ t tt t) in Hrun by done.
         by apply (IHvs cs t t' Hf Hcs Hnd Hrg Ha Hlp Hld Hrun c0 S). }
    rewrite bool_decide_true in Hrun by done.
    destruct cs as [|c cs]; [done|]. simpl in Hf. injection Hf as Hv Hf.
    simpl in Hnd, Hrg.
    apply Forall_cons in Hcs as [[Hhc Hsc] Hcs].
    apply NoDup_cons in Hnd as [Hu Hnd].
    apply NoDup_app in Hnd as (Hndc & Hdisj & Hndcs).
    apply Forall_cons in Hrg as [Hur Hrg]. apply Forall_app in Hrg as [Hrc Hrcs].
    assert (∀ w, w ∈ ids c → 1 ≤ w ≤ n0) as Hrc' by (by apply Forall_forall).
    assert (1 ≤ v ≤ n0) as Hvr.
    { apply Hrc'. rewrite Hv. apply root_in_ids. }
    assert (u ∉ concat (map ids cs)) as Hu'.
    { intros Hin. apply Hu. apply elem_of_app. by right. }
    assert (load depth u t = (Ok (at_ (depth t) u), t)) as Hload.
    { apply load_ok. rewrite Hld. unfold L. lia. }
    step_in Hrun Hload.
    destruct (store_ok depth with_depth v (at_ (depth t) u + 1) t)
      as (l1 & Hl1 & Hst).
    { rewrite Hld. unfold L. lia. }
    step_in Hrun Hst. set (t1 := with_depth l1 t) in *.
    assert (length (depth t1) = L) as Hld1.
    { simpl. by rewrite (setitem_length _ _ _ _ Hl1). }
    destruct (dfs_valid n0 a fuel c u t1) as (t2 & Hdfs & Hpost); try done.
    rewrite <- Hv in Hdfs. step_in Hrun Hdfs. rewrite Hv in Hdfs.
    pose proof (IH c u t1 t2 Hhc Hsc Hndc Hrc Ha Hlp Hld1 Hdfs) as Hlinks.
    destruct Hpost as (Ha2 & Hlp2 & Hld2 & _).
    assert (length (parent t2) = L) as Hlp2' by (by rewrite Hlp2).
    assert (length (depth t2) = L) as Hld2' by (by rewrite Hld2).
    assert (NoDup (u :: concat (map ids cs))) as Hnd' by (by apply NoDup_cons).
    assert (Forall (λ v, 1 ≤ v ≤ n0) (u :: concat (map ids cs))) as Hrg'
      by (by apply Forall_cons).
    apply elem_of_cons in Hc0 as [->|Hc0].
    + destruct (dfs_loop_valid n0 a fuel u p (dfs_valid n0 a fuel) vs cs t2
                  Hf Hcs Hnd' Hrg' Ha2 Hlp2' Hld2') as (t3 & Hloop & Hpost3).
      rewrite Hloop in Hrun. injection Hrun as <-.
      destruct Hpost3 as (_ & _ & _ & Hfp3 & Hfd3 & _).
      apply (linked_ext (parent t2) (depth t2)); [|by apply Hlinks].
      intros w Hw. pose proof (subtree_ids c S w HS Hw) as Hwc.
      pose proof (Hrc' w Hwc).
      split; [apply Hfp3|apply Hfd3]; (lia || by apply Hdisj).
    + by apply (IHvs cs t2 t' Hf Hcs Hnd' Hrg' Ha2 Hlp2' Hld2' Hrun c0 S).
Qed.

Lemma dfs_links fuel T q t t' :
  (height T ≤ fuel)%nat → shape a q T = true → NoDup (ids T) →
  Forall (λ v, 1 ≤ v ≤ n0) (ids T) →
  (∀ w, adj (edges t) w = a w) →
  length (parent t) = L → length (depth t) = L →
  _dfs fuel (root T) q t = (Ok tt, t') →
  ∀ S, S ∈ subtrees T → linked (parent t') (depth t') S.
Proof.
  revert T q t t'. induction fuel as [|fuel IH];
    intros [u cs] q t t' Hh Hs Hnd Hrg Ha Hlp Hld Hrun S HS.
  { simpl in Hh. lia. }
  cbn [root ids height shape subtrees] in *.
  apply andb_prop in Hs as [Hf%bool_decide_eq_true Hs].
  assert (1 ≤ u ≤ n0) as Hur by (by apply Forall_cons in Hrg as [? _]).
  assert (u ∉ concat (map ids cs)) as Hu by (by apply NoDup_cons in Hnd as [? _]).
  cbn [_dfs] in Hrun.
  destruct (store_ok parent with_parent u q t) as (l1 & Hl1 & Hst).
  { rewrite Hlp. unfold L. lia. }
  step_in Hrun Hst. set (t1 := with_parent l1 t) in *.
  destruct (edges_at_adj u t1) as (t2 & He & Ha2 & Hp2 & Hd2 & _).
  step_in Hrun He. rewrite Ha in Hrun.
  assert (Forall (λ c, (height c ≤ fuel)%nat ∧ shape a u c = true) cs) as Hcs.
  { apply Forall_forall. intros c Hc. split.
    - pose proof (height_kid c cs Hc). lia.
    - rewrite forallb_forall in Hs. apply Hs. by apply list_elem_of_In. }
  assert (∀ w, adj (edges t2) w = a w) as Ha2' by (intros w; by rewrite Ha2).
  assert (length (parent t2) = L) as Hlp2.
  { rewrite Hp2. simpl. by rewrite (setitem_length _ _ _ _ Hl1). }
  assert (length (depth t2) = L) as Hld2 by (by rewrite Hd2).
  apply elem_of_cons in HS as [->|HS].
  - destruct (dfs_loop_valid n0 a fuel u q (dfs_valid n0 a fuel) (a u) cs t2
                Hf Hcs Hnd Hrg Ha2' Hlp2 Hld2) as (t3 & Hloop & Hpost).
    rewrite Hloop in Hrun. injection Hrun as <-.
    destruct Hpost as (_ & _ & _ & _ & Hfd3 & Hrt3 & _).
    intros c Hc. simpl in Hc. cbn [root].
    destruct (Hrt3 (root c)) as [Hp Hd].
    { apply list_elem_of_fmap. by exists c. }
    split; [done|]. rewrite Hd. rewrite Hfd3 by (done || lia). done.
  - apply in_concat_map in HS as (c & Hc & HS).
    by apply (dfs_loop_links fuel u q IH (a u) cs t2 t' Hf Hcs Hnd Hrg Ha2'
                Hlp2 Hld2 Hrun c S).
Qed.
End DfsLinks.

Section CfExact.
Variables (n0 : Z) (a : Z → list Z).
Let L := Z.to_nat (n0 + 1).

Local Abbreviation cf_body fuel u p :=
  (λ v, if bool_decide (v ≠ p) then
          _compute_farthest fuel v u ;;
          mv <- load max_depth_in_subtree v ;;
          mu <- load max_depth_in_subtree u ;;
          if mv >? mu then
            mv' <- load max_depth_in_subtree v ;;
            store max_depth_in_subtree with_max_depth_in_subtree u mv' ;;
            fv <- load farthest_node v ;;
            store farthest_node with_farthest_node u fv
          else ret tt
        else ret tt).

Lemma cf_loop_exact fuel u p :
  (∀ T q t t',
     (height T ≤ fuel)%nat → shape a q T = true → NoDup (ids T) →
     Forall (λ v, 1 ≤ v ≤ n0) (ids T) →
     (∀ w, adj (edges t) w = a w) →
     length (depth t) = L → length (max_depth_in_subtree t) = L →
     length (farthest_node t) = L →
     _compute_farthest fuel (root T) q t = (Ok tt, t') →
     untouched (ids T) (farthest_node t) (farthest_node t')
     ∧ length (farthest_node t') = L
     ∧ ∀ S, S ∈ subtrees T →
         deepest_ok (depth t) (max_depth_in_subtree t') (farthest_node t') S) →
  ∀ vs cs t t',
    filter (λ v, v ≠ p) vs = map root cs →
    Forall (λ c, (height c ≤ fuel)%nat ∧ shape a u c = true) cs →
    NoDup (u :: concat (map ids cs)) →
    Forall (λ v, 1 ≤ v ≤ n0) (u :: concat (map ids cs)) →
    (∀ w, adj (edges t) w = a w) →
    length (depth t) = L → length (max_depth_in_subtree t) = L →
    length (farthest_node t) = L →
    at_ (depth t) u ≤ at_ (max_depth_in_subtree t) u →
    for_each vs (cf_body fuel u p) t = (Ok tt, t') →
    untouched (u :: concat (map ids cs)) (farthest_node t) (farthest_node t')
    ∧ length (farthest_node t') = L
    ∧ (∀ w, w ∈ concat (map ids cs) →
         at_ (depth t) w ≤ at_ (max_depth_in_subtree t') u)
    ∧ ((at_ (max_depth_in_subtree t') u = at_ (max_depth_in_subtree t) u
        ∧ at_ (farthest_node t') u = at_ (farthest_node t) u)
       ∨ (at_ (max_depth_in_subtree t) u < at_ (max_depth_in_subtree t') u
          ∧ at_ (farthest_node t') u ∈ concat (map ids cs)
          ∧ at_ (depth t) (at_ (farthest_node t') u)
            = at_ (max_depth_in_subtree t') u))
    ∧ (∀ c S, c ∈ cs → S ∈ subtrees c →
         deepest_ok (depth t) (max_depth_in_subtree t') (farthest_node t') S).
Proof.
  intros IH vs. induction vs as [|v vs IHvs];
    intros cs t t' Hf Hcs Hnd Hrg Ha Hld Hlm Hlf Hu0 Hrun.
  - destruct cs; [|done]. injection Hrun as <-. simpl. split_and!; try done.
    + intros w ?%elem_of_nil. done.
    + by left.
    + intros c S ?%elem_of_nil. done.
  - rewrite filter_cons in Hf. cbn [for_each] in Hrun.
    destruct (decide (v ≠ p)) as [Hvp|Hvp].
    2: { rewrite bool_decide_false in Hrun by done.
         rewrite (bind_ok _ _ t tt t) in Hrun by done.
         by apply (IHvs cs t t'). }
    rewrite bool_decide_true in Hrun by done.
    destruct cs as [|c cs]; [done|]. simpl in Hf. injection Hf as Hv Hf.
    simpl in Hnd, Hrg.
    apply Forall_cons in Hcs as [[Hhc Hsc] Hcs].
    apply NoDup_cons in Hnd as [Hu Hnd].
    apply NoDup_app in Hnd as (Hndc & Hdisj & Hndcs).
    apply Forall_cons in Hrg as [Hur Hrg]. apply Forall_app in Hrg as [Hrc Hrcs].
    assert (v ∈ ids c) as Hvc by (rewrite Hv; apply root_in_ids).
    assert (∀ w, w ∈ ids c → 1 ≤ w ≤ n0) as Hrc' by (by apply Forall_forall).
    assert (1 ≤ v ≤ n0) as Hvr by (by apply Hrc').
    assert (u ∉ ids c) as Huc.
    { intros Hin. apply Hu. apply elem_of_app. by left. }
    assert (u ∉ concat (map ids cs)) as Hucs.
    { intros Hin. apply Hu. apply elem_of_app. by right. }
    assert (u ≠ v) as Huv by (by intros ->).
    (* the recursive call *)
    destruct (compute_farthest_valid n0 a fuel c u t) as (t1 & Hrec & Hpost1);
      try done.
    destruct (IH c u t t1 Hhc Hsc Hndc Hrc Ha Hld Hlm Hlf Hrec)
      as (Hff1 & Hlf1 & Hok1).
    rewrite <- Hv in Hrec. step_in Hrun Hrec.
    destruct Hpost1 as (Ha1 & Hd1 & Hlm1 & _ & Hfm1 & Hge1).
    assert (load max_depth_in_subtree v t1
            = (Ok (at_ (max_depth_in_subtree t1) v), t1)) as Hmv.
    { apply load_ok. rewrite Hlm1, Hlm. unfold L. lia. }
    assert (load max_depth_in_subtree u t1
            = (Ok (at_ (max_depth_in_subtree t1) u), t1)) as Hmu.
    { apply load_ok. rewrite Hlm1, Hlm. unfold L. lia. }
    step_in Hrun Hmv. step_in Hrun Hmu.
    assert (at_ (max_depth_in_subtree t1) u = at_ (max_depth_in_subtree t) u)
      as Hmu1 by (apply Hfm1; [lia|done]).
    assert (at_ (farthest_node t1) u = at_ (farthest_node t) u)
      as Hfu1 by (apply Hff1; [lia|done]).
    (* what the subtree of [c] has recorded at its root *)
    destruct (Hok1 c (subtree_self c)) as (Hcb & Hcf & Hcd & _).
    rewrite <- Hv in Hcb, Hcf, Hcd.
    (* the update of the running maximum *)
    assert (∃ t2, (if at_ (max_depth_in_subtree t1) v
                        >? at_ (max_depth_in_subtree t1) u
                   then
                     mv' <- load max_depth_in_subtree v ;;
                     store max_depth_in_subtree with_max_depth_in_subtree u mv' ;;
                     fv <- load farthest_node v ;;
                     store farthest_node with_farthest_node u fv
                   else ret tt) t1 = (Ok tt, t2)
                 ∧ (∀ w, adj (edges t2) w = a w)
                 ∧ depth t2 = depth t1
                 ∧ length (max_depth_in_subtree t2) = L
                 ∧ length (farthest_node t2) = L
                 ∧ (∀ w, 0 ≤ w → w ≠ u →
                      at_ (max_depth_in_subtree t2) w
                      = at_ (max_depth_in_subtree t1) w
                      ∧ at_ (farthest_node t2) w = at_ (farthest_node t1) w)
                 ∧ ((at_ (max_depth_in_subtree t1) v
                       ≤ at_ (max_depth_in_subtree t1) u
                     ∧ at_ (max_depth_in_subtree t2) u
                       = at_ (max_depth_in_subtree t1) u
                     ∧ at_ (farthest_node t2) u = at_ (farthest_node t1) u)
                    ∨ (at_ (max_depth_in_subtree t1) u
                         < at_ (max_depth_in_subtree t1) v
                       ∧ at_ (max_depth_in_subtree t2) u
                         = at_ (max_depth_in_subtree t1) v
                       ∧ at_ (farthest_node t2) u = at_ (farthest_node t1) v)))
      as (t2 & Hupd & Ha2 & Hd2 & Hlm2 & Hlf2 & Hfr2 & Hcase2).
    { destruct (Z.gtb_spec (at_ (max_depth_in_subtree t1) v)
                           (at_ (max_depth_in_subtree t1) u)) as [Hgt|Hle].
      - step Hmv.
        destruct (store_ok max_depth_in_subtree with_max_depth_in_subtree u
                    (at_ (max_depth_in_subtree t1) v) t1) as (l2 & Hl2 & Hst).
        { rewrite Hlm1, Hlm. unfold L. lia. }
        step Hst.
        assert (load farthest_node v (with_max_depth_in_subtree l2 t1)
                = (Ok (at_ (farthest_node t1) v),
                   with_max_depth_in_subtree l2 t1)) as Hfv.
        { apply (load_ok farthest_node v (with_max_depth_in_subtree l2 t1)).
          simpl. rewrite Hlf1. unfold L. lia. }
        step Hfv.
        destruct (store_ok farthest_node with_farthest_node u
                    (at_ (farthest_node t1) v)
                    (with_max_depth_in_subtree l2 t1)) as (l3 & Hl3 & Hst3).
        { simpl. rewrite Hlf1. unfold L. lia. }
        eexists. split; [exact Hst3|]. simpl. split_and!; try done.
        + rewrite (setitem_length _ _ _ _ Hl2). by rewrite Hlm1.
        + rewrite (setitem_length _ _ _ _ Hl3). simpl. by rewrite Hlf1.
        + intros w Hw Hne.
          split; eapply at_setitem_ne; (done || lia).
        + right. split_and!; [lia| |]; by eapply at_setitem_eq.
      - exists t1. split; [done|]. split_and!; try done.
        + by rewrite Hlm1.
        + left. by split_and!. }
    step_in Hrun Hupd.
    (* the rest of the loop *)
    assert (NoDup (u :: concat (map ids cs))) as Hnd' by (by apply NoDup_cons).
    assert (Forall (λ v, 1 ≤ v ≤ n0) (u :: concat (map ids cs))) as Hrg'
      by (by apply Forall_cons).
    assert (length (depth t2) = L) as Hld2 by (by rewrite Hd2, Hd1).
    assert (at_ (depth t2) u ≤ at_ (max_depth_in_subtree t2) u) as Hu2.
    { rewrite Hd2, Hd1. destruct Hcase2 as [(_ & -> & _)|(? & -> & _)]; lia. }
    destruct (IHvs cs t2 t' Hf Hcs Hnd' Hrg' Ha2 Hld2 Hlm2 Hlf2 Hu2 Hrun)
      as (Hff3 & Hlf3 & Hbd3 & Hcase3 & Hok3).
    destruct (cf_loop_valid n0 a fuel u p (compute_farthest_valid n0 a fuel)
                vs cs t2 Hf Hcs Hnd' Hrg' Ha2 Hld2 Hlm2 Hlf2 Hu2)
      as (t3 & Hloop & Hpost3).
    rewrite Hloop in Hrun. injection Hrun as <-.
    destruct Hpost3 as (_ & _ & _ & _ & Hfm3 & Hge3).
    rewrite Hd2, Hd1 in Hbd3, Hcase3, Hok3.
    assert (at_ (max_depth_in_subtree t2) u ≤ at_ (max_depth_in_subtree t3) u)
      as Hmono3 by (destruct Hcase3 as [(-> & _)|(? & _)]; lia).
    cbn [map concat]. split_and!.
    + intros w Hw Hnin. apply not_elem_of_cons in Hnin as [Hne Hnin].
      apply not_elem_of_app in Hnin as [Hn1 Hn2].
      rewrite Hff3 by (done || by apply not_elem_of_cons).
      destruct (Hfr2 w Hw Hne) as [_ ->]. by apply Hff1.
    + done.
    + intros w [Hw|Hw]%elem_of_app; [|by apply Hbd3].
      specialize (Hcb w Hw).
      destruct Hcase2 as [(? & E & _)|(? & E & _)]; rewrite E in Hmono3; lia.
    + destruct Hcase3 as [(Em & Ef)|(Hlt & Hin & Hdp)].
      * destruct Hcase2 as [(Hle & Em2 & Ef2)|(Hlt2 & Em2 & Ef2)].
        -- left. by rewrite Em, Ef, Em2, Ef2.
        -- right. rewrite Em, Ef, Em2, Ef2. split_and!; [lia| |done].
           apply elem_of_app. by left.
      * right. split_and!; [|apply elem_of_app; by right|done].
        destruct Hcase2 as [(_ & E & _)|(? & E & _)]; rewrite E in Hlt; lia.
    + intros c0 S [->|Hc0]%elem_of_cons HS; [|by apply (Hok3 c0 S)].
      pose proof (subtree_root c S HS) as Hr. pose proof (Hrc' _ Hr).
      assert (root S ≠ u) as Hne by (by intros E; rewrite E in Hr).
      apply (deepest_ok_ext _ (max_depth_in_subtree t1) (farthest_node t1)).
      * rewrite Hfm3; [by apply Hfr2; [lia|]|lia|].
        apply not_elem_of_cons. split; [done|by apply Hdisj].
      * rewrite Hff3; [by apply Hfr2; [lia|]|lia|].
        apply not_elem_of_cons. split; [done|by apply Hdisj].
      * by apply Hok1.
Qed.
End CfExact.

Section CfExactMain.
Variables (n0 : Z) (a : Z → list Z).
Let L := Z.to_nat (n0 + 1).

Lemma cf_exact fuel T q t t' :
  (height T ≤ fuel)%nat → shape a q T = true → NoDup (ids T) →
  Forall (λ v, 1 ≤ v ≤ n0) (ids T) →
  (∀ w, adj (edges t) w = a w) →
  length (depth t) = L → length (max_depth_in_subtree t) = L →
  length (farthest_node t) = L →
  _compute_farthest fuel (root T) q t = (Ok tt, t') →
  untouched (ids T) (farthest_node t) (farthest_node t')
  ∧ length (farthest_node t') = L
  ∧ ∀ S, S ∈ subtrees T →
      deepest_ok (depth t) (max_depth_in_subtree t') (farthest_node t') S.
Proof.
  revert T q t t'. induction fuel as [|fuel IH];
    intros [u cs] q t t' Hh Hs Hnd Hrg Ha Hld Hlm Hlf Hrun.
  { simpl in Hh. lia. }
  cbn [root ids height shape subtrees] in *.
  apply andb_prop in Hs as [Hf%bool_decide_eq_true Hs].
  assert (1 ≤ u ≤ n0) as Hur by (by apply Forall_cons in Hrg as [? _]).
  cbn [_compute_farthest] in Hrun.
  assert (load depth u t = (Ok (at_ (depth t) u), t)) as Hdu.
  { apply load_ok. rewrite Hld. unfold L. lia. }
  step_in Hrun Hdu.
  destruct (store_ok max_depth_in_subtree with_max_depth_in_subtree u
              (at_ (depth t) u) t) as (l1 & Hl1 & Hst1).
  { rewrite Hlm. unfold L. lia. }
  step_in Hrun Hst1.
  destruct (store_ok farthest_node with_farthest_node u u
              (with_max_depth_in_subtree l1 t)) as (l2 & Hl2 & Hst2).
  { simpl. rewrite Hlf. unfold L. lia. }
  step_in Hrun Hst2.
  set (t2 := with_farthest_node l2 (with_max_depth_in_subtree l1 t)) in *.
  destruct (edges_at_adj u t2) as (t3 & He & Ha3 & Hp3 & Hd3 & Hm3 & Hf3).
  step_in Hrun He. rewrite Ha in Hrun.
  assert (Forall (λ c, (height c ≤ fuel)%nat ∧ shape a u c = true) cs) as Hcs.
  { apply Forall_forall. intros c Hc. split.
    - pose proof (height_kid c cs Hc). lia.
    - rewrite forallb_forall in Hs. apply Hs. by apply list_elem_of_In. }
  assert (at_ (max_depth_in_subtree t3) u = at_ (depth t) u) as Hm3u.
  { rewrite Hm3. simpl. by eapply at_setitem_eq. }
  assert (at_ (farthest_node t3) u = u) as Hf3u.
  { rewrite Hf3. simpl. by eapply at_setitem_eq. }
  destruct (cf_loop_exact n0 a fuel u q IH (a u) cs t3 t')
    as (Hff & Hlf' & Hbd & Hcase & Hok); try done.
  { intros w. by rewrite Ha3. }
  { by rewrite Hd3. }
  { rewrite Hm3. simpl. by rewrite (setitem_length _ _ _ _ Hl1). }
  { rewrite Hf3. simpl. by rewrite (setitem_length _ _ _ _ Hl2). }
  { rewrite Hm3u, Hd3. simpl. lia. }
  rewrite Hd3 in Hbd, Hcase, Hok. simpl in Hbd, Hcase, Hok.
  rewrite Hm3u, Hf3u in Hcase.
  split_and!.
  - intros w Hw Hnin. rewrite Hff, Hf3 by done. simpl.
    apply not_elem_of_cons in Hnin as [Hne _].
    eapply at_setitem_ne; [done|lia|done|done].
  - done.
  - intros S [->|HS]%elem_of_cons.
    + unfold deepest_ok. cbn [root ids]. split_and!.
      * intros w [->|Hw]%elem_of_cons; [|by apply Hbd].
        destruct Hcase as [(-> & _)|(? & _)]; lia.
      * destruct Hcase as [(_ & ->)|(_ & Hin & _)]; [left|by right].
      * destruct Hcase as [(-> & ->)|(_ & _ & ?)]; done.
      * intros E. destruct Hcase as [(_ & ->)|(? & _)]; [done|lia].
    + apply in_concat_map in HS as (c & Hc & HS). by apply (Hok c S).
Qed.
End CfExactMain.

(** ** The preprocessed tables of a valid tree, node by node *)

Lemma preprocess_exact n0 edge_list T fuel :
  valid_tree n0 edge_list T → (height T ≤ fuel)%nat →
  ∃ t, preprocess fuel (build n0 edge_list) = (Ok tt, t)
       ∧ Inv n0 t
       ∧ (∀ S, S ∈ subtrees T → linked (parent t) (depth t) S)
       ∧ (∀ S, S ∈ subtrees T →
            deepest_ok (depth t) (max_depth_in_subtree t) (farthest_node t) S).
Proof.
  intros Hval Hfuel.
  destruct (preprocess_valid n0 edge_list T fuel Hval Hfuel) as (t & Hpre & HInv).
  exists t. split; [done|]. split; [done|].
  destruct Hval as (Hroot & Hnd & Hrg & Hlen & Hshape).
  set (t0 := build n0 edge_list) in *.
  pose proof (build_wf n0 edge_list) as Hwf0. fold t0 in Hwf0.
  pose proof Hwf0 as (_ & _ & _ & Hld0 & Hlm0 & Hlf0 & [Hlp0 _] & _).
  assert (1 ≤ n0) as Hn0 by apply (Inv_n0 n0 t HInv).
  unfold preprocess in Hpre.
  apply bind_ok_inv in Hpre as ([] & t1 & Hdfs & Hpre).
  apply bind_ok_inv in Hpre as ([] & t2 & Hbl & Hpre).
  apply bind_ok_inv in Hpre as ([] & t3 & Hcf & Hpre).
  injection Hpre as <-.
  rewrite <- Hroot in Hdfs, Hcf.
  (* the three passes, each on the object the one before left *)
  destruct (dfs_valid n0 (adj (edges t0)) fuel T 0 t0) as (t1' & Hdfs' & Hpost1);
    try done.
  rewrite Hdfs in Hdfs'. injection Hdfs' as <-.
  destruct Hpost1 as (Ha1 & _).
  pose proof (dfs_links n0 (adj (edges t0)) fuel T 0 t0 t1 Hfuel Hshape Hnd Hrg
                ltac:(done) Hlp0 Hld0 Hdfs) as Hlinks.
  assert (wf n0 false t1) as Hwf1.
  { replace t1 with (_dfs fuel (root T) 0 t0).2 by (by rewrite Hdfs).
    apply dfs_keeps; [done|]. unfold valid_index. lia. }
  assert (wf n0 false t2) as Hwf2.
  { replace t2 with (_build_lifting t1).2 by (by rewrite Hbl).
    by apply build_lifting_keeps. }
  assert (depth t2 = depth t1 ∧ parent t2 = parent t1 ∧ edges t2 = edges t1)
    as (Hd2 & Hp2 & He2).
  { replace t2 with (_build_lifting t1).2 by (by rewrite Hbl).
    unfold _build_lifting.
    apply (bind_keeps (λ t, depth t = depth t1 ∧ parent t = parent t1
                            ∧ edges t = edges t1)); [done|].
    intros n1 ta _ Ia. apply bind_keeps.
    { apply for_each_keeps; [done|]. intros v tb _ Ib.
      apply bind_keeps; [by apply readonly_keeps; auto with readonly|].
      intros pv tc _ Ic. unfold store_up.
      destruct (getitem (up tc) v); [|done].
      destruct (setitem _ 0 pv); [|done].
      by destruct (setitem (up tc) v _). }
    intros _ tb _ Ib. apply bind_keeps; [done|]. intros logn tc _ Ic.
    apply for_each_keeps; [done|]. intros k td _ Id.
    apply bind_keeps; [done|]. intros n2 te _ Ie.
    apply for_each_keeps; [done|]. intros v tf _ If.
    apply bind_keeps; [by apply readonly_keeps; auto with readonly|].
    intros x tg _ Ig.
    apply bind_keeps; [by apply readonly_keeps; auto with readonly|].
    intros y th _ Ih. unfold store_up.
    destruct (getitem (up th) v); [|done].
    destruct (setitem _ k y); [|done].
    by destruct (setitem (up th) v _). }
  pose proof Hwf2 as (_ & _ & _ & Hld2 & Hlm2 & Hlf2 & _).
  assert (∀ w, adj (edges t2) w = adj (edges t0) w) as Ha2.
  { intros w. by rewrite He2. }
  destruct (compute_farthest_valid n0 (adj (edges t0)) fuel T 0 t2)
    as (t3' & Hcf' & Hpost3); try done.
  rewrite Hcf in Hcf'. injection Hcf' as <-.
  destruct Hpost3 as (_ & Hd3 & _).
  destruct (cf_exact n0 (adj (edges t0)) fuel T 0 t2 t3 Hfuel Hshape Hnd Hrg
              Ha2 Hld2 Hlm2 Hlf2 Hcf) as (_ & _ & Hok).
  assert (parent t3 = parent t2) as Hp3.
  { replace t3 with (_compute_farthest fuel (root T) 0 t2).2
      by (by rewrite Hcf).
    by apply (compute_farthest_frame (λ t, parent t = parent t2)). }
  simpl. rewrite Hp3, Hp2, Hd3, Hd2. split; [done|].
  intros S HS. specialize (Hok S HS). by rewrite Hd2 in Hok.
Qed.

Lemma shape_kids a p T S c :
  shape a p T = true → S ∈ subtrees T → c ∈ kids S → root c ∈ a (root S).
Proof.
  revert p S c. induction T as [u cs IH] using rtree_ind'. intros p S c Hs.
  cbn [shape subtrees] in *.
  apply andb_prop in Hs as [Hf%bool_decide_eq_true Hs].
  intros [->|HS]%elem_of_cons Hc.
  - simpl in *.
    assert (root c ∈ filter (λ v, v ≠ p) (a u)) as Hin.
    { rewrite Hf. apply list_elem_of_fmap. by exists c. }
    by apply list_elem_of_filter in Hin as [_ ?].
  - apply in_concat_map in HS as (c' & Hc' & HS).
    rewrite Forall_forall in IH. apply (IH c' Hc' u S c); [|done..].
    rewrite forallb_forall in Hs. apply Hs. by apply list_elem_of_In.
Qed.

(** On every valid tree, [_dfs] records the tree it walked: node 1 has
    parent 0 and depth 0, and every other node is recorded with the node it
    hangs from as its parent, one level deeper than that parent; parent and
    child are joined by an edge of the input. *)
Theorem dfs_records_the_tree n0 edge_list T fuel :
  valid_tree n0 edge_list T → (height T ≤ fuel)%nat →
  ∃ t, preprocess fuel (build n0 edge_list) = (Ok tt, t)
       ∧ getitem (parent t) 1 = Some 0
       ∧ getitem (depth t) 1 = Some 0
       ∧ ∀ S c, S ∈ subtrees T → c ∈ kids S →
           getitem (parent t) (root c) = Some (root S)
           ∧ at_ (depth t) (root c) = at_ (depth t) (root S) + 1
           ∧ root c ∈ neighbours edge_list (root S).
Proof.
  intros Hval Hfuel.
  destruct (preprocess_exact n0 edge_list T fuel Hval Hfuel)
    as (t & Hpre & HInv & Hlinks & _).
  exists t. split; [done|].
  pose proof (Inv_n0 n0 t HInv) as Hn0.
  assert (∀ w, 1 ≤ w ≤ n0 → getitem (parent t) w = Some (at_ (parent t) w))
    as Hget.
  { intros w Hw. apply getitem_at.
    destruct HInv as (_ & (_&_&_&_&_&_&[Hl _]&_) & _). rewrite Hl. lia. }
  split_and!.
  - rewrite Hget by lia. f_equal. apply (par_1 n0 t HInv).
  - rewrite getitem_at by (rewrite (Inv_len_depth n0 t HInv); lia).
    f_equal. apply (depth_1 n0 t HInv).
  - intros S c HS Hc. destruct (Hlinks S HS c Hc) as [Hp Hd].
    destruct Hval as (_ & _ & Hrg & _ & Hshape).
    assert (1 ≤ root c ≤ n0) as Hrc.
    { rewrite Forall_forall in Hrg. apply Hrg.
      apply (subtree_ids T S); [done|]. by apply kid_root_in_ids. }
    split_and!; [by rewrite Hget, Hp|done|].
    rewrite <- (build_adj n0).
    by apply (shape_kids _ 0 T).
Qed.

Lemma dfs_records_the_tree_witness :
  ∃ t, preprocess 5 (build 5 path5) = (Ok tt, t)
       ∧ getitem (parent t) 1 = Some 0
       ∧ getitem (depth t) 1 = Some 0
       ∧ ∀ S c, S ∈ subtrees path5_tree → c ∈ kids S →
           getitem (parent t) (root c) = Some (root S)
           ∧ at_ (depth t) (root c) = at_ (depth t) (root S) + 1
           ∧ root c ∈ neighbours path5 (root S).
Proof.
  apply (dfs_records_the_tree 5 path5 path5_tree 5);
    [compute_done | simpl; lia].
Defined.

(** On every valid tree, [_compute_farthest] records at every node u the
    depth of a deepest node of the subtree of u in [max_depth_in_subtree[u]]
    and a node of that subtree at that depth in [farthest_node[u]]; when
    nothing in the subtree is deeper than u, that node is u itself. *)
Theorem compute_farthest_records_deepest n0 edge_list T fuel :
  valid_tree n0 edge_list T → (height T ≤ fuel)%nat →
  ∃ t, preprocess fuel (build n0 edge_list) = (Ok tt, t)
       ∧ ∀ S, S ∈ subtrees T →
           (∀ w, w ∈ ids S →
              at_ (depth t) w ≤ at_ (max_depth_in_subtree t) (root S))
           ∧ at_ (farthest_node t) (root S) ∈ ids S
           ∧ at_ (depth t) (at_ (farthest_node t) (root S))
             = at_ (max_depth_in_subtree t) (root S)
           ∧ (at_ (max_depth_in_subtree t) (root S) = at_ (depth t) (root S) →
              at_ (farthest_node t) (root S) = root S).
Proof.
  intros Hval Hfuel.
  destruct (preprocess_exact n0 edge_list T fuel Hval Hfuel)
    as (t & Hpre & _ & _ & Hok).
  exists t. split; [done|]. intros S HS. apply (Hok S HS).
Qed.

Lemma compute_farthest_records_deepest_witness :
  ∃ t, preprocess 2 (build 4 star4) = (Ok tt, t)
       ∧ ∀ S, S ∈ subtrees star4_tree →
           (∀ w, w ∈ ids S →
              at_ (depth t) w ≤ at_ (max_depth_in_subtree t) (root S))
           ∧ at_ (farthest_node t) (root S) ∈ ids S
           ∧ at_ (depth t) (at_ (farthest_node t) (root S))
             = at_ (max_depth_in_subtree t) (root S)
           ∧ (at_ (max_depth_in_subtree t) (root S) = at_ (depth t) (root S) →
              at_ (farthest_node t) (root S) = root S).
Proof.
  apply (compute_farthest_records_deepest 4 star4 star4_tree 2);
    [compute_done | simpl; lia].
Defined.

(** On every valid preprocessed tree, the answer for stamina 0 at a node is
    the height of its subtree: the distance down to a deepest node below
    it, which no node of the subtree exceeds. *)
Theorem zero_stamina_is_subtree_height n0 edge_list T fuel :
  valid_tree n0 edge_list T → (height T ≤ fuel)%nat →
  ∃ t, preprocess fuel (build n0 edge_list) = (Ok tt, t)
       ∧ ∀ S, S ∈ subtrees T →
           ∃ r, get_farthest_distance (root S) 0 t = (Ok r, t)
                ∧ (∃ w, w ∈ ids S
                        ∧ r = at_ (depth t) w - at_ (depth t) (root S))
                ∧ ∀ w, w ∈ ids S →
                    at_ (depth t) w - at_ (depth t) (root S) ≤ r.
Proof.
  intros Hval Hfuel.
  destruct (preprocess_exact n0 edge_list T fuel Hval Hfuel)
    as (t & Hpre & HInv & _ & Hok).
  exists t. split; [done|]. intros S HS.
  destruct (Hok S HS) as (Hub & Hin & Hd & _).
  assert (1 ≤ root S ≤ n0) as Hr.
  { destruct Hval as (_ & _ & Hrg & _). rewrite Forall_forall in Hrg.
    apply Hrg. by apply subtree_root. }
  eexists. split.
  - rewrite (get_farthest_distance_climb n0 t HInv) by done. done.
  - split.
    + eexists. split; [exact Hin|]. by rewrite Hd.
    + intros w Hw. specialize (Hub w Hw). lia.
Qed.

Lemma zero_stamina_is_subtree_height_witness :
  ∃ t, preprocess 5 (build 5 path5) = (Ok tt, t)
       ∧ ∀ S, S ∈ subtrees path5_tree →
           ∃ r, get_farthest_distance (root S) 0 t = (Ok r, t)
                ∧ (∃ w, w ∈ ids S
                        ∧ r = at_ (depth t) w - at_ (depth t) (root S))
                ∧ ∀ w, w ∈ ids S →
                    at_ (depth t) w - at_ (depth t) (root S) ≤ r.
Proof.
  apply (zero_stamina_is_subtree_height 5 path5 path5_tree 5);
    [compute_done | simpl; lia].
Defined.

(** ** Answering a batch of queries *)

Lemma process_queries_loop_ok queries results t rs t' :
  process_queries_loop queries results t = (Ok rs, t') ↔
  t' = t
  ∧ ∃ answers, rs = results ++ answers
      ∧ Forall2 (λ q r, get_farthest_distance q.1 q.2 t = (Ok r, t))
                queries answers.
Proof.
  revert results. induction queries as [|[v s] qs IH]; intros results.
  - simpl. split.
    + intros [= <- <-]. split; [done|]. exists []. by rewrite app_nil_r.
    + intros (-> & answers & -> & ->%Forall2_nil_inv_l).
      by rewrite app_nil_r.
  - cbn [process_queries_loop]. unfold process_query.
    pose proof (readonly_get_farthest_distance v s t) as Hro.
    destruct (get_farthest_distance v s t) as [[r|e] t1] eqn:E;
      simpl in Hro; subst t1.
    + rewrite (bind_ok _ _ _ _ _ E). rewrite IH. split.
      * intros (-> & answers & -> & HF). split; [done|].
        exists (r :: answers). rewrite <- app_assoc. split; [done|].
        by constructor.
      * intros (-> & answers & -> & HF). split; [done|].
        apply Forall2_cons_inv_l in HF as (r' & answers' & Hr & HF & ->).
        simpl in Hr. rewrite E in Hr. injection Hr as <-.
        exists answers'. by rewrite <- app_assoc.
    + rewrite (bind_raise _ _ _ _ _ E). split; [done|].
      intros (-> & answers & -> & HF).
      apply Forall2_cons_inv_l in HF as (r' & answers' & Hr & _).
      simpl in Hr. by rewrite E in Hr.
Qed.

Lemma process_queries_ok queries t rs t' :
  process_queries queries t = (Ok rs, t') ↔
  t' = t
  ∧ Forall2 (λ q r, get_farthest_distance q.1 q.2 t = (Ok r, t)) queries rs.
Proof.
  unfold process_queries. rewrite process_queries_loop_ok. simpl.
  split.
  - by intros (-> & answers & -> & HF).
  - intros (-> & HF). split; [done|]. by exists rs.
Qed.

(** [process_queries] returns exactly when every query returns; the list it
    returns holds the answers of [get_farthest_distance] in the order of
    the queries, one per query, and the tree is left as it was. *)
Theorem process_queries_in_order queries t rs t' :
  process_queries queries t = (Ok rs, t') ↔
  t' = t
  ∧ Forall2 (λ q r, get_farthest_distance q.1 q.2 t = (Ok r, t)) queries rs.
Proof. apply process_queries_ok. Qed.

Lemma process_queries_raise queries results t :
  _preprocessed t = false → queries ≠ [] →
  process_queries_loop queries results t = (Raise RuntimeError, t).
Proof.
  intros Hflag Hne. destruct queries as [|[v s] qs]; [done|].
  cbn [process_queries_loop]. apply bind_raise. unfold process_query.
  unfold get_farthest_distance.
  assert (get _preprocessed t = (Ok false, t)) as Hg.
  { unfold get. by rewrite Hflag. }
  by step Hg.
Qed.

(** On a tree that has not been preprocessed, a batch with at least one
    query raises RuntimeError at its first query; the empty batch returns
    the empty list. *)
Theorem process_queries_unpreprocessed queries t :
  _preprocessed t = false →
  process_queries queries t
  = (if decide (queries = []) then Ok [] else Raise RuntimeError, t).
Proof.
  intros Hflag. unfold process_queries. case_decide as Hq.
  - by subst.
  - by apply process_queries_raise.
Qed.

Lemma process_queries_unpreprocessed_witness :
  process_queries [(2, 1)] (build 4 star4)
  = (Raise RuntimeError, build 4 star4).
Proof.
  exact (process_queries_unpreprocessed [(2, 1)] (build 4 star4) eq_refl).
Defined.

(** On a valid tree with enough recursion budget, a test case whose query
    nodes all lie in [1, n] is answered without an exception, with one
    answer per query, each the closed form of [get_farthest_distance]. *)
Theorem solve_case_valid n0 edge_list T fuel queries :
  valid_tree n0 edge_list T → (height T ≤ fuel)%nat →
  Forall (λ q : Z * Z, 1 ≤ q.1 ≤ n0) queries →
  ∃ t rs, preprocess fuel (build n0 edge_list) = (Ok tt, t)
          ∧ solve_case fuel n0 edge_list queries = Ok rs
          ∧ length rs = length queries
          ∧ Forall2 (λ q r, r = best_descent t q.1 (Z.min q.2 (at_ (depth t) q.1)))
                    queries rs.
Proof.
  intros Hval Hfuel Hq.
  destruct (preprocess_valid n0 edge_list T fuel Hval Hfuel) as (t & Hpre & HInv).
  set (rs := (λ q : Z * Z, best_descent t q.1 (Z.min q.2 (at_ (depth t) q.1)))
             <$> queries).
  assert (Forall2 (λ q r, get_farthest_distance q.1 q.2 t = (Ok r, t))
                  queries rs) as HF.
  { unfold rs. apply Forall2_fmap_r, Forall_Forall2_diag.
    eapply Forall_impl; [exact Hq|]. intros q Hv. simpl.
    by apply (get_farthest_distance_closed n0 t HInv). }
  exists t, rs. split; [done|]. unfold solve_case. rewrite Hpre.
  assert (process_queries queries t = (Ok rs, t)) as ->.
  { by apply process_queries_ok. }
  split; [done|]. split; [unfold rs; by rewrite length_fmap|].
  unfold rs. apply Forall2_fmap_r, Forall_Forall2_diag.
  by apply Forall_forall.
Qed.

Lemma solve_case_valid_witness :
  ∃ t rs, preprocess 5 (build 5 path5) = (Ok tt, t)
          ∧ solve_case 5 5 path5 [(3, 0); (3, 1)] = Ok rs
          ∧ length rs = length [(3, 0); (3, 1)]
          ∧ Forall2 (λ q r, r = best_descent t q.1 (Z.min q.2 (at_ (depth t) q.1)))
                    [(3, 0); (3, 1)] rs.
Proof.
  apply (solve_case_valid 5 path5 path5_tree 5 [(3, 0); (3, 1)]);
    [compute_done | simpl; lia | repeat constructor; simpl; lia].
Defined.

Lemma main_loop_ok fuel cases all_results rss :
  main_loop fuel cases all_results = Ok rss ↔
  ∃ new, rss = all_results ++ new
         ∧ Forall2 (λ c rs, solve_case fuel c.1.1 c.1.2 c.2 = Ok rs) cases new.
Proof.
  revert all_results.
  induction cases as [|[[n0 el] qs] cases IH]; intros all_results.
  - simpl. split.
    + intros [= <-]. exists []. by rewrite app_nil_r.
    + intros (new & -> & ->%Forall2_nil_inv_l). by rewrite app_nil_r.
  - cbn [main_loop]. destruct (solve_case fuel n0 el qs) as [rs|e] eqn:E.
    + rewrite IH. split.
      * intros (new & -> & HF). exists (rs :: new).
        rewrite <- app_assoc. split; [done|]. by constructor.
      * intros (new & -> & HF).
        apply Forall2_cons_inv_l in HF as (rs' & new' & Hr & HF & ->).
        simpl in Hr. rewrite E in Hr. injection Hr as <-.
        exists new'. by rewrite <- app_assoc.
    + split; [done|]. intros (new & -> & HF).
      apply Forall2_cons_inv_l in HF as (rs' & new' & Hr & _).
      simpl in Hr. by rewrite E in Hr.
Qed.

Lemma main_results_per_case fuel trees_data all_queries rss :
  main_results fuel trees_data all_queries = Ok rss ↔
  Forall2 (λ c rs, solve_case fuel c.1.1 c.1.2 c.2 = Ok rs)
          (zip trees_data all_queries) rss.
Proof.
  unfold main_results. rewrite main_loop_ok. simpl. split.
  - by intros (new & -> & HF).
  - intros HF. by exists rss.
Qed.

Lemma main_results_length fuel trees_data all_queries rss :
  main_results fuel trees_data all_queries = Ok rss →
  length rss = Nat.min (length trees_data) (length all_queries).
Proof.
  intros H%main_results_per_case. apply Forall2_length in H.
  rewrite <- H. apply length_zip_with.
Qed.

(** ** The recursion depth of the traversal *)

Section DfsDepth.
Variables (n0 : Z) (a : Z → list Z).
Let L := Z.to_nat (n0 + 1).

Local Abbreviation dfs_body fuel u p :=
  (λ v, if bool_decide (v ≠ p) then
          du <- load depth u ;;
          store depth with_depth v (du + 1) ;;
          _dfs fuel v u
        else ret tt).



End DfsDepth.



(** ** When the distance query raises *)

Lemma kth_loop_wf n0 b t idxs k u :
  wf n0 b t → Forall (λ i, 0 ≤ i ≤ LOGN t) idxs →
  valid_index (Z.to_nat (n0 + 1)) u →
  ∃ r, kth_loop idxs k u t = (Ok r, t) ∧ valid_index (Z.to_nat (n0 + 1)) r.
Proof.
  intros Hwf Hidx. revert u. induction Hidx as [|i idxs Hi _ IH]; intros u Hu.
  - by exists u.
  - cbn [kth_loop]. destruct (Z.land k (Z.shiftl 1 i) =? 0); [by apply IH|].
    destruct (load_up_wf n0 b t u i Hwf Hu Hi) as (x & Hld & Hx).
    step Hld. destruct (x =? 0); [by exists x|by apply IH].
Qed.

Lemma climb_loop_wf n0 b t useds v md :
  wf n0 b t → valid_index (Z.to_nat (n0 + 1)) v →
  ∃ r, climb_loop useds v md t = (Ok r, t).
Proof.
  intros Hwf Hv. revert md. induction useds as [|used useds IH]; intros md.
  - by exists md.
  - cbn [climb_loop]. unfold get_kth_ancestor.
    assert (get LOGN t = (Ok (LOGN t), t)) as Hg by done. step Hg.
    destruct (kth_loop_wf n0 b t (range 0 (LOGN t + 1)) used v Hwf) as (a & Ha & Hva);
      [|done|].
    { apply Forall_forall. intros i. unfold range. rewrite elem_of_seqZ. lia. }
    step Ha. destruct (a =? 0); [by exists md|].
    pose proof Hwf as (_&_&_&Hld&Hlm&_).
    assert (load max_depth_in_subtree a t
            = (Ok (at_ (max_depth_in_subtree t) a), t)) as Hm.
    { apply load_ok. by rewrite Hlm. }
    step Hm.
    assert (load depth v t = (Ok (at_ (depth t) v), t)) as Hd.
    { apply load_ok. by rewrite Hld. }
    step Hd. apply IH.
Qed.

Lemma preprocess_ok_nodes n0 edge_list fuel t :
  preprocess fuel (build n0 edge_list) = (Ok tt, t) → 1 ≤ n0.
Proof.
  intros Hpre. destruct (Z.le_gt_cases n0 0) as [Hn0|]; [|lia].
  destruct fuel as [|fuel].
  - done.
  - by rewrite (preprocess_without_nodes n0 edge_list fuel Hn0) in Hpre.
Qed.

(** On every tree on which [preprocess] returned, whatever the input was,
    [get_farthest_distance(v, stamina)] returns a value when
    -(n+1) <= v <= n and raises IndexError otherwise: every id the walk
    reads from [up] is again an index the tables accept. *)
Theorem farthest_distance_raises_iff n0 edge_list fuel t v s :
  preprocess fuel (build n0 edge_list) = (Ok tt, t) →
  if decide (- (n0 + 1) ≤ v ≤ n0)
  then ∃ r, get_farthest_distance v s t = (Ok r, t)
  else get_farthest_distance v s t = (Raise IndexError, t).
Proof.
  intros Hpre. pose proof (preprocess_ok_nodes _ _ _ _ Hpre) as Hn0.
  pose proof (preprocess_ok_wf n0 fuel _ t (build_wf n0 edge_list) Hpre)
    as Hwf.
  rewrite (get_farthest_distance_simplify n0 true) by done.
  unfold get_farthest_distance_simplified.
  pose proof Hwf as (_&_&Hflag&Hld&Hlm&_).
  assert (get _preprocessed t = (Ok true, t)) as Hg.
  { unfold get. by rewrite Hflag. }
  step Hg. cbn [negb]. case_decide as Hv.
  - assert (valid_index (Z.to_nat (n0 + 1)) v) as Hvi.
    { unfold valid_index. lia. }
    assert (load max_depth_in_subtree v t
            = (Ok (at_ (max_depth_in_subtree t) v), t)) as Hm.
    { apply load_ok. by rewrite Hlm. }
    step Hm.
    assert (load depth v t = (Ok (at_ (depth t) v), t)) as Hd.
    { apply load_ok. by rewrite Hld. }
    step Hd. by apply (climb_loop_wf n0 true).
  - apply bind_raise. apply load_raise. rewrite Hlm. lia.
Qed.

Lemma farthest_distance_raises_iff_witness :
  (∃ r, get_farthest_distance (-5) 7 (preprocess 2 (build 4 star4)).2
        = (Ok r, (preprocess 2 (build 4 star4)).2))
  ∧ get_farthest_distance 5 7 (preprocess 2 (build 4 star4)).2
    = (Raise IndexError, (preprocess 2 (build 4 star4)).2).
Proof.
  assert (preprocess 2 (build 4 star4)
          = (Ok tt, (preprocess 2 (build 4 star4)).2)) as H.
  { vm_compute. reflexivity. }
  split.
  - exact (farthest_distance_raises_iff 4 star4 2 _ (-5) 7 H).
  - exact (farthest_distance_raises_iff 4 star4 2 _ 5 7 H).
Defined.

Lemma kth_ancestor_depth_in_range_witness :
  ∃ t, preprocess 5 (build 5 path5) = (Ok tt, t)
       ∧ ∀ v k r, 1 ≤ v ≤ 5 → 0 ≤ k < 2 ^ (LOGN t + 1) →
           get_kth_ancestor v k t = (Ok r, t) → r ≠ 0 →
           ∃ dr dv, getitem (depth t) r = Some dr
                    ∧ getitem (depth t) v = Some dv
                    ∧ dr = dv - k.
Proof.
  apply (kth_ancestor_depth_in_range 5 path5 path5_tree 5);
    [compute_done | simpl; lia].
Defined.

(** [main] pairs trees and query lists with [zip]: when it returns, it has
    answered as many test cases as the shorter of the two lists holds, each
    on a tree of its own, in input order. *)
Theorem main_answers_paired_cases fuel trees_data all_queries rss :
  main_results fuel trees_data all_queries = Ok rss →
  length rss = Nat.min (length trees_data) (length all_queries)
  ∧ Forall2 (λ c rs, solve_case fuel c.1.1 c.1.2 c.2 = Ok rs)
            (zip trees_data all_queries) rss.
Proof.
  intros H. split; [by apply (main_results_length fuel)|].
  by apply main_results_per_case.
Qed.

Lemma main_answers_paired_cases_witness :
  length [[1; 1]; [2; 3]]
  = Nat.min (length [(4, star4); (5, path5)])
            (length [[(1, 0); (2, 1)]; [(3, 0); (3, 1)]; [(1, 1)]])
  ∧ Forall2 (λ c rs, solve_case 5 c.1.1 c.1.2 c.2 = Ok rs)
            (zip [(4, star4); (5, path5)]
                 [[(1, 0); (2, 1)]; [(3, 0); (3, 1)]; [(1, 1)]])
            [[1; 1]; [2; 3]].
Proof.
  apply (main_answers_paired_cases 5 [(4, star4); (5, path5)]
           [[(1, 0); (2, 1)]; [(3, 0); (3, 1)]; [(1, 1)]]).
  vm_compute. reflexivity.
Defined.
